(** * Invidentes: a shallow embedding of the assistant's decision logic

    The development follows the Python sources module by module:

    - [PyQueue]            the fragment of [queue.Queue] the programs use;
    - [ObstacleAssistant]  the frame hand-off of the standalone capture loop
                           ([Nueva carpeta/obstacle_assistant.py]);
    - [PyFloat]            the float products whose rounding decides a test;
    - [ObstacleAlert]      tone alerts and their debounce
                           ([Nueva carpeta/modules/obstacle_alert.py]);
    - [Helpers]            the proximity classifier
                           ([Nueva carpeta/utils/helpers.py]);
    - [AudioDetector]      the RMS-only noise detector
                           ([modules/audio_detector.py]);
    - [DatabaseManager]    the description cache of both backends
                           ([modules/database_manager.py]);
    - [PyStr]              the [str] methods the text cleaning calls;
    - [LanguageAgent]      cache key and text cleaning
                           ([Streamlit-Ollama/agents/language_agent.py]);
    - [App]                the per-cycle detection gate of the browser
                           variant ([app.py]);
    - [VisionAgent]        relevance filter, frame skipping and ranking of
                           detections ([Nueva carpeta/agents/vision_agent.py]);
    - [DetectionThread]    what the detection loop does with each detection
                           ([Nueva carpeta/obstacle_assistant.py]);
    - [VoiceAnnouncer]     spoken announcements and their debounce
                           ([Nueva carpeta/modules/voice_announcer.py]);
    - [AudioManager]       the speech queue of the browser variant
                           ([Streamlit-Ollama/modules/audio_module.py]).

    Conventions.  Python [int] is [Z].  Python [float] values that carry
    times, durations and sizes are read as exact rationals ([Q]); the
    square root of the noise detector lives in [R].  Where a decision
    depends on how a product with a decimal literal is rounded (the bounds
    of the center zone, the 70% mark of the text cleaning), the product is
    the IEEE 754 double the code computes ([PyFloat]).  Dictionaries keyed by
    strings are [gmap string _].  A function that reads the clock takes the
    value of [time.time()] as an argument. *)

From Stdlib Require Import ZArith QArith Qround Qpower Qabs Reals Lqa Lra Lia
  Ascii String SpecFloat.
From stdpp Require Import gmap strings list sorting pretty.

Local Open Scope Z_scope.

(** ** [queue.Queue] *)

Module PyQueue.

(** [queue.Queue(maxsize)]: a FIFO; [maxsize <= 0] means no bound. *)
Record Queue (A : Type) : Type := mkQueue {
  maxsize : Z;
  items : list A
}.
Arguments mkQueue {A} _ _.
Arguments maxsize {A} _.
Arguments items {A} _.

Definition new {A} (maxsize : Z) : Queue A := mkQueue maxsize [].

Definition qsize {A} (q : Queue A) : Z := Z.of_nat (length (items q)).

(** [Queue.full()]: [0 < maxsize <= qsize]. *)
Definition full {A} (q : Queue A) : bool :=
  (0 <? maxsize q) && (maxsize q <=? qsize q).

(** [Queue.empty()]. *)
Definition empty {A} (q : Queue A) : bool :=
  match items q with [] => true | _ => false end.

(** [Queue.put(item, block=False)]: [None] is the exception [queue.Full]. *)
Definition put_nowait {A} (x : A) (q : Queue A) : option (Queue A) :=
  if full q then None else Some (mkQueue (maxsize q) (items q ++ [x])).

(** [Queue.get_nowait()]: [None] is the exception [queue.Empty]. *)
Definition get_nowait {A} (q : Queue A) : option (A * Queue A) :=
  match items q with
  | [] => None
  | x :: rest => Some (x, mkQueue (maxsize q) rest)
  end.

Lemma put_nowait_full {A} (x : A) q : full q = true -> put_nowait x q = None.
Proof. unfold put_nowait. now intros ->. Qed.

Lemma put_nowait_not_full {A} (x : A) q :
  full q = false ->
  put_nowait x q = Some (mkQueue (maxsize q) (items q ++ [x])).
Proof. unfold put_nowait. now intros ->. Qed.

(** A queue built without [maxsize] is never full. *)
Lemma unbounded_never_full {A} (q : Queue A) : maxsize q <= 0 -> full q = false.
Proof.
  intros H. unfold full.
  destruct (Z.ltb_spec 0 (maxsize q)); [lia | reflexivity].
Qed.

Lemma full_iff {A} (q : Queue A) :
  full q = true <-> 0 < maxsize q <= qsize q.
Proof.
  unfold full. rewrite andb_true_iff, Z.ltb_lt, Z.leb_le. tauto.
Qed.

End PyQueue.

(** ** The standalone orchestrator: frame hand-off *)

Module ObstacleAssistant.
Import PyQueue.

Section Capture.
(** Frames are opaque images; [frame.copy()] is the frame's value. *)
Context {Frame : Type}.

(** [self.frame_queue = queue.Queue(maxsize=2)] *)
Definition frame_queue_init : Queue Frame := new 2.

(** What one iteration of [_video_capture_thread] does with the frame it
    has read.  [Crashed] is an exception that leaves the inner handlers
    and ends the capture loop. *)
Inductive offer_result : Type :=
| Continue (q : Queue Frame)
| Crashed (q : Queue Frame).

(**
<<
  if not self.frame_queue.full():
      try:
          self.frame_queue.put(frame.copy(), block=False)
      except queue.Full:
          try:
              self.frame_queue.get_nowait()
              self.frame_queue.put(frame.copy(), block=False)
          except queue.Empty:
              pass
>>
*)
Definition offer_frame (frame : Frame) (q : Queue Frame) : offer_result :=
  if negb (full q) then
    match put_nowait frame q with
    | Some q1 => Continue q1
    | None =>
        match get_nowait q with
        | Some (_, q1) =>
            match put_nowait frame q1 with
            | Some q2 => Continue q2
            | None => Crashed q1
            end
        | None => Continue q
        end
    end
  else Continue q.

(** The capture loop over the frames the camera delivers, with no consumer
    running in between. *)
Fixpoint capture_frames (frames : list Frame) (q : Queue Frame) : Queue Frame :=
  match frames with
  | [] => q
  | f :: rest =>
      match offer_frame f q with
      | Continue q1 => capture_frames rest q1
      | Crashed q1 => q1
      end
  end.

(** [self.frame_queue.get(timeout=0.1)] of the detection loop, when a frame
    is there. *)
Definition detection_get (q : Queue Frame) : option (Frame * Queue Frame) :=
  get_nowait q.

(** A schedule of the two loops: the capture loop offers a frame, or the
    detection loop asks for one. *)
Inductive event : Type :=
| Offer (frame : Frame)
| Take.

Definition offered (events : list event) : list Frame :=
  omap (fun e => match e with Offer f => Some f | Take => None end) events.

(** The queue and the frames handed to the detection loop, in order, after
    a schedule; [None] when the capture loop ended with an exception.  A
    [Take] on the empty queue is the [queue.Empty] timeout and leaves
    everything as it is. *)
Fixpoint run_schedule (events : list event) (q : Queue Frame)
    : option (Queue Frame * list Frame) :=
  match events with
  | [] => Some (q, [])
  | Offer f :: rest =>
      match offer_frame f q with
      | Continue q1 => run_schedule rest q1
      | Crashed _ => None
      end
  | Take :: rest =>
      match detection_get q with
      | Some (f, q1) =>
          match run_schedule rest q1 with
          | Some (q2, taken) => Some (q2, f :: taken)
          | None => None
          end
      | None => run_schedule rest q
      end
  end.

(** With one producer the eviction branch is dead: the [put] behind
    [not full()] always succeeds. *)
Lemma offer_frame_not_full (f : Frame) q :
  full q = false ->
  offer_frame f q = Continue (mkQueue (maxsize q) (items q ++ [f])).
Proof.
  intros H. unfold offer_frame. rewrite H. cbn.
  now rewrite (put_nowait_not_full f q H).
Qed.

(** A full queue is left as it is: the new frame is the one dropped. *)
Lemma offer_frame_full (f : Frame) q :
  full q = true -> offer_frame f q = Continue q.
Proof. intros H. unfold offer_frame. now rewrite H. Qed.

Lemma capture_frames_full (frames : list Frame) q :
  full q = true -> capture_frames frames q = q.
Proof.
  intros H. induction frames as [|f rest IH]; [reflexivity|].
  cbn [capture_frames]. now rewrite (offer_frame_full f q H).
Qed.

(** Whatever the camera delivers, the queue ends with the first two frames
    of the burst. *)
Lemma capture_frames_keeps_first_two (frames : list Frame) :
  items (capture_frames frames frame_queue_init) = take 2 frames.
Proof.
  destruct frames as [|f1 [|f2 rest]]; try reflexivity.
  change (capture_frames (f1 :: f2 :: rest) frame_queue_init)
    with (capture_frames rest (mkQueue 2 [f1; f2])).
  now rewrite capture_frames_full.
Qed.

(** The capture step never takes a frame out, and never raises. *)
Lemma offer_frame_cases (f : Frame) q :
  offer_frame f q = Continue q /\ full q = true \/
  offer_frame f q = Continue (mkQueue (maxsize q) (items q ++ [f])) /\ full q = false.
Proof.
  destruct (full q) eqn:E.
  - left. split; [now apply offer_frame_full|reflexivity].
  - right. split; [now apply offer_frame_not_full|reflexivity].
Qed.

Lemma run_schedule_inv (events : list event) (q : Queue Frame) :
  0 < maxsize q -> qsize q <= maxsize q ->
  exists q' taken,
    run_schedule events q = Some (q', taken) /\
    maxsize q' = maxsize q /\
    qsize q' <= maxsize q /\
    taken ++ items q' `sublist_of` items q ++ offered events.
Proof.
  revert q. induction events as [|e rest IH]; intros q Hm Hs.
  - exists q, []. cbn. rewrite app_nil_r. repeat split; [lia|reflexivity].
  - destruct e as [f|]; cbn [run_schedule offered omap].
    + fold (offered rest).
      destruct (offer_frame_cases f q) as [[-> Hf]|[-> Hf]].
      * destruct (IH q Hm Hs) as (q' & taken & Hr & Hm' & Hs' & Hsub).
        exists q', taken. repeat split; try assumption.
        apply sublist_app_cons_r. now left.
      * assert (Hlt : qsize q < maxsize q).
        { destruct (Z.le_gt_cases (maxsize q) (qsize q)) as [Hge|]; [|lia].
          assert (full q = true) by (apply full_iff; lia). congruence. }
        destruct (IH (mkQueue (maxsize q) (items q ++ [f]))) as (q' & taken & Hr & Hm' & Hs' & Hsub).
        { exact Hm. }
        { unfold qsize in *. cbn. rewrite length_app. cbn. lia. }
        exists q', taken. cbn in Hm', Hs', Hsub.
        repeat split; try assumption.
        now rewrite <- app_assoc in Hsub.
    + fold (offered rest). unfold detection_get, get_nowait.
      destruct (items q) as [|x r] eqn:Ei.
      * destruct (IH q Hm Hs) as (q' & taken & Hr & Hm' & Hs' & Hsub).
        exists q', taken. rewrite Ei in Hsub. now repeat split.
      * destruct (IH (mkQueue (maxsize q) r)) as (q' & taken & Hr & Hm' & Hs' & Hsub).
        { exact Hm. }
        { unfold qsize in *. rewrite Ei in Hs. cbn in *. lia. }
        exists q', (x :: taken). rewrite Hr. cbn in Hm', Hs', Hsub.
        repeat split; try assumption.
        cbn. now apply sublist_skip.
Qed.

End Capture.

(** C1 (the code departs from the claim).  Three frames offered to the
    empty capacity-2 queue with no consumption leave the two OLDEST frames
    queued: the third, newest frame finds the queue full and is discarded,
    nothing is evicted, and the detection loop next receives the first
    frame. *)
Theorem capture_three_frames_keeps_oldest {Frame : Type} (f1 f2 f3 : Frame) :
  items (capture_frames [f1; f2; f3] frame_queue_init) = [f1; f2] /\
  offer_frame f3 (capture_frames [f1; f2] frame_queue_init)
    = Continue (capture_frames [f1; f2] frame_queue_init) /\
  fst <$> detection_get (capture_frames [f1; f2; f3] frame_queue_init) = Some f1.
Proof.
  split; [exact (capture_frames_keeps_first_two [f1; f2; f3])|].
  split; [now apply offer_frame_full|].
  unfold detection_get, get_nowait.
  now rewrite capture_frames_keeps_first_two.
Qed.

(** Under every schedule of capture and detection steps, starting from the
    empty frame queue: the capture loop never ends with an exception, the
    queue never holds more than two frames, and the frames handed to the
    detection loop followed by those still queued are, in order, a
    selection of the frames captured: no frame is duplicated, reordered or
    invented. *)
Theorem frame_queue_schedule {Frame : Type} (events : list (@event Frame)) :
  exists (q : Queue Frame) (taken : list Frame),
    run_schedule events frame_queue_init = Some (q, taken) /\
    (length (items q) <= 2)%nat /\
    taken ++ items q `sublist_of` offered events.
Proof.
  destruct (run_schedule_inv events frame_queue_init) as (q & taken & Hr & _ & Hs & Hsub).
  - reflexivity.
  - vm_compute. discriminate.
  - exists q, taken. split; [exact Hr|]. split; [|exact Hsub].
    unfold qsize, frame_queue_init, new in Hs. cbn in Hs. lia.
Qed.

End ObstacleAssistant.

(** ** Rational comparisons as the programs evaluate them *)

Module QCmp.

(** [a < b] on floats read as rationals. *)
Definition Qltb (a b : Q) : bool := negb (Qle_bool b a).

(** [a > b]. *)
Definition Qgtb (a b : Q) : bool := Qltb b a.

(** [a >= b]. *)
Definition Qgeb (a b : Q) : bool := Qle_bool b a.

Lemma Qltb_lt (a b : Q) : Qltb a b = true <-> (a < b)%Q.
Proof.
  unfold Qltb. rewrite negb_true_iff.
  destruct (Qle_bool b a) eqn:E.
  - apply Qle_bool_iff in E. split; [discriminate|].
    intros H. exfalso. exact (Qlt_not_le _ _ H E).
  - split; [intros _|reflexivity].
    apply Qnot_le_lt. intros H. apply Qle_bool_iff in H. congruence.
Qed.

Lemma Qltb_ge (a b : Q) : Qltb a b = false <-> (b <= a)%Q.
Proof.
  unfold Qltb. rewrite negb_false_iff. apply Qle_bool_iff.
Qed.

Lemma Qgtb_gt (a b : Q) : Qgtb a b = true <-> (b < a)%Q.
Proof. apply Qltb_lt. Qed.

Lemma Qgtb_le (a b : Q) : Qgtb a b = false <-> (a <= b)%Q.
Proof. apply Qltb_ge. Qed.

Lemma Qgeb_ge (a b : Q) : Qgeb a b = true <-> (b <= a)%Q.
Proof. apply Qle_bool_iff. Qed.

Lemma Qgeb_lt (a b : Q) : Qgeb a b = false <-> (a < b)%Q.
Proof.
  unfold Qgeb. rewrite <- (Qltb_lt a b). unfold Qltb.
  now rewrite negb_true_iff.
Qed.

End QCmp.

(** ** Python floats *)

Module PyFloat.
Import QCmp.

(** A Python [float] is an IEEE 754 binary64 number.  The operations are
    those of the Standard Library's [SpecFloat], which round to nearest,
    ties to even. *)
Definition prec : Z := 53.
Definition emax : Z := 1024.

(** [float(z)], correctly rounded.  From [2^1024] on the result is an
    infinity, where Python raises [OverflowError]. *)
Definition of_int (z : Z) : spec_float := binary_normalize prec emax z 0 false.

(** [x * y] on floats. *)
Definition mul (x y : spec_float) : spec_float := SFmul prec emax x y.

(** [z * y] for an [int] [z] and a [float] [y]: the integer is converted
    first. *)
Definition int_mul (z : Z) (y : spec_float) : spec_float := mul (of_int z) y.

(** The literals [0.3] and [0.7]: the doubles nearest to 3/10 and 7/10. *)
Definition lit_0_3 : spec_float := S754_finite false 5404319552844595 (-54).
Definition lit_0_7 : spec_float := S754_finite false 6305039478318694 (-53).

(** The number a finite float with mantissa [m] and exponent [e] stands
    for. *)
Definition value (m : positive) (e : Z) : Q := inject_Z (Zpos m) * 2 ^ e.

(** [x < q] for a float [x] and a number [q] (an [int], or a float given
    by its value).  Python compares the exact values; every comparison
    with [nan] is false. *)
Definition lt_num (x : spec_float) (q : Q) : bool :=
  match x with
  | S754_nan => false
  | S754_infinity s => s
  | S754_zero _ => Qltb 0 q
  | S754_finite s m e => Qltb (if s then - value m e else value m e) q
  end.

(** [q < x]. *)
Definition num_lt (q : Q) (x : spec_float) : bool :=
  match x with
  | S754_nan => false
  | S754_infinity s => negb s
  | S754_zero _ => Qltb q 0
  | S754_finite s m e => Qltb q (if s then - value m e else value m e)
  end.

(** A float that is not below zero, or is [nan]. *)
Definition not_negative (x : spec_float) : Prop :=
  match x with
  | S754_nan => True
  | S754_zero s | S754_infinity s | S754_finite s _ _ => s = false
  end.

Lemma value_pos (m : positive) (e : Z) : (0 < value m e)%Q.
Proof.
  unfold value. apply Qmult_lt_0_compat.
  - unfold Qlt. cbn. lia.
  - apply Qpower_0_lt. reflexivity.
Qed.

(** The literals are the doubles nearest to the decimals: they are off by
    less than half a unit in the last place. *)
Lemma literals_nearest :
  (Qabs (value 6305039478318694 (-53) - (7 # 10)) < 2 ^ (-54))%Q /\
  (Qabs (value 5404319552844595 (-54) - (3 # 10)) < 2 ^ (-55))%Q.
Proof. split; vm_compute; reflexivity. Qed.

Lemma binary_round_aux_sign (sx : bool) (mx ex : Z) (lx : location) :
  match binary_round_aux prec emax sx mx ex lx with
  | S754_nan => True
  | S754_zero s | S754_infinity s | S754_finite s _ _ => s = sx
  end.
Proof.
  unfold binary_round_aux.
  destruct (shr_fexp prec emax mx ex lx) as [mrs' e'].
  destruct (shr_fexp prec emax _ e' loc_Exact) as [mrs'' e''].
  destruct (shr_m mrs''); [reflexivity| |exact I].
  destruct (e'' <=? emax - prec); reflexivity.
Qed.

Lemma of_int_not_negative (z : Z) : 0 <= z -> not_negative (of_int z).
Proof.
  intros Hz. unfold of_int, binary_normalize.
  destruct z as [|p|p]; [reflexivity| |lia].
  unfold binary_round.
  destruct (shl_align p 0 _) as [mz ez].
  pose proof (binary_round_aux_sign false (Zpos mz) ez loc_Exact) as H.
  unfold not_negative.
  destruct (binary_round_aux prec emax false (Z.pos mz) ez loc_Exact); exact H.
Qed.

Lemma mul_not_negative (x y : spec_float) :
  not_negative x -> not_negative y -> not_negative (mul x y).
Proof.
  unfold mul.
  destruct x as [sx|sx| |sx mx ex], y as [sy|sy| |sy my ey]; cbn;
    try (intros -> ->; reflexivity); try (intros; exact I).
  intros -> ->. cbn [xorb].
  pose proof (binary_round_aux_sign false (Z.pos (mx * my)) (ex + ey) loc_Exact) as H.
  destruct (binary_round_aux prec emax false (Z.pos (mx * my)) (ex + ey) loc_Exact); exact H.
Qed.

(** Only a positive number is above a float that is not negative. *)
Lemma lt_num_not_negative (x : spec_float) (q : Q) :
  not_negative x -> lt_num x q = true -> (0 < q)%Q.
Proof.
  destruct x as [s|s| |s m e]; cbn.
  - intros _ H. now apply Qltb_lt in H.
  - intros -> H. discriminate.
  - intros _ H. discriminate.
  - intros -> H. apply Qltb_lt in H. pose proof (value_pos m e). Lqa.lra.
Qed.

End PyFloat.

(** ** Configuration of the standalone variant ([Nueva carpeta/config.py]) *)

Module Config.

Record t : Type := mk {
  OBSTACLE_CLOSE_DISTANCE : Q;
  OBSTACLE_MEDIUM_DISTANCE : Q;
  OBSTACLE_FAR_DISTANCE : Q;
  ALERT_ENABLED : bool;
  ALERT_CLOSE_FREQUENCY : Z;
  ALERT_MEDIUM_FREQUENCY : Z;
  ALERT_FAR_FREQUENCY : Z;
  ALERT_DURATION : Q;
  ALERT_DEBOUNCE_TIME : Q
}.

(** The values taken when the environment sets nothing. *)
Definition default : t := {|
  OBSTACLE_CLOSE_DISTANCE := 15 # 100;
  OBSTACLE_MEDIUM_DISTANCE := 8 # 100;
  OBSTACLE_FAR_DISTANCE := 5 # 100;
  ALERT_ENABLED := true;
  ALERT_CLOSE_FREQUENCY := 900;
  ALERT_MEDIUM_FREQUENCY := 600;
  ALERT_FAR_FREQUENCY := 300;
  ALERT_DURATION := 1 # 10;
  ALERT_DEBOUNCE_TIME := 3 # 10
|}.

End Config.

(** ** The obstacle alert system *)

Module ObstacleAlert.
Import PyQueue QCmp.

(** The dictionary [alert_data].  The four keys [_play_alert] reads are
    present in every message the two producers build; the remaining keys
    depend on the producer. *)
Record AlertData : Type := mkAlert {
  alert_type : string;
  frequency : Z;
  duration : Q;
  priority : string;
  proximity : option string;
  obstacle_type : option string;
  noise_type : option string;
  intensity : option Q
}.

(** A tone handed to [_play_pygame_beep] or [_play_system_beep]. *)
Record Tone : Type := mkTone {
  tone_frequency : Z;
  tone_duration : Q
}.

(** The fields of [ObstacleAlert] the alerting logic reads and writes.
    [last_alert_time] is the dictionary from debounce key to the clock
    value of the last tone with that key. *)
Record State : Type := mkState {
  enabled : bool;
  alert_queue : Queue AlertData;
  last_alert_time : gmap string Q;
  debounce_time : Q
}.

Definition with_queue (s : State) (q : Queue AlertData) : State :=
  {| enabled := enabled s; alert_queue := q;
     last_alert_time := last_alert_time s; debounce_time := debounce_time s |}.

Definition with_last (s : State) (m : gmap string Q) : State :=
  {| enabled := enabled s; alert_queue := alert_queue s;
     last_alert_time := m; debounce_time := debounce_time s |}.

(** [__init__]: the queue is built by [queue.Queue()], without a bound. *)
Definition init (cfg : Config.t) : State := {|
  enabled := Config.ALERT_ENABLED cfg;
  alert_queue := new 0;
  last_alert_time := ∅;
  debounce_time := Config.ALERT_DEBOUNCE_TIME cfg
|}.

(** [int(frequency * 1.1)] and [int(frequency * 0.9)]: the product with
    the decimal literal, truncated toward zero. *)
Definition int_scale (frequency num den : Z) : Z := Z.quot (frequency * num) den.

Definition vehicle_types : list string :=
  ["car"; "bus"; "truck"; "motorcycle"; "bicycle"]%string.

(** [self.alert_queue.put(alert_data, block=False)] under
    [except queue.Full: pass]. *)
Definition enqueue (alert_data : AlertData) (s : State) : State :=
  match put_nowait alert_data (alert_queue s) with
  | Some q => with_queue s q
  | None => s
  end.

(** [alert_obstacle(proximity, obstacle_type, priority, is_center)] *)
Definition alert_obstacle (cfg : Config.t) (proximity obstacle_type priority : string)
    (is_center : bool) (s : State) : State :=
  if negb (enabled s) then s
  else if (proximity =? "far")%string && negb is_center then s
  else if (proximity =? "medium")%string && negb is_center then s
  else
    let '(frequency, duration) :=
      if (proximity =? "close")%string then
        (Config.ALERT_CLOSE_FREQUENCY cfg, (Config.ALERT_DURATION cfg * (15 # 10))%Q)
      else if (proximity =? "medium")%string then
        (Config.ALERT_MEDIUM_FREQUENCY cfg, Config.ALERT_DURATION cfg)
      else
        (Config.ALERT_FAR_FREQUENCY cfg, (Config.ALERT_DURATION cfg * (5 # 10))%Q) in
    let frequency :=
      if (obstacle_type =? "person")%string then int_scale frequency 11 10
      else if bool_decide (obstacle_type ∈ vehicle_types) then int_scale frequency 9 10
      else frequency in
    enqueue {| alert_type := "obstacle"; frequency := frequency;
               duration := duration; priority := priority;
               proximity := Some proximity; obstacle_type := Some obstacle_type;
               noise_type := None; intensity := None |} s.

(** [alert_noise(noise_type, intensity)] *)
Definition alert_noise (cfg : Config.t) (noise_type : string) (intensity : Q)
    (s : State) : State :=
  if negb (enabled s) then s
  else
    let '(frequency, duration, priority) :=
      if (noise_type =? "siren")%string then
        (1200, (Config.ALERT_DURATION cfg * 2)%Q, "high"%string)
      else if (noise_type =? "traffic")%string then
        (400, Config.ALERT_DURATION cfg, "normal"%string)
      else if (noise_type =? "voice")%string then
        (500, (Config.ALERT_DURATION cfg * (8 # 10))%Q, "low"%string)
      else
        (Config.ALERT_MEDIUM_FREQUENCY cfg, Config.ALERT_DURATION cfg, "normal"%string) in
    enqueue {| alert_type := "noise"; frequency := frequency;
               duration := duration; priority := priority;
               proximity := None; obstacle_type := None;
               noise_type := Some noise_type; intensity := Some intensity |} s.

(** [alert_key = f"{alert_type}_{frequency}"] *)
Definition alert_key (alert_data : AlertData) : string :=
  alert_type alert_data +:+ "_" +:+ pretty (frequency alert_data).

(** [_play_alert(alert_data)], with [current_time] the value of
    [time.time()].  The result carries the tone that reaches the beep
    routine, if any. *)
Definition _play_alert (alert_data : AlertData) (current_time : Q) (s : State)
    : State * option Tone :=
  if negb (enabled s) then (s, None)
  else
    let key := alert_key alert_data in
    let recent :=
      match last_alert_time s !! key with
      | Some last => Qltb (current_time - last) (debounce_time s)
      | None => false
      end in
    if recent then (s, None)
    else
      (with_last s (<[key := current_time]> (last_alert_time s)),
       Some (mkTone (frequency alert_data) (duration alert_data))).

(** One turn of [_process_alerts] that finds the queue non-empty before
    its one-second timeout: take the oldest message and play it. *)
Definition _process_alerts_step (current_time : Q) (s : State) : State * option Tone :=
  match get_nowait (alert_queue s) with
  | Some (alert_data, q) => _play_alert alert_data current_time (with_queue s q)
  | None => (s, None)
  end.

(** [n] successive calls of a producer with no worker turn in between. *)
Fixpoint repeat_call (n : nat) (call : State -> State) (s : State) : State :=
  match n with
  | O => s
  | S k => repeat_call k call (call s)
  end.

(** *** Reading [alert_obstacle] as "suppress, or build one message" *)

(** The two early returns for objects outside the danger zone. *)
Definition suppressed (proximity : string) (is_center : bool) : bool :=
  ((proximity =? "far")%string || (proximity =? "medium")%string) && negb is_center.

(** Base tone by proximity, as a pair (frequency, duration). *)
Definition base_tone (cfg : Config.t) (proximity : string) : Z * Q :=
  if (proximity =? "close")%string then
    (Config.ALERT_CLOSE_FREQUENCY cfg, (Config.ALERT_DURATION cfg * (15 # 10))%Q)
  else if (proximity =? "medium")%string then
    (Config.ALERT_MEDIUM_FREQUENCY cfg, Config.ALERT_DURATION cfg)
  else
    (Config.ALERT_FAR_FREQUENCY cfg, (Config.ALERT_DURATION cfg * (5 # 10))%Q).

Definition adjust_frequency (obstacle_type : string) (frequency : Z) : Z :=
  if (obstacle_type =? "person")%string then int_scale frequency 11 10
  else if bool_decide (obstacle_type ∈ vehicle_types) then int_scale frequency 9 10
  else frequency.

(** The message an audible call builds. *)
Definition obstacle_message (cfg : Config.t) (proximity obstacle_type priority : string)
    : AlertData :=
  {| alert_type := "obstacle";
     frequency := adjust_frequency obstacle_type (fst (base_tone cfg proximity));
     duration := snd (base_tone cfg proximity);
     priority := priority;
     proximity := Some proximity; obstacle_type := Some obstacle_type;
     noise_type := None; intensity := None |}.

Definition tone_of (alert_data : AlertData) : Tone :=
  mkTone (frequency alert_data) (duration alert_data).

(** A configuration whose close-range tone is 905 Hz. *)
Definition cfg_905 : Config.t := {|
  Config.OBSTACLE_CLOSE_DISTANCE := 15 # 100;
  Config.OBSTACLE_MEDIUM_DISTANCE := 8 # 100;
  Config.OBSTACLE_FAR_DISTANCE := 5 # 100;
  Config.ALERT_ENABLED := true;
  Config.ALERT_CLOSE_FREQUENCY := 905;
  Config.ALERT_MEDIUM_FREQUENCY := 600;
  Config.ALERT_FAR_FREQUENCY := 300;
  Config.ALERT_DURATION := 1 # 10;
  Config.ALERT_DEBOUNCE_TIME := 3 # 10
|}.

(** The messages waiting in the queue. *)
Definition items_of (s : State) : list AlertData := items (alert_queue s).

(** The worker handing the messages [plays] to [_play_alert] one after
    the other, each at its clock value: the log of tones that reach the
    beep routine. *)
Fixpoint play_all (plays : list (Q * AlertData)) (s : State) : list (Q * AlertData) :=
  match plays with
  | [] => []
  | (t, m) :: rest =>
      let '(s1, tone) := _play_alert m t s in
      match tone with
      | Some _ => (t, m) :: play_all rest s1
      | None => play_all rest s1
      end
  end.

(** The loop [while not self.alert_queue.empty(): self.alert_queue.get_nowait()]. *)
Fixpoint drain {A : Type} (pending : list A) : list A :=
  match pending with
  | [] => []
  | _ :: rest => drain rest
  end.

(** [set_enabled(enabled)] *)
Definition set_enabled (enabled' : bool) (s : State) : State :=
  let s1 := {| enabled := enabled'; alert_queue := alert_queue s;
               last_alert_time := last_alert_time s;
               debounce_time := debounce_time s |} in
  if negb enabled' then
    with_queue s1 (mkQueue (maxsize (alert_queue s)) (drain (items (alert_queue s))))
  else s1.

(** [stop()]: [set_enabled(False)], then the mixer is shut down. *)
Definition stop (s : State) : State := set_enabled false s.

(** What can happen to the alert system: a producer call or a worker turn. *)
Inductive action : Type :=
| Obstacle (proximity obstacle_type priority : string) (is_center : bool)
| Noise (noise_type : string) (intensity : Q)
| Worker (current_time : Q).

(** The state and the tones played, in order, after the actions. *)
Fixpoint run_actions (cfg : Config.t) (actions : list action) (s : State)
    : State * list Tone :=
  match actions with
  | [] => (s, [])
  | Obstacle p o pr c :: rest => run_actions cfg rest (alert_obstacle cfg p o pr c s)
  | Noise n i :: rest => run_actions cfg rest (alert_noise cfg n i s)
  | Worker t :: rest =>
      let '(s1, tone) := _process_alerts_step t s in
      let '(s2, tones) := run_actions cfg rest s1 in
      (s2, match tone with Some x => x :: tones | None => tones end)
  end.

(** Successive turns of [_process_alerts] at the clock values [times]: the
    state they leave and, per turn, the tone played. *)
Fixpoint worker_turns (times : list Q) (s : State) : State * list (option Tone) :=
  match times with
  | [] => (s, [])
  | t :: rest =>
      let '(s1, tone) := _process_alerts_step t s in
      let '(s2, tones) := worker_turns rest s1 in
      (s2, tone :: tones)
  end.

(** The messages [ms] put on the queue one after the other, as calls of
    the two producers do. *)
Definition enqueue_all (ms : list AlertData) (s : State) : State :=
  fold_left (fun s m => enqueue m s) ms s.

Lemma alert_obstacle_disabled cfg p o pr c s :
  enabled s = false -> alert_obstacle cfg p o pr c s = s.
Proof. intros H. unfold alert_obstacle. now rewrite H. Qed.

Lemma alert_obstacle_suppressed cfg p o pr c s :
  suppressed p c = true -> alert_obstacle cfg p o pr c s = s.
Proof.
  unfold suppressed, alert_obstacle. intros H.
  destruct (negb (enabled s)); [reflexivity|].
  destruct (p =? "far")%string; cbn in H |- *.
  - now rewrite H.
  - now rewrite H.
Qed.

Lemma alert_obstacle_audible cfg p o pr c s :
  enabled s = true -> suppressed p c = false ->
  alert_obstacle cfg p o pr c s = enqueue (obstacle_message cfg p o pr) s.
Proof.
  unfold suppressed, alert_obstacle, obstacle_message, base_tone, adjust_frequency.
  intros -> H. cbn [negb].
  destruct (p =? "far")%string eqn:Ef, (p =? "medium")%string eqn:Em,
    (negb c) eqn:Ec; cbn in H |- *; try discriminate;
  destruct (p =? "close")%string; reflexivity.
Qed.

(** On the unbounded queue of [__init__], [put] always succeeds. *)
Lemma enqueue_unbounded m s :
  maxsize (alert_queue s) = 0 ->
  enqueue m s = with_queue s (mkQueue 0 (items (alert_queue s) ++ [m])).
Proof.
  intros H. unfold enqueue.
  rewrite put_nowait_not_full by (apply unbounded_never_full; lia).
  now rewrite H.
Qed.

Lemma play_alert_fresh m t s :
  enabled s = true -> last_alert_time s !! alert_key m = None ->
  _play_alert m t s
  = (with_last s (<[alert_key m := t]> (last_alert_time s)), Some (tone_of m)).
Proof. intros He Hl. unfold _play_alert. now rewrite He, Hl. Qed.

Lemma play_alert_after m t last s :
  enabled s = true -> last_alert_time s !! alert_key m = Some last ->
  _play_alert m t s
  = if Qltb (t - last) (debounce_time s) then (s, None)
    else (with_last s (<[alert_key m := t]> (last_alert_time s)), Some (tone_of m)).
Proof. intros He Hl. unfold _play_alert. now rewrite He, Hl. Qed.

(** *** C3: what [alert_obstacle] enqueues *)

(** C3, as stated, fails: with the close frequency configured as 905 Hz, a
    close person is announced at 995 Hz, which is not 905 x 1.1 = 995.5:
    the scaled frequency is cut to an integer. *)
Lemma alert_obstacle_scaling_not_exact :
  exists m,
    items (alert_queue (alert_obstacle cfg_905 "close" "person" "normal" false (init cfg_905)))
      = [m] /\
    frequency m = 995 /\
    ~ (inject_Z (frequency m) == inject_Z (Config.ALERT_CLOSE_FREQUENCY cfg_905) * (11 # 10))%Q.
Proof.
  eexists. split; [reflexivity|]. split; [reflexivity|].
  cbn. unfold Qeq. cbn. lia.
Qed.

(** C3 (amended).  With alerts enabled and the queue as [__init__] builds
    it: a far or medium object outside the center zone leaves the state
    untouched; every other call appends exactly one obstacle message whose
    base frequency and duration follow the proximity (close: close
    frequency, 1.5 x base duration; medium: medium frequency, 1.0 x; any
    other proximity, i.e. far in the center: far frequency, 0.5 x) and
    whose frequency is the base frequency times 1.1 for a person, times
    0.9 for car, bus, truck, motorcycle and bicycle, both truncated toward
    zero to an integer, and the base frequency itself otherwise. *)
Theorem alert_obstacle_message (cfg : Config.t) (s : State)
    (p o pr : string) (c : bool) :
  enabled s = true ->
  maxsize (alert_queue s) = 0 ->
  ((p = "far"%string \/ p = "medium"%string) -> c = false ->
     alert_obstacle cfg p o pr c s = s) /\
  (~ ((p = "far"%string \/ p = "medium"%string) /\ c = false) ->
     exists (m : AlertData) (base : Z),
       alert_obstacle cfg p o pr c s
         = with_queue s (mkQueue 0 (items (alert_queue s) ++ [m])) /\
       alert_type m = "obstacle"%string /\
       priority m = pr /\
       (p = "close"%string ->
          base = Config.ALERT_CLOSE_FREQUENCY cfg /\
          duration m = (Config.ALERT_DURATION cfg * (15 # 10))%Q) /\
       (p = "medium"%string ->
          base = Config.ALERT_MEDIUM_FREQUENCY cfg /\
          duration m = Config.ALERT_DURATION cfg) /\
       (p <> "close"%string -> p <> "medium"%string ->
          base = Config.ALERT_FAR_FREQUENCY cfg /\
          duration m = (Config.ALERT_DURATION cfg * (5 # 10))%Q) /\
       (o = "person"%string -> frequency m = (base * 11) ÷ 10) /\
       (o ∈ vehicle_types -> frequency m = (base * 9) ÷ 10) /\
       (o <> "person"%string -> o ∉ vehicle_types -> frequency m = base)).
Proof.
  intros He Hq. split.
  - intros Hp ->. apply alert_obstacle_suppressed. unfold suppressed.
    destruct Hp as [-> | ->]; reflexivity.
  - intros Hn.
    assert (Hs : suppressed p c = false).
    { unfold suppressed.
      destruct (String.eqb_spec p "far"), (String.eqb_spec p "medium"), c;
        cbn; try reflexivity; exfalso; apply Hn; auto. }
    exists (obstacle_message cfg p o pr), (fst (base_tone cfg p)).
    rewrite (alert_obstacle_audible cfg p o pr c s He Hs).
    rewrite (enqueue_unbounded _ s Hq).
    split; [reflexivity|]. split; [reflexivity|]. split; [reflexivity|].
    cbn [obstacle_message frequency duration].
    unfold base_tone, adjust_frequency, int_scale.
    repeat split.
    + subst p. reflexivity.
    + subst p. reflexivity.
    + subst p. reflexivity.
    + subst p. reflexivity.
    + destruct (String.eqb_spec p "close"); [contradiction|].
      destruct (String.eqb_spec p "medium"); [contradiction|]. reflexivity.
    + destruct (String.eqb_spec p "close"); [contradiction|].
      destruct (String.eqb_spec p "medium"); [contradiction|]. reflexivity.
    + intros ->. reflexivity.
    + intros Hv. destruct (String.eqb_spec o "person") as [->|_].
      * exfalso. revert Hv. unfold vehicle_types. rewrite !elem_of_cons, elem_of_nil.
        intros [H|[H|[H|[H|[H|[]]]]]]; discriminate.
      * now rewrite bool_decide_eq_true_2.
    + intros Hp Hv. destruct (String.eqb_spec o "person"); [contradiction|].
      now rewrite bool_decide_eq_false_2.
Qed.

Lemma alert_obstacle_message_witness :
  exists m,
    alert_obstacle Config.default "far" "truck" "normal" true (init Config.default)
      = with_queue (init Config.default) (mkQueue 0 [m]) /\
    frequency m = 270 /\ duration m = ((1 # 10) * (5 # 10))%Q.
Proof.
  destruct (alert_obstacle_message Config.default (init Config.default)
              "far" "truck" "normal" true eq_refl eq_refl) as [_ H].
  destruct H as (m & base & Hm & _ & _ & _ & _ & Hfar & _ & Hveh & _).
  { intros [_ Hc]. discriminate Hc. }
  exists m. split; [exact Hm|].
  destruct Hfar as [Hb Hd]; [discriminate | discriminate |].
  split; [|exact Hd].
  rewrite Hveh, Hb; [reflexivity|].
  unfold vehicle_types. rewrite !elem_of_cons. auto.
Defined.

(** *** C2: where the debounce acts *)

(** C2, as stated, fails: the second of two identical alerts is not held
    back before the queue.  The first alert has been played at time 0; the
    second call, whenever it is issued, puts its message on the queue
    (the producer does not read the clock). *)
Lemma second_alert_reaches_queue :
  let call := alert_obstacle Config.default "close" "chair" "normal" false in
  let r1 := _process_alerts_step 0 (call (init Config.default)) in
  snd r1 = Some (mkTone 900 ((1 # 10) * (15 # 10))) /\
  items (alert_queue (fst r1)) = [] /\
  items (alert_queue (call (fst r1)))
    = [obstacle_message Config.default "close" "chair" "normal"].
Proof. repeat split. Qed.

Lemma play_alert_played m t s s1 tone :
  _play_alert m t s = (s1, Some tone) ->
  enabled s = true /\
  s1 = with_last s (<[alert_key m := t]> (last_alert_time s)) /\
  (forall last, last_alert_time s !! alert_key m = Some last ->
                (debounce_time s <= t - last)%Q).
Proof.
  unfold _play_alert. destruct (enabled s); cbn [negb]; [|discriminate].
  destruct (last_alert_time s !! alert_key m) as [last|] eqn:El.
  - destruct (Qltb (t - last) (debounce_time s)) eqn:Er; [discriminate|].
    intros [= <- _]. split; [reflexivity|]. split; [reflexivity|].
    intros ? [= <-]. now apply Qltb_ge.
  - intros [= <- _]. split; [reflexivity|]. split; [reflexivity|]. discriminate.
Qed.

Lemma play_alert_dropped m t s s1 :
  _play_alert m t s = (s1, None) -> s1 = s.
Proof.
  unfold _play_alert. destruct (negb (enabled s)); [now intros [= <-]|].
  destruct (match last_alert_time s !! alert_key m with
            | Some last => Qltb (t - last) (debounce_time s)
            | None => false
            end); [now intros [= <-]|discriminate].
Qed.

Lemma play_alert_tone m t s s1 tone :
  _play_alert m t s = (s1, Some tone) -> tone = tone_of m.
Proof.
  unfold _play_alert. destruct (negb (enabled s)); [discriminate|].
  destruct (match last_alert_time s !! alert_key m with
            | Some last => Qltb (t - last) (debounce_time s)
            | None => false
            end); [discriminate|]. now intros [= _ <-].
Qed.

Lemma enqueue_all_unbounded (ms : list AlertData) (s : State) :
  maxsize (alert_queue s) = 0 ->
  enqueue_all ms s = with_queue s (mkQueue 0 (items (alert_queue s) ++ ms)).
Proof.
  revert s. induction ms as [|m ms IH]; intros s Hq.
  - cbn. rewrite app_nil_r. destruct s as [e [mx it] l d]. cbn in Hq. now subst mx.
  - cbn [enqueue_all fold_left]. fold (enqueue_all ms (enqueue m s)).
    rewrite (enqueue_unbounded m s Hq), IH by reflexivity.
    cbn. now rewrite <- app_assoc.
Qed.

(** A turn of the worker on a queue headed by [m]. *)
Lemma process_alerts_step_head (t : Q) (s : State) (m : AlertData)
    (rest : list AlertData) :
  items (alert_queue s) = m :: rest ->
  _process_alerts_step t s
  = _play_alert m t (with_queue s (mkQueue (maxsize (alert_queue s)) rest)).
Proof. intros H. unfold _process_alerts_step, get_nowait. now rewrite H. Qed.

(** What [_play_alert] leaves untouched. *)
Lemma play_alert_frame (m : AlertData) (t : Q) (s : State) :
  enabled (fst (_play_alert m t s)) = enabled s /\
  debounce_time (fst (_play_alert m t s)) = debounce_time s /\
  alert_queue (fst (_play_alert m t s)) = alert_queue s /\
  (forall k, k <> alert_key m ->
     last_alert_time (fst (_play_alert m t s)) !! k = last_alert_time s !! k).
Proof.
  unfold _play_alert. destruct (negb (enabled s)); [now repeat split|].
  destruct (match last_alert_time s !! alert_key m with
            | Some last => Qltb (t - last) (debounce_time s)
            | None => false
            end); [now repeat split|].
  cbn. repeat split. intros k Hk. now rewrite lookup_insert_ne.
Qed.

(** A turn of the worker takes the oldest message off the queue, played
    or not. *)
Lemma process_alerts_step_frame (t : Q) (s : State) :
  enabled (fst (_process_alerts_step t s)) = enabled s /\
  debounce_time (fst (_process_alerts_step t s)) = debounce_time s /\
  items (alert_queue (fst (_process_alerts_step t s))) = tail (items (alert_queue s)) /\
  (forall k, Forall (fun m => alert_key m <> k) (take 1 (items (alert_queue s))) ->
     last_alert_time (fst (_process_alerts_step t s)) !! k = last_alert_time s !! k).
Proof.
  destruct (items (alert_queue s)) as [|m rest] eqn:Ei.
  - unfold _process_alerts_step, get_nowait. rewrite Ei. cbn. now repeat split.
  - rewrite (process_alerts_step_head t s m rest Ei).
    destruct (play_alert_frame m t (with_queue s (mkQueue (maxsize (alert_queue s)) rest)))
      as (He & Hd & Hq & Hl).
    rewrite He, Hd, Hq. cbn. repeat split.
    intros k Hk. cbn in Hk. apply Forall_cons in Hk as [Hk _].
    rewrite Hl by congruence. reflexivity.
Qed.

Lemma worker_turns_frame (times : list Q) (s : State) :
  enabled (fst (worker_turns times s)) = enabled s /\
  debounce_time (fst (worker_turns times s)) = debounce_time s /\
  items (alert_queue (fst (worker_turns times s)))
    = drop (length times) (items (alert_queue s)) /\
  (forall k,
     Forall (fun m => alert_key m <> k) (take (length times) (items (alert_queue s))) ->
     last_alert_time (fst (worker_turns times s)) !! k = last_alert_time s !! k).
Proof.
  revert s. induction times as [|t rest IH]; intros s.
  - cbn. rewrite drop_0. now repeat split.
  - cbn [worker_turns length].
    destruct (process_alerts_step_frame t s) as (He & Hd & Hq & Hl).
    destruct (_process_alerts_step t s) as [s1 tone]. cbn [fst] in He, Hd, Hq, Hl.
    destruct (IH s1) as (He1 & Hd1 & Hq1 & Hl1).
    destruct (worker_turns rest s1) as [s2 tones]. cbn [fst] in *.
    split; [congruence|]. split; [congruence|]. split.
    + rewrite Hq1, Hq. destruct (items (alert_queue s)); [cbn; now rewrite !drop_nil|reflexivity].
    + intros k Hk. rewrite Hl1, Hl.
      * reflexivity.
      * destruct (items (alert_queue s)) as [|m ms]; [constructor|].
        cbn in Hk |- *. apply Forall_cons in Hk as [Hk _]. now constructor.
      * rewrite Hq. destruct (items (alert_queue s)) as [|m ms]; [cbn; rewrite take_nil; constructor|].
        cbn in Hk |- *. now apply Forall_cons in Hk as [_ Hk].
Qed.

(** C2 (amended).  The debounce acts in the playback worker, not before
    the queue.  From any state with alerts enabled and the queue of
    [__init__], whatever is pending and whatever was played before: two
    audible obstacle alerts with the same debounce key, with messages of
    other keys queued between them, are both put on the queue, behind
    what was pending, and the recorded times are not touched.  When the
    worker takes the first, at [t1], it discards it exactly if a tone of
    that key was last played less than the debounce interval before, and
    plays it otherwise.
    When it then takes the second, at [t2], after the messages in
    between: if the first was played, the second is discarded when
    [t2 - t1] is below the debounce interval and played when [t2 - t1] is
    at least the interval; if the first was discarded, the same holds
    with the time [t0] of the last tone of that key in place of [t1]. *)
Theorem alert_debounce_at_playback (cfg : Config.t) (s : State)
    (p1 o1 pr1 p2 o2 pr2 : string) (c1 c2 : bool)
    (others : list AlertData) (before ts : list Q) (t1 t2 : Q) :
  let m1 := obstacle_message cfg p1 o1 pr1 in
  let m2 := obstacle_message cfg p2 o2 pr2 in
  enabled s = true ->
  maxsize (alert_queue s) = 0 ->
  suppressed p1 c1 = false -> suppressed p2 c2 = false ->
  alert_key m1 = alert_key m2 ->
  Forall (fun m => alert_key m <> alert_key m1) others ->
  length before = length (items (alert_queue s)) ->
  length ts = length others ->
  let s2 := alert_obstacle cfg p2 o2 pr2 c2
              (enqueue_all others (alert_obstacle cfg p1 o1 pr1 c1 s)) in
  let w := fst (worker_turns before s2) in
  let r1 := _process_alerts_step t1 w in
  let r2 := _process_alerts_step t2 (fst (worker_turns ts (fst r1))) in
  items (alert_queue s2) = items (alert_queue s) ++ m1 :: others ++ [m2] /\
  last_alert_time s2 = last_alert_time s /\
  (snd r1 = None <->
   exists t0, last_alert_time w !! alert_key m1 = Some t0 /\
              (t1 - t0 < debounce_time s)%Q) /\
  (snd r1 <> None -> snd r1 = Some (tone_of m1)) /\
  (snd r1 = Some (tone_of m1) ->
     ((t2 - t1 < debounce_time s)%Q -> snd r2 = None) /\
     ((debounce_time s <= t2 - t1)%Q -> snd r2 = Some (tone_of m2))) /\
  (forall t0, snd r1 = None -> last_alert_time w !! alert_key m1 = Some t0 ->
     ((t2 - t0 < debounce_time s)%Q -> snd r2 = None) /\
     ((debounce_time s <= t2 - t0)%Q -> snd r2 = Some (tone_of m2))).
Proof.
  intros m1 m2 He Hq Hs1 Hs2 Hk Hothers Hbefore Hts s2 w r1 r2.
  assert (E2 : s2 = with_queue s
                      (mkQueue 0 (items (alert_queue s) ++ m1 :: others ++ [m2]))).
  { subst s2. rewrite (alert_obstacle_audible cfg p1 o1 pr1 c1 s He Hs1).
    rewrite (enqueue_unbounded _ s Hq).
    rewrite enqueue_all_unbounded by reflexivity.
    rewrite alert_obstacle_audible by assumption.
    rewrite enqueue_unbounded by reflexivity.
    cbn. fold m1 m2. now rewrite <- !app_assoc. }
  destruct (worker_turns_frame before s2) as (Hew & Hdw & Hqw & _). fold w in Hew, Hdw, Hqw.
  rewrite E2 in Hew, Hdw, Hqw. cbn [with_queue enabled debounce_time alert_queue items] in Hew, Hdw, Hqw.
  rewrite Hbefore, drop_app_length in Hqw. rewrite He in Hew.
  set (w1 := with_queue w (mkQueue (maxsize (alert_queue w)) (others ++ [m2]))).
  assert (E1 : r1 = _play_alert m1 t1 w1)
    by (subst r1; now apply process_alerts_step_head).
  assert (Hmid : forall v, enabled v = true -> debounce_time v = debounce_time s ->
            items (alert_queue v) = others ++ [m2] ->
            forall last, last_alert_time v !! alert_key m1 = Some last ->
              _process_alerts_step t2 (fst (worker_turns ts v))
              = _play_alert m2 t2
                  (with_queue (fst (worker_turns ts v))
                     (mkQueue (maxsize (alert_queue (fst (worker_turns ts v)))) [])) /\
              enabled (fst (worker_turns ts v)) = true /\
              debounce_time (fst (worker_turns ts v)) = debounce_time s /\
              last_alert_time (fst (worker_turns ts v)) !! alert_key m2 = Some last).
  { intros v Hev Hdv Hqv last Hlast.
    destruct (worker_turns_frame ts v) as (He' & Hd' & Hq' & Hl').
    rewrite Hqv, Hts, drop_app_length in Hq'.
    split; [now apply process_alerts_step_head|].
    split; [congruence|]. split; [congruence|].
    rewrite <- Hk, Hl'; [exact Hlast|].
    rewrite Hqv, Hts, take_app_length. exact Hothers. }
  assert (Hsecond : forall v, enabled v = true -> debounce_time v = debounce_time s ->
            items (alert_queue v) = others ++ [m2] ->
            forall last, last_alert_time v !! alert_key m1 = Some last ->
              ((t2 - last < debounce_time s)%Q ->
                 snd (_process_alerts_step t2 (fst (worker_turns ts v))) = None) /\
              ((debounce_time s <= t2 - last)%Q ->
                 snd (_process_alerts_step t2 (fst (worker_turns ts v)))
                 = Some (tone_of m2))).
  { intros v Hev Hdv Hqv last Hlast.
    destruct (Hmid v Hev Hdv Hqv last Hlast) as (-> & He' & Hd' & Hl').
    rewrite (play_alert_after m2 t2 last) by assumption.
    cbn [with_queue debounce_time]. rewrite Hd'. split; intros H.
    - apply Qltb_lt in H. now rewrite H.
    - apply Qltb_ge in H. now rewrite H. }
  split; [now rewrite E2|]. split; [now rewrite E2|].
  assert (Hew1 : enabled w1 = true) by exact Hew.
  assert (Hdw1 : debounce_time w1 = debounce_time s) by exact Hdw.
  split; [|split; [|split]].
  - rewrite E1. destruct (last_alert_time w !! alert_key m1) as [t0|] eqn:El.
    + rewrite (play_alert_after m1 t1 t0 w1 Hew1 El). rewrite Hdw1.
      destruct (Qltb (t1 - t0) (debounce_time s)) eqn:Er; cbn [snd].
      * split; [intros _|reflexivity]. exists t0. split; [reflexivity|now apply Qltb_lt].
      * split; [discriminate|]. intros (t0' & [= <-] & Hlt).
        apply Qltb_lt in Hlt. congruence.
    + rewrite (play_alert_fresh m1 t1 w1 Hew1 El). cbn [snd].
      split; [discriminate|]. intros (t0 & Ht0 & _). discriminate.
  - intros Hplayed. rewrite E1 in Hplayed |- *.
    destruct (_play_alert m1 t1 w1) as [v [tone|]] eqn:Ep; [|contradiction].
    cbn [snd]. f_equal. exact (play_alert_tone _ _ _ _ _ Ep).
  - intros Hplayed. subst r2. rewrite E1 in Hplayed |- *.
    destruct (_play_alert m1 t1 w1) as [v tone] eqn:Ep. cbn [fst snd] in Hplayed |- *.
    subst tone.
    destruct (play_alert_played _ _ _ _ _ Ep) as (_ & Ev & _).
    apply (Hsecond v).
    + rewrite Ev. exact Hew1.
    + rewrite Ev. exact Hdw1.
    + rewrite Ev. reflexivity.
    + rewrite Ev. cbn. apply lookup_insert_eq.
  - intros t0 Hnone Hl. subst r2. rewrite E1 in Hnone |- *.
    destruct (_play_alert m1 t1 w1) as [v tone] eqn:Ep. cbn [fst snd] in Hnone |- *.
    subst tone. apply play_alert_dropped in Ep. subst v.
    apply (Hsecond w1); [exact Hew1|exact Hdw1|reflexivity|exact Hl].
Qed.

(** The second of two alerts for a close chair, with an alert for a close
    person queued between them: taken 0.1 s after the first was played it
    is discarded, taken 0.4 s after it is played. *)
Lemma alert_debounce_at_playback_witness :
  let call := alert_obstacle Config.default "close" "chair" "normal" false in
  let person := obstacle_message Config.default "close" "person" "high" in
  let s2 := call (enqueue_all [person] (call (init Config.default))) in
  let r1 := _process_alerts_step 10 s2 in
  let mid := fst (worker_turns [(1001 # 100)%Q] (fst r1)) in
  length (items (alert_queue s2)) = 3%nat /\
  snd r1 = Some (mkTone 900 ((1 # 10) * (15 # 10))) /\
  snd (_process_alerts_step (10 + (1 # 10)) mid) = None /\
  snd (_process_alerts_step (10 + (4 # 10)) mid)
    = Some (mkTone 900 ((1 # 10) * (15 # 10))).
Proof.
  intros call person s2 r1 mid.
  assert (Hr1 : snd r1 = Some (mkTone 900 ((1 # 10) * (15 # 10))))
    by (vm_compute; reflexivity).
  assert (Hother : Forall (fun m => alert_key m
            <> alert_key (obstacle_message Config.default "close" "chair" "normal"))
            [person]).
  { constructor; [|constructor]. vm_compute. discriminate. }
  pose proof (alert_debounce_at_playback Config.default (init Config.default)
    "close" "chair" "normal" "close" "chair" "normal" false false
    [person] [] [(1001 # 100)%Q] 10 (10 + (1 # 10))
    eq_refl eq_refl eq_refl eq_refl eq_refl Hother eq_refl eq_refl)
    as (Hq & _ & _ & _ & Hlt & _).
  pose proof (alert_debounce_at_playback Config.default (init Config.default)
    "close" "chair" "normal" "close" "chair" "normal" false false
    [person] [] [(1001 # 100)%Q] 10 (10 + (4 # 10))
    eq_refl eq_refl eq_refl eq_refl eq_refl Hother eq_refl eq_refl)
    as (_ & _ & _ & _ & Hge & _).
  split; [subst s2 call; now rewrite Hq|].
  split; [exact Hr1|].
  split.
  - apply (proj1 (Hlt Hr1)). reflexivity.
  - apply (proj2 (Hge Hr1)). cbn. unfold Qle. cbn. lia.
Defined.

(** *** C10: the alert queue has no capacity *)

(** C10 (the code departs from the claim).  The queue is created without
    [maxsize], so it is never full and [put] never drops: [n] alerts issued
    with no worker turn leave [n] messages queued, which exceeds any
    capacity one may fix. *)
Theorem alert_queue_exceeds_any_capacity (capacity : nat) :
  exists n : nat,
    length (items (alert_queue
      (repeat_call n (alert_obstacle Config.default "close" "unknown" "normal" false)
         (init Config.default)))) = n /\
    (capacity < n)%nat.
Proof.
  exists (S capacity). split; [|lia].
  assert (Inv : forall n s, enabled s = true -> maxsize (alert_queue s) = 0 ->
    length (items (alert_queue
      (repeat_call n (alert_obstacle Config.default "close" "unknown" "normal" false) s)))
    = (length (items (alert_queue s)) + n)%nat).
  { induction n as [|n IH]; intros s He Hq; cbn [repeat_call]; [lia|].
    rewrite alert_obstacle_audible by (exact He || reflexivity).
    rewrite (enqueue_unbounded _ s Hq).
    rewrite IH by (exact He || reflexivity).
    cbn. rewrite length_app. cbn. lia. }
  now rewrite Inv.
Qed.

(** *** The debounce over a whole run of the worker *)

Lemma sorted_head_le (t0 : Q) (rest : list (Q * AlertData)) :
  Sorted Qle (map fst rest) -> HdRel Qle t0 (map fst rest) ->
  Forall (fun p => (t0 <= fst p)%Q) rest.
Proof.
  revert t0. induction rest as [|[t1 m1] rest IHr]; intros t0 Hsort Hhd; [constructor|].
  cbn [map fst] in *. apply Sorted_inv in Hsort as [Hsort Hhd1].
  inversion Hhd as [|? ? Hle]; subst. constructor; [exact Hle|].
  eapply Forall_impl; [apply (IHr t1 Hsort Hhd1)|].
  intros p Hp. cbn in Hp. Lqa.lra.
Qed.

(** A tone of the log is at least the debounce interval after the time
    the state records for its key, when that time is not later than the
    run. *)
Lemma play_all_after_recorded (plays : list (Q * AlertData)) (s : State)
    (last t : Q) (m : AlertData) :
  Sorted Qle (map fst plays) ->
  Forall (fun p => (last <= fst p)%Q) plays ->
  last_alert_time s !! alert_key m = Some last ->
  (t, m) ∈ play_all plays s ->
  (debounce_time s <= t - last)%Q.
Proof.
  revert s last. induction plays as [|[t0 m0] rest IH]; intros s last Hsort Hall Hl Hin.
  - cbn in Hin. now apply elem_of_nil in Hin.
  - cbn [map fst] in Hsort. apply Sorted_inv in Hsort as [Hsort Hhd].
    apply Forall_cons in Hall as [Hl0 Hall]. cbn [fst] in Hl0.
    pose proof (sorted_head_le t0 rest Hsort Hhd) as Hrest.
    cbn [play_all] in Hin.
    destruct (_play_alert m0 t0 s) as [s1 [tone|]] eqn:Ep.
    + destruct (play_alert_played _ _ _ _ _ Ep) as (_ & Es1 & Hdeb).
      assert (Hd : debounce_time s1 = debounce_time s) by now rewrite Es1.
      apply elem_of_cons in Hin as [Heq|Hin].
      * injection Heq as -> ->. now apply Hdeb.
      * rewrite <- Hd.
        destruct (decide (alert_key m = alert_key m0)) as [Ek|Nk].
        -- assert (H1 : (debounce_time s1 <= t - t0)%Q).
           { apply (IH s1 t0 Hsort Hrest); [|exact Hin].
             rewrite Es1. cbn. rewrite Ek. apply lookup_insert_eq. }
           Lqa.lra.
        -- apply (IH s1 last Hsort Hall); [|exact Hin].
           rewrite Es1. cbn. rewrite lookup_insert_ne by congruence. exact Hl.
    + apply play_alert_dropped in Ep as ->. now apply (IH s last).
Qed.

(** In a run of the playback worker whose clock does not go back, any two
    tones played with the same debounce key are at least the debounce
    interval apart. *)
Theorem tones_of_a_key_are_spaced (plays : list (Q * AlertData)) (s : State)
    (i j : nat) (ti tj : Q) (mi mj : AlertData) :
  Sorted Qle (map fst plays) ->
  (i < j)%nat ->
  play_all plays s !! i = Some (ti, mi) ->
  play_all plays s !! j = Some (tj, mj) ->
  alert_key mi = alert_key mj ->
  (debounce_time s <= tj - ti)%Q.
Proof.
  revert s i j. induction plays as [|[t0 m0] rest IH]; intros s i j Hsort Hij Hi Hj Hk.
  - discriminate.
  - cbn [map fst] in Hsort. pose proof Hsort as Hsort0.
    apply Sorted_inv in Hsort as [Hsort Hhd].
    cbn [play_all] in Hi, Hj.
    destruct (_play_alert m0 t0 s) as [s1 [tone|]] eqn:Ep.
    + destruct (play_alert_played _ _ _ _ _ Ep) as (_ & Es1 & _).
      assert (Hd : debounce_time s1 = debounce_time s) by now rewrite Es1.
      destruct j as [|j]; [lia|]. cbn in Hj.
      destruct i as [|i].
      * cbn in Hi. injection Hi as <- <-. rewrite <- Hd.
        apply (play_all_after_recorded rest s1 t0 tj mj Hsort).
        -- now apply sorted_head_le.
        -- rewrite Es1. cbn. rewrite <- Hk. apply lookup_insert_eq.
        -- eapply list_elem_of_lookup_2. exact Hj.
      * cbn in Hi. rewrite <- Hd. apply (IH s1 i j Hsort); [lia|assumption..].
    + apply play_alert_dropped in Ep as ->. now apply (IH s i j).
Qed.

Lemma tones_of_a_key_are_spaced_witness :
  let m := obstacle_message Config.default "close" "chair" "normal" in
  play_all [(10%Q, m); ((101 # 10)%Q, m); ((104 # 10)%Q, m)] (init Config.default)
    = [(10%Q, m); ((104 # 10)%Q, m)] /\
  (3 # 10 <= (104 # 10) - 10)%Q.
Proof.
  intros m. split; [reflexivity|].
  apply (tones_of_a_key_are_spaced
           [(10%Q, m); ((101 # 10)%Q, m); ((104 # 10)%Q, m)] (init Config.default)
           0 1 10%Q (104 # 10)%Q m m).
  - repeat constructor; unfold Qle; cbn; lia.
  - lia.
  - reflexivity.
  - reflexivity.
  - reflexivity.
Defined.

(** *** Debounce keys *)

Lemma alert_key_inj (m1 m2 : AlertData) :
  alert_type m1 ∈ ["obstacle"; "noise"]%string ->
  alert_type m2 ∈ ["obstacle"; "noise"]%string ->
  alert_key m1 = alert_key m2 ->
  alert_type m1 = alert_type m2 /\ frequency m1 = frequency m2.
Proof.
  unfold alert_key. rewrite !elem_of_cons, !elem_of_nil.
  intros [-> | [-> | []]] [-> | [-> | []]]; cbn; intros H;
    try discriminate; injection H as H; apply pretty_Z_inj in H; now split.
Qed.

Lemma play_alert_other_key (m1 m2 : AlertData) (t1 t2 : Q) (s : State) :
  alert_key m1 <> alert_key m2 ->
  snd (_play_alert m2 t2 (fst (_play_alert m1 t1 s))) = snd (_play_alert m2 t2 s).
Proof.
  intros Hk. unfold _play_alert at 2.
  destruct (enabled s) eqn:He; cbn [negb]; [|cbn [fst]; reflexivity].
  destruct (match last_alert_time s !! alert_key m1 with
            | Some last => Qltb (t1 - last) (debounce_time s)
            | None => false
            end); cbn [fst]; [reflexivity|].
  unfold _play_alert. cbn [enabled with_last last_alert_time debounce_time].
  rewrite He. cbn [negb].
  rewrite lookup_insert_ne by exact Hk.
  destruct (match last_alert_time s !! alert_key m2 with
            | Some last => Qltb (t2 - last) (debounce_time s)
            | None => false
            end); reflexivity.
Qed.

(** Messages of the two producers that differ in type or in frequency have
    different debounce keys: whether the second is played does not depend
    on the first having been handled before it. *)
Theorem different_alerts_do_not_debounce (m1 m2 : AlertData) (t1 t2 : Q) (s : State) :
  alert_type m1 ∈ ["obstacle"; "noise"]%string ->
  alert_type m2 ∈ ["obstacle"; "noise"]%string ->
  alert_type m1 <> alert_type m2 \/ frequency m1 <> frequency m2 ->
  alert_key m1 <> alert_key m2 /\
  snd (_play_alert m2 t2 (fst (_play_alert m1 t1 s))) = snd (_play_alert m2 t2 s).
Proof.
  intros H1 H2 Hd.
  assert (Hk : alert_key m1 <> alert_key m2).
  { intros E. destruct (alert_key_inj m1 m2 H1 H2 E) as [Ht Hf].
    destruct Hd; contradiction. }
  split; [exact Hk|]. now apply play_alert_other_key.
Qed.

Lemma different_alerts_do_not_debounce_witness :
  let person := obstacle_message Config.default "close" "person" "high" in
  let chair := obstacle_message Config.default "close" "chair" "normal" in
  snd (_play_alert chair 10 (fst (_play_alert person 10 (init Config.default))))
  = Some (tone_of chair).
Proof.
  intros person chair.
  destruct (different_alerts_do_not_debounce person chair 10 10 (init Config.default))
    as [_ ->].
  - apply elem_of_cons. now left.
  - apply elem_of_cons. now left.
  - right. discriminate.
  - reflexivity.
Defined.

(** *** Disabling the alerts *)

Lemma drain_nil {A : Type} (pending : list A) : drain pending = [].
Proof. induction pending; [reflexivity|assumption]. Qed.

Lemma alert_noise_disabled cfg n i s :
  enabled s = false -> alert_noise cfg n i s = s.
Proof. intros H. unfold alert_noise. now rewrite H. Qed.

Lemma run_actions_disabled (cfg : Config.t) (actions : list action) (s : State) :
  enabled s = false -> items (alert_queue s) = [] ->
  run_actions cfg actions s = (s, []).
Proof.
  intros He Hq. induction actions as [|a rest IH]; [reflexivity|].
  destruct a as [p o pr c|n i|t]; cbn [run_actions].
  - now rewrite alert_obstacle_disabled.
  - now rewrite alert_noise_disabled.
  - unfold _process_alerts_step, get_nowait. rewrite Hq. now rewrite IH.
Qed.

(** After [set_enabled(False)] (and so after [stop()]) the queue is empty,
    whatever was pending, and it stays so: every later call of a producer
    is a no-op and the worker plays no tone. *)
Theorem disabled_alerts_are_silent (cfg : Config.t) (s : State) (actions : list action) :
  let s0 := set_enabled false s in
  items (alert_queue s0) = [] /\
  stop s = s0 /\
  run_actions cfg actions s0 = (s0, []).
Proof.
  intros s0.
  assert (Hq : items (alert_queue s0) = []) by apply drain_nil.
  split; [exact Hq|]. split; [reflexivity|].
  now apply run_actions_disabled.
Qed.

End ObstacleAlert.

(** ** Geometry helpers of the standalone variant *)

Module Helpers.
Import QCmp.

(** The dictionary returned by [calculate_bbox_position]. *)
Record BBoxInfo : Type := mkBBoxInfo {
  x_center : Q;
  y_center : Q;
  width : Q;
  height : Q;
  relative_size : Q
}.

(** [calculate_bbox_position(x1, y1, x2, y2, frame_width, frame_height)].
    The sums, the product and the quotient are exact; the code's results
    are these numbers rounded to the floating-point type of the
    coordinates. *)
Definition calculate_bbox_position (x1 y1 x2 y2 : Q) (frame_width frame_height : Z)
    : BBoxInfo :=
  let center_x := ((x1 + x2) / 2)%Q in
  let center_y := ((y1 + y2) / 2)%Q in
  let width := (x2 - x1)%Q in
  let height := (y2 - y1)%Q in
  let bbox_area := (width * height)%Q in
  let frame_area := frame_width * frame_height in
  let relative_size :=
    if 0 <? frame_area then (bbox_area / inject_Z frame_area)%Q else 0%Q in
  {| x_center := center_x; y_center := center_y;
     width := width; height := height; relative_size := relative_size |}.

(** [calculate_proximity(relative_size, frame_width, frame_height)] *)
Definition calculate_proximity (relative_size : Q) (frame_width frame_height : Z)
    : string :=
  if Qgtb relative_size (8 # 100) then "close"
  else if Qgtb relative_size (4 # 100) then "medium"
  else "far".

(** [is_center_zone(x_center, y_center, frame_width, frame_height)].  The
    four bounds are the doubles [frame_width * 0.3], [frame_width * 0.7],
    [frame_height * 0.3] and [frame_height * 0.7]; a coordinate is compared
    with them by its value. *)
Definition is_center_zone (x_center y_center : Q) (frame_width frame_height : Z)
    : bool :=
  let x_in_center :=
    PyFloat.lt_num (PyFloat.int_mul frame_width PyFloat.lit_0_3) x_center
    && PyFloat.num_lt x_center (PyFloat.int_mul frame_width PyFloat.lit_0_7) in
  let y_in_center :=
    PyFloat.lt_num (PyFloat.int_mul frame_height PyFloat.lit_0_3) y_center
    && PyFloat.num_lt y_center (PyFloat.int_mul frame_height PyFloat.lit_0_7) in
  x_in_center && y_in_center.

(** The part of [VisionAgent.detect_objects] that classifies one box.  The
    agent's module imports the three configured distances, so the
    configuration is in scope here. *)
Definition box_proximity (cfg : Config.t) (x1 y1 x2 y2 : Q)
    (original_width original_height : Z) : string * bool :=
  let bbox_info := calculate_bbox_position x1 y1 x2 y2 original_width original_height in
  let proximity :=
    calculate_proximity (relative_size bbox_info) original_width original_height in
  let is_center :=
    is_center_zone (x_center bbox_info) (y_center bbox_info)
                   original_width original_height in
  (proximity, is_center).

Lemma calculate_proximity_cases (rs : Q) (w h : Z) :
  ((8 # 100 < rs)%Q /\ calculate_proximity rs w h = "close"%string) \/
  ((4 # 100 < rs)%Q /\ (rs <= 8 # 100)%Q /\ calculate_proximity rs w h = "medium"%string) \/
  ((rs <= 4 # 100)%Q /\ calculate_proximity rs w h = "far"%string).
Proof.
  unfold calculate_proximity.
  destruct (Qgtb rs (8 # 100)) eqn:E8.
  - left. split; [now apply Qgtb_gt|reflexivity].
  - apply Qgtb_le in E8. destruct (Qgtb rs (4 # 100)) eqn:E4.
    + right. left. split; [now apply Qgtb_gt|]. split; [exact E8|reflexivity].
    + right. right. split; [now apply Qgtb_le|reflexivity].
Qed.

(** C4.  The classifier answers close exactly above 0.08, medium exactly
    in (0.04, 0.08], far exactly up to 0.04; so 0.08 is medium and 0.04 is
    far.  The frame size and the configured close, medium and far
    distances play no part: any two configurations give every box the same
    proximity, which is the classifier's answer on the box's relative
    size. *)
Theorem calculate_proximity_thresholds (rs : Q) (w h : Z) :
  (calculate_proximity rs w h = "close"%string <-> (8 # 100 < rs)%Q) /\
  (calculate_proximity rs w h = "medium"%string <->
     (4 # 100 < rs)%Q /\ (rs <= 8 # 100)%Q) /\
  (calculate_proximity rs w h = "far"%string <-> (rs <= 4 # 100)%Q) /\
  calculate_proximity (8 # 100) w h = "medium"%string /\
  calculate_proximity (4 # 100) w h = "far"%string /\
  (forall w' h', calculate_proximity rs w' h' = calculate_proximity rs w h) /\
  (forall (cfg cfg' : Config.t) (x1 y1 x2 y2 : Q) (fw fh : Z),
     fst (box_proximity cfg x1 y1 x2 y2 fw fh)
       = fst (box_proximity cfg' x1 y1 x2 y2 fw fh) /\
     fst (box_proximity cfg x1 y1 x2 y2 fw fh)
       = calculate_proximity
           (relative_size (calculate_bbox_position x1 y1 x2 y2 fw fh)) w h).
Proof.
  assert (H48 : (4 # 100 <= 8 # 100)%Q) by (unfold Qle; cbn; lia).
  assert (Hsize : forall w' h', calculate_proximity rs w' h' = calculate_proximity rs w h)
    by reflexivity.
  assert (Hbox : forall (cfg cfg' : Config.t) (x1 y1 x2 y2 : Q) (fw fh : Z),
     fst (box_proximity cfg x1 y1 x2 y2 fw fh)
       = fst (box_proximity cfg' x1 y1 x2 y2 fw fh) /\
     fst (box_proximity cfg x1 y1 x2 y2 fw fh)
       = calculate_proximity
           (relative_size (calculate_bbox_position x1 y1 x2 y2 fw fh)) w h)
    by (intros; split; reflexivity).
  split; [|split; [|split; [|split; [reflexivity|split; [reflexivity|split; assumption]]]]].
  - destruct (calculate_proximity_cases rs w h) as [[H ->]|[(H1 & H2 & ->)|[H ->]]].
    + tauto.
    + split; [discriminate|]. intros H. exfalso. exact (Qlt_not_le _ _ H H2).
    + split; [discriminate|]. intros H8. exfalso. apply (Qlt_not_le _ _ H8).
      now apply Qle_trans with (4 # 100).
  - destruct (calculate_proximity_cases rs w h) as [[H ->]|[(H1 & H2 & ->)|[H ->]]].
    + split; [discriminate|]. intros [_ H2]. exfalso. exact (Qlt_not_le _ _ H H2).
    + tauto.
    + split; [discriminate|]. intros [H4 _]. exfalso. exact (Qlt_not_le _ _ H4 H).
  - destruct (calculate_proximity_cases rs w h) as [[H ->]|[(H1 & H2 & ->)|[H ->]]].
    + split; [discriminate|]. intros H4. exfalso. apply (Qlt_not_le _ _ H).
      now apply Qle_trans with (4 # 100).
    + split; [discriminate|]. intros H. exfalso. exact (Qlt_not_le _ _ H1 H).
    + tauto.
Qed.

(** *** Geometry of a box *)

Lemma relative_size_positive_frame (x1 y1 x2 y2 : Q) (w h : Z) :
  0 < w * h ->
  relative_size (calculate_bbox_position x1 y1 x2 y2 w h)
  = ((x2 - x1) * (y2 - y1) / inject_Z (w * h))%Q.
Proof.
  intros H. unfold calculate_bbox_position. cbn [relative_size].
  destruct (Z.ltb_spec 0 (w * h)); [reflexivity|lia].
Qed.

(** A box that lies inside a frame of positive size covers a share of the
    frame between 0 and 1. *)
Theorem relative_size_in_unit_interval (x1 y1 x2 y2 : Q) (w h : Z) :
  0 < w -> 0 < h ->
  (0 <= x1)%Q -> (x1 <= x2)%Q -> (x2 <= inject_Z w)%Q ->
  (0 <= y1)%Q -> (y1 <= y2)%Q -> (y2 <= inject_Z h)%Q ->
  (0 <= relative_size (calculate_bbox_position x1 y1 x2 y2 w h))%Q /\
  (relative_size (calculate_bbox_position x1 y1 x2 y2 w h) <= 1)%Q.
Proof.
  intros Hw Hh Hx1 Hx Hx2 Hy1 Hy Hy2.
  rewrite relative_size_positive_frame by lia.
  assert (HW : (0 < inject_Z w)%Q) by (change 0%Q with (inject_Z 0); now rewrite <- Zlt_Qlt).
  assert (HH : (0 < inject_Z h)%Q) by (change 0%Q with (inject_Z 0); now rewrite <- Zlt_Qlt).
  assert (HF : (0 < inject_Z (w * h))%Q)
    by (change 0%Q with (inject_Z 0); rewrite <- Zlt_Qlt; lia).
  split.
  - apply Qle_shift_div_l; [exact HF|]. Lqa.nra.
  - apply Qle_shift_div_r; [exact HF|]. rewrite inject_Z_mult. Lqa.nra.
Qed.

Lemma relative_size_in_unit_interval_witness :
  (0 <= relative_size (calculate_bbox_position 100 50 300 250 640 480))%Q /\
  (relative_size (calculate_bbox_position 100 50 300 250 640 480) <= 1)%Q.
Proof.
  apply relative_size_in_unit_interval; try lia; unfold Qle; cbn; lia.
Defined.

(** The lower bound of a 720-line frame is 216 and the upper bound is the
    double just below 504: the point at that height is outside the zone,
    its mirror image is inside. *)
Lemma is_center_zone_rounded_bound :
  let y := (8866461766385663 # 17592186044416)%Q in
  PyFloat.int_mul 720 PyFloat.lit_0_7 = S754_finite false 8866461766385663 (-44) /\
  is_center_zone 640 y 1280 720 = false /\
  is_center_zone 640 (720 - y) 1280 720 = true.
Proof. repeat split; vm_compute; reflexivity. Qed.

End Helpers.

(** ** The RMS-only ambient noise detector *)

Module AudioDetector.

(** A 16-bit signed integer operation wraps around. *)
Definition wrap_int16 (z : Z) : Z := (z + 32768) mod 65536 - 32768.

Definition Zsum (a : list Z) : Z := fold_right Z.add 0 a.

Definition Rsum (a : list R) : R := fold_right Rplus 0%R a.

(** [audio_data**2] on an array of dtype [int16]: the result keeps the
    dtype, every square is reduced to 16 bits. *)
Definition int16_square (audio_data : list Z) : list Z :=
  map (fun s => wrap_int16 (s * s)) audio_data.

(** [np.mean] of an integer array, in floating point; [None] is [nan],
    the mean of no element. *)
Definition np_mean (a : list Z) : option R :=
  match a with
  | [] => None
  | _ => Some (IZR (Zsum a) / IZR (Z.of_nat (length a)))%R
  end.

(** [np.sqrt]; [nan] for a negative or [nan] argument. *)
Definition np_sqrt (x : option R) : option R :=
  match x with
  | Some v => if Rlt_dec v 0 then None else Some (sqrt v)
  | None => None
  end.

(** The dictionary returned for a significant noise. *)
Record NoiseEvent : Type := mkNoiseEvent {
  has_noise : bool;
  level : string;
  intensity : R;
  description : string
}.

Record State : Type := mkState {
  is_listening : bool;
  stream_open : bool;
  noise_threshold : R
}.

(** After [start_listening], with [NOISE_THRESHOLD] at its default 0.2. *)
Definition listening : State :=
  {| is_listening := true; stream_open := true; noise_threshold := (2 / 10)%R |}.

(** [detect_noise()].  [data] is what [self.stream.read] delivers, as the
    samples [np.frombuffer(data, dtype=np.int16)] decodes; [None] is a read
    that raises.  Every comparison with [nan] is false. *)
Definition detect_noise (self : State) (data : option (list Z)) : option NoiseEvent :=
  if negb (is_listening self) || negb (stream_open self) then None
  else
    match data with
    | None => None
    | Some audio_data =>
        match np_sqrt (np_mean (int16_square audio_data)) with
        | None => None
        | Some rms =>
            let max_value := 32768%R in
            let normalized_rms := (rms / max_value)%R in
            if Rgt_dec normalized_rms (noise_threshold self) then
              let level :=
                if Rgt_dec normalized_rms (7 / 10) then "muy alto"%string
                else if Rgt_dec normalized_rms (5 / 10) then "alto"%string
                else if Rgt_dec normalized_rms (3 / 10) then "moderado"%string
                else "bajo"%string in
              Some {| has_noise := true; level := level;
                      intensity := normalized_rms;
                      description :=
                        "Se detecta ruido " +:+ level +:+ " en el entorno" |}
            else None
        end
    end.

(** [get_audio_level()]: [None] is [nan], which [min(nan, 1.0)] returns
    as it is; a read that raises gives 0.0. *)
Definition get_audio_level (self : State) (data : option (list Z)) : option R :=
  if negb (is_listening self) || negb (stream_open self) then Some 0%R
  else
    match data with
    | None => Some 0%R
    | Some audio_data =>
        match np_sqrt (np_mean (int16_square audio_data)) with
        | None => None
        | Some rms => Some (Rmin (rms / 32768) 1)
        end
    end.

(** The quantity the detector is documented to report: the root mean
    square of the samples scaled to [-1, 1]. *)
Definition normalized_rms_of (audio_data : list Z) : R :=
  sqrt (Rsum (map (fun s => (IZR s / 32768) * (IZR s / 32768))%R audio_data)
        / IZR (Z.of_nat (length audio_data))).

Lemma wrap_int16_range (z : Z) : -32768 <= wrap_int16 z <= 32767.
Proof.
  unfold wrap_int16.
  pose proof (Z.mod_pos_bound (z + 32768) 65536 ltac:(lia)). lia.
Qed.

Lemma wrap_int16_id (z : Z) : -32768 <= z <= 32767 -> wrap_int16 z = z.
Proof.
  intros H. unfold wrap_int16. rewrite Z.mod_small; lia.
Qed.

Lemma Zsum_int16_square_le (a : list Z) :
  Zsum (int16_square a) <= 32767 * Z.of_nat (length a).
Proof.
  induction a as [|s a IH]; [cbn; lia|].
  cbn [int16_square map Zsum fold_right length].
  fold (int16_square a). fold (Zsum (int16_square a)).
  pose proof (wrap_int16_range (s * s)). lia.
Qed.

Lemma length_int16_square (a : list Z) : length (int16_square a) = length a.
Proof. apply length_map. Qed.

(** The mean the code takes never exceeds the largest 16-bit value. *)
Lemma np_mean_int16_square_le (a : list Z) (m : R) :
  np_mean (int16_square a) = Some m -> (m <= 32767)%R.
Proof.
  destruct a as [|s a]; [discriminate|].
  unfold np_mean. cbn [int16_square map]. fold (int16_square a).
  intros [= <-].
  pose proof (Zsum_int16_square_le (s :: a)) as Hs.
  cbn [int16_square map] in Hs. fold (int16_square a) in Hs.
  set (S := Zsum (wrap_int16 (s * s) :: int16_square a)) in *.
  set (n := Z.of_nat (length (wrap_int16 (s * s) :: int16_square a))).
  assert (Hn : n = Z.of_nat (length (s :: a)))
    by (subst n; cbn [length]; now rewrite length_int16_square).
  rewrite <- Hn in Hs.
  assert (Hpos : (0 < IZR n)%R) by (apply IZR_lt; rewrite Hn; cbn [length]; lia).
  apply Rmult_le_reg_r with (IZR n); [exact Hpos|].
  unfold Rdiv. rewrite Rmult_assoc, Rinv_l, Rmult_1_r by lra.
  rewrite <- mult_IZR. now apply IZR_le.
Qed.

(** Whatever is read, the value the code thresholds stays below 0.0056. *)
Lemma np_sqrt_mean_small (a : list Z) (rms : R) :
  np_sqrt (np_mean (int16_square a)) = Some rms -> (rms / 32768 < 56 / 10000)%R.
Proof.
  destruct (np_mean (int16_square a)) as [m|] eqn:Em; [|discriminate].
  cbn [np_sqrt]. destruct (Rlt_dec m 0) as [|Hm]; [discriminate|].
  intros [= <-]. apply np_mean_int16_square_le in Em.
  assert (Hs : (sqrt m <= sqrt (182 * 182))%R) by (apply sqrt_le_1_alt; lra).
  rewrite sqrt_square in Hs by lra. lra.
Qed.

(** With the default threshold the detector never reports a noise. *)
Lemma detect_noise_silent (data : option (list Z)) :
  detect_noise listening data = None.
Proof.
  unfold detect_noise. cbn [listening is_listening stream_open negb orb noise_threshold].
  destruct data as [a|]; [|reflexivity].
  destruct (np_sqrt (np_mean (int16_square a))) as [rms|] eqn:E; [|reflexivity].
  apply np_sqrt_mean_small in E.
  destruct (Rgt_dec (rms / 32768) (2 / 10)) as [H|]; [lra|reflexivity].
Qed.

Lemma Rsum_map_repeat (f : Z -> R) (x : Z) (n : nat) :
  Rsum (map f (repeat x n)) = (INR n * f x)%R.
Proof.
  induction n as [|n IH]; [cbn; lra|].
  cbn [repeat map Rsum fold_right]. fold (Rsum (map f (repeat x n))).
  rewrite IH, S_INR. lra.
Qed.

(** A chunk of [n > 0] equal samples [x >= 0] has normalised RMS [x / 32768]. *)
Lemma normalized_rms_of_constant (x : Z) (n : nat) :
  (0 < n)%nat -> 0 <= x ->
  normalized_rms_of (repeat x n) = (IZR x / 32768)%R.
Proof.
  intros Hn Hx. unfold normalized_rms_of.
  rewrite Rsum_map_repeat, repeat_length, <- INR_IZR_INZ.
  assert (Hpos : (0 < INR n)%R) by (apply lt_0_INR; lia).
  replace (INR n * (IZR x / 32768 * (IZR x / 32768)) / INR n)%R
    with ((IZR x / 32768) * (IZR x / 32768))%R by (field; lra).
  apply sqrt_square. apply IZR_le in Hx. lra.
Qed.

(** C5 (the code departs from the claim).  A chunk of 1024 samples of
    value 16384 has normalised RMS 0.5, above the 0.2 threshold, so the
    claim asks for a noise event of level moderado and intensity 0.5.  The
    code squares in 16 bits: every square wraps to 0, the value it
    thresholds is 0 and no event is emitted. *)
Theorem detect_noise_loud_chunk_lost :
  let chunk := repeat 16384 1024 in
  normalized_rms_of chunk = (1 / 2)%R /\
  (normalized_rms_of chunk > 2 / 10)%R /\
  int16_square chunk = repeat 0 1024 /\
  np_sqrt (np_mean (int16_square chunk)) = Some 0%R /\
  detect_noise listening (Some chunk) = None.
Proof.
  intros chunk.
  assert (Hrms : normalized_rms_of chunk = (1 / 2)%R).
  { subst chunk. rewrite normalized_rms_of_constant by lia. lra. }
  assert (Hsq : int16_square chunk = repeat 0 1024) by (vm_compute; reflexivity).
  split; [exact Hrms|]. split; [rewrite Hrms; lra|]. split; [exact Hsq|].
  split; [|apply detect_noise_silent].
  rewrite Hsq. unfold np_mean.
  replace (Zsum (repeat 0 1024)) with 0 by (vm_compute; reflexivity).
  cbn [repeat]. unfold Rdiv. rewrite Rmult_0_l. cbn [np_sqrt].
  destruct (Rlt_dec 0 0) as [H|_]; [lra|]. now rewrite sqrt_0.
Qed.

Lemma np_sqrt_nonneg (x : option R) (rms : R) :
  np_sqrt x = Some rms -> (0 <= rms)%R.
Proof.
  destruct x as [v|]; [|discriminate]. cbn [np_sqrt].
  destruct (Rlt_dec v 0); [discriminate|]. intros [= <-]. apply sqrt_pos.
Qed.

(** Whatever the threshold is set to and whatever is read: a noise event
    is always of level bajo, with an intensity below 0.0056; the levels
    moderado, alto and muy alto are never reported.  The audio level is
    likewise never above 0.0056, nor negative. *)
Theorem reported_noise_is_always_faint (self : State) (data : option (list Z)) :
  (forall ev, detect_noise self data = Some ev ->
     level ev = "bajo"%string /\
     description ev = "Se detecta ruido bajo en el entorno"%string /\
     (noise_threshold self < intensity ev < 56 / 10000)%R) /\
  (forall v, get_audio_level self data = Some v -> (0 <= v < 56 / 10000)%R).
Proof.
  split.
  - intros ev. unfold detect_noise.
    destruct (negb (is_listening self) || negb (stream_open self)); [discriminate|].
    destruct data as [a|]; [|discriminate].
    destruct (np_sqrt (np_mean (int16_square a))) as [rms|] eqn:E; [|discriminate].
    apply np_sqrt_mean_small in E.
    destruct (Rgt_dec (rms / 32768) (noise_threshold self)) as [Hth|]; [|discriminate].
    destruct (Rgt_dec (rms / 32768) (7 / 10)) as [H|_]; [lra|].
    destruct (Rgt_dec (rms / 32768) (5 / 10)) as [H|_]; [lra|].
    destruct (Rgt_dec (rms / 32768) (3 / 10)) as [H|_]; [lra|].
    intros [= <-]. cbn. split; [reflexivity|]. split; [reflexivity|]. lra.
  - intros v. unfold get_audio_level.
    destruct (negb (is_listening self) || negb (stream_open self)); [intros [= <-]; lra|].
    destruct data as [a|]; [|intros [= <-]; lra].
    destruct (np_sqrt (np_mean (int16_square a))) as [rms|] eqn:E; [|discriminate].
    pose proof (np_sqrt_nonneg _ _ E) as Hpos.
    apply np_sqrt_mean_small in E. intros [= <-].
    rewrite Rmin_left by lra. lra.
Qed.

(** A detector set to the threshold 0.001 that reads one sample of value
    100 reports a noise, of level bajo. *)
Lemma reported_noise_is_always_faint_witness :
  let sensitive := {| is_listening := true; stream_open := true;
                      noise_threshold := (1 / 1000)%R |} in
  exists ev, detect_noise sensitive (Some [100]) = Some ev /\
             level ev = "bajo"%string.
Proof.
  intros sensitive.
  assert (Hs : np_sqrt (np_mean (int16_square [100])) = Some 100%R).
  { replace (int16_square [100]) with [10000] by (vm_compute; reflexivity).
    unfold np_mean, Zsum. cbn [fold_right length np_sqrt].
    change (10000 + 0) with 10000. change (Z.of_nat 1) with 1.
    destruct (Rlt_dec (10000 / 1) 0) as [H|_]; [lra|].
    f_equal. replace (10000 / 1)%R with (100 * 100)%R by lra.
    apply sqrt_square. lra. }
  assert (E : exists ev, detect_noise sensitive (Some [100]) = Some ev).
  { unfold detect_noise. cbn [sensitive is_listening stream_open negb orb noise_threshold].
    rewrite Hs.
    destruct (Rgt_dec (100 / 32768) (1 / 1000)) as [_|H]; [|exfalso; lra].
    eexists. reflexivity. }
  destruct E as [ev E]. exists ev. split; [exact E|].
  exact (proj1 (proj1 (reported_noise_is_always_faint sensitive (Some [100])) ev E)).
Defined.

End AudioDetector.

(** ** The description cache of the database manager *)

Module DatabaseManager.

(** A row of [cache_descripciones], without its serial [id].  The column
    [hash_objetos] is UNIQUE and keys the table below.  The two write
    paths only ever store integers in [uso_count]. *)
Record CacheRow : Type := mkRow {
  descripcion : string;
  uso_count : Z;
  created_at : Q;
  last_used : Q
}.

(** The table, keyed by [hash_objetos]. *)
Abbreviation Table := (gmap string CacheRow).

(** *** Direct backend *)

(** The single statement
<<
  INSERT INTO cache_descripciones (hash_objetos, descripcion) VALUES (%s, %s)
  ON CONFLICT (hash_objetos) DO UPDATE SET
      descripcion = EXCLUDED.descripcion,
      uso_count = cache_descripciones.uso_count + 1,
      last_used = CURRENT_TIMESTAMP
>>
    run at time [now]; a fresh row takes the column defaults. *)
Definition upsert_statement (now : Q) (hash_objetos descripcion : string)
    (tbl : Table) : Table :=
  match tbl !! hash_objetos with
  | None =>
      <[hash_objetos := {| descripcion := descripcion; uso_count := 1;
                           created_at := now; last_used := now |}]> tbl
  | Some row =>
      <[hash_objetos := {| descripcion := descripcion;
                           uso_count := uso_count row + 1;
                           created_at := created_at row;
                           last_used := now |}]> tbl
  end.

(** [_cache_description_postgres(hash_objetos, descripcion)] on a working
    connection. *)
Definition _cache_description_postgres (now : Q) (hash_objetos descripcion : string)
    (tbl : Table) : Table * bool :=
  (upsert_statement now hash_objetos descripcion tbl, true).

(** *** Managed backend: three separate requests *)

(** [table.select('uso_count').eq('hash_objetos', h).execute().data] *)
Definition select_uso_count (hash_objetos : string) (tbl : Table) : list Z :=
  match tbl !! hash_objetos with
  | Some row => [uso_count row]
  | None => []
  end.

(** [table.update({'descripcion': d, 'uso_count': n}).eq('hash_objetos', h)] *)
Definition update_request (hash_objetos descripcion : string) (new_count : Z)
    (tbl : Table) : Table :=
  match tbl !! hash_objetos with
  | Some row =>
      <[hash_objetos := {| descripcion := descripcion; uso_count := new_count;
                           created_at := created_at row;
                           last_used := last_used row |}]> tbl
  | None => tbl
  end.

(** [table.insert({'hash_objetos': h, 'descripcion': d, 'uso_count': 1})],
    when no row has the hash. *)
Definition insert_request (now : Q) (hash_objetos descripcion : string)
    (count : Z) (tbl : Table) : Table :=
  <[hash_objetos := {| descripcion := descripcion; uso_count := count;
                       created_at := now; last_used := now |}]> tbl.

(** [_cache_description_supabase(hash_objetos, descripcion)] with no other
    writer between its read and its write. *)
Definition _cache_description_supabase (now : Q) (hash_objetos descripcion : string)
    (tbl : Table) : Table * bool :=
  let existing := select_uso_count hash_objetos tbl in
  match existing with
  | uso :: _ =>
      let new_count := uso + 1 in
      (update_request hash_objetos descripcion new_count tbl, true)
  | [] =>
      (insert_request now hash_objetos descripcion 1 tbl, true)
  end.

(** [cache_description(hash_objetos, descripcion)] *)
Definition cache_description (use_supabase : bool) (now : Q)
    (hash_objetos descripcion : string) (tbl : Table) : Table * bool :=
  if use_supabase then _cache_description_supabase now hash_objetos descripcion tbl
  else _cache_description_postgres now hash_objetos descripcion tbl.

(** [_get_cached_description_postgres(hash_objetos)] on a working
    connection: a SELECT of the text, then, when a row came back, the
    UPDATE of counter and [last_used]. *)
Definition _get_cached_description_postgres (now : Q) (hash_objetos : string)
    (tbl : Table) : Table * option string :=
  match tbl !! hash_objetos with
  | Some row =>
      (<[hash_objetos := {| descripcion := descripcion row;
                            uso_count := uso_count row + 1;
                            created_at := created_at row;
                            last_used := now |}]> tbl,
       Some (descripcion row))
  | None => (tbl, None)
  end.

(** [table.select('*').eq('hash_objetos', h).execute().data] *)
Definition select_rows (hash_objetos : string) (tbl : Table) : list CacheRow :=
  match tbl !! hash_objetos with
  | Some row => [row]
  | None => []
  end.

(** [table.update({'uso_count': n}).eq('hash_objetos', h)] *)
Definition update_count_request (hash_objetos : string) (new_count : Z)
    (tbl : Table) : Table :=
  match tbl !! hash_objetos with
  | Some row =>
      <[hash_objetos := {| descripcion := descripcion row; uso_count := new_count;
                           created_at := created_at row;
                           last_used := last_used row |}]> tbl
  | None => tbl
  end.

(** [_get_cached_description_supabase(hash_objetos)] with no other writer
    between its read and its write. *)
Definition _get_cached_description_supabase (hash_objetos : string)
    (tbl : Table) : Table * option string :=
  match select_rows hash_objetos tbl with
  | cached :: _ =>
      let new_count := uso_count cached + 1 in
      (update_count_request hash_objetos new_count tbl, Some (descripcion cached))
  | [] => (tbl, None)
  end.

(** [get_cached_description(hash_objetos)] *)
Definition get_cached_description (use_supabase : bool) (now : Q)
    (hash_objetos : string) (tbl : Table) : Table * option string :=
  if use_supabase then _get_cached_description_supabase hash_objetos tbl
  else _get_cached_description_postgres now hash_objetos tbl.

(** A use of the cache: a write or a lookup, at a clock value. *)
Inductive cache_op : Type :=
| Store (now : Q) (hash_objetos descripcion : string)
| Lookup (now : Q) (hash_objetos : string).

(** The table after the operations and what each lookup returned. *)
Fixpoint run_ops (use_supabase : bool) (ops : list cache_op) (tbl : Table)
    : Table * list (option string) :=
  match ops with
  | [] => (tbl, [])
  | Store now h d :: rest =>
      run_ops use_supabase rest (fst (cache_description use_supabase now h d tbl))
  | Lookup now h :: rest =>
      let '(tbl1, r) := get_cached_description use_supabase now h tbl in
      let '(tbl2, rs) := run_ops use_supabase rest tbl1 in
      (tbl2, r :: rs)
  end.

(** [n] lookups of one hash in a row. *)
Fixpoint lookups (use_supabase : bool) (n : nat) (now : Q) (hash_objetos : string)
    (tbl : Table) : Table :=
  match n with
  | O => tbl
  | S k => lookups use_supabase k now hash_objetos
             (fst (get_cached_description use_supabase now hash_objetos tbl))
  end.

(** What a cache entry holds for its readers: text and usage counter. *)
Definition entry (hash_objetos : string) (tbl : Table) : option (string * Z) :=
  (fun row => (descripcion row, uso_count row)) <$> tbl !! hash_objetos.

(** One write, on either backend, in terms of [entry]. *)
Lemma entry_cache_description (b : bool) now h d (tbl : Table) :
  entry h (fst (cache_description b now h d tbl))
  = Some (d, match entry h tbl with Some (_, n) => n + 1 | None => 1 end).
Proof.
  unfold entry, cache_description, _cache_description_supabase,
    _cache_description_postgres, upsert_statement, select_uso_count,
    update_request, insert_request.
  destruct b; destruct (tbl !! h) as [row|] eqn:E; cbn [fst];
    rewrite ?E; cbn [fst]; now rewrite lookup_insert_eq.
Qed.

Lemma entry_cache_description_other (b : bool) now h d k (tbl : Table) :
  k <> h -> fst (cache_description b now h d tbl) !! k = tbl !! k.
Proof.
  intros Hk.
  unfold cache_description, _cache_description_supabase,
    _cache_description_postgres, upsert_statement, select_uso_count,
    update_request, insert_request.
  destruct b; destruct (tbl !! h) as [row|] eqn:E; cbn [fst];
    rewrite ?E; cbn [fst]; now rewrite lookup_insert_ne.
Qed.

(** On a working connection both paths report success. *)
Lemma cache_description_ok (b : bool) now h d (tbl : Table) :
  snd (cache_description b now h d tbl) = true.
Proof.
  unfold cache_description, _cache_description_supabase, _cache_description_postgres.
  destruct b; [|reflexivity].
  now destruct (select_uso_count h tbl).
Qed.

(** Both backends keep text and counter of every entry in step, from any
    table and at any times. *)
Lemma backends_agree_on_entries now now' h d k (t1 t2 : Table) :
  entry k t1 = entry k t2 ->
  entry h t1 = entry h t2 ->
  entry k (fst (_cache_description_postgres now h d t1))
  = entry k (fst (_cache_description_supabase now' h d t2)).
Proof.
  intros Hk Hh. destruct (decide (k = h)) as [->|Hne].
  - change (_cache_description_postgres now h d t1)
      with (cache_description false now h d t1).
    change (_cache_description_supabase now' h d t2)
      with (cache_description true now' h d t2).
    rewrite !entry_cache_description. now rewrite Hh.
  - change (_cache_description_postgres now h d t1)
      with (cache_description false now h d t1).
    change (_cache_description_supabase now' h d t2)
      with (cache_description true now' h d t2).
    unfold entry. rewrite !entry_cache_description_other by exact Hne.
    exact Hk.
Qed.

(** C6.  From a table with no entry for the hash, caching twice under
    that hash ends, through the direct backend's single upsert and through
    the managed backend's read-then-write alike, with the entry holding
    the latest text and a usage counter of 2; all four calls report
    success, and the two tables agree on text and counter of every
    entry. *)
Theorem cache_description_twice (tbl : Table) (h d1 d2 : string)
    (now1 now2 now1' now2' : Q) :
  tbl !! h = None ->
  let p1 := _cache_description_postgres now1 h d1 tbl in
  let p2 := _cache_description_postgres now2 h d2 (fst p1) in
  let s1 := _cache_description_supabase now1' h d1 tbl in
  let s2 := _cache_description_supabase now2' h d2 (fst s1) in
  (snd p1 = true /\ snd p2 = true /\ snd s1 = true /\ snd s2 = true) /\
  entry h (fst p2) = Some (d2, 2) /\
  entry h (fst s2) = Some (d2, 2) /\
  (forall k, entry k (fst p2) = entry k (fst s2)).
Proof.
  intros Hnone p1 p2 s1 s2.
  assert (Twice : forall b n n',
    entry h (fst (cache_description b n' h d2 (fst (cache_description b n h d1 tbl))))
    = Some (d2, 2)).
  { intros b n n'. rewrite !entry_cache_description.
    unfold entry. now rewrite Hnone. }
  split; [|split; [exact (Twice false now1 now2)|split; [exact (Twice true now1' now2')|]]].
  - split; [|split; [|split]].
    + exact (cache_description_ok false now1 h d1 tbl).
    + exact (cache_description_ok false now2 h d2 (fst p1)).
    + exact (cache_description_ok true now1' h d1 tbl).
    + exact (cache_description_ok true now2' h d2 (fst s1)).
  - intros k. subst p2 s2. apply backends_agree_on_entries.
    + subst p1 s1. now apply backends_agree_on_entries.
    + subst p1 s1. now apply backends_agree_on_entries.
Qed.

Lemma cache_description_twice_witness :
  entry "abc" (fst (_cache_description_postgres 2 "abc" "una silla."
                 (fst (_cache_description_postgres 1 "abc" "una silla." ∅))))
    = Some ("una silla."%string, 2) /\
  entry "abc" (fst (_cache_description_supabase 2 "abc" "una silla."
                 (fst (_cache_description_supabase 1 "abc" "una silla." ∅))))
    = Some ("una silla."%string, 2).
Proof.
  pose proof (cache_description_twice ∅ "abc" "una silla." "una silla." 1 2 1 2
                (lookup_empty _)) as (_ & Hp & Hs & _).
  split; [exact Hp | exact Hs].
Defined.

(** *** Lookups *)

(** One lookup, on either backend, in terms of [entry]. *)
Lemma entry_get_cached_description (b : bool) now h (tbl : Table) :
  snd (get_cached_description b now h tbl) = fst <$> entry h tbl /\
  entry h (fst (get_cached_description b now h tbl))
  = (fun e => (fst e, snd e + 1)) <$> entry h tbl /\
  (forall k, k <> h -> fst (get_cached_description b now h tbl) !! k = tbl !! k).
Proof.
  unfold entry, get_cached_description, _get_cached_description_supabase,
    _get_cached_description_postgres, select_rows, update_count_request.
  destruct b; destruct (tbl !! h) as [row|] eqn:E; cbn [fst snd fmap option_fmap option_map];
    rewrite ?E; cbn [fst snd];
    (split; [reflexivity|split; [now rewrite ?lookup_insert_eq, ?E|]]);
    intros k Hk; now rewrite ?lookup_insert_ne.
Qed.

Lemma get_cached_description_miss (b : bool) now h (tbl : Table) :
  tbl !! h = None -> get_cached_description b now h tbl = (tbl, None).
Proof.
  intros Hn. unfold get_cached_description, _get_cached_description_supabase,
    _get_cached_description_postgres, select_rows.
  destruct b; now rewrite Hn.
Qed.

(** A lookup of a hash that is not cached returns nothing and leaves the
    table as it is; a lookup right after a write returns the text just
    written and raises the usage counter by one.  Both hold on the direct
    and on the managed backend. *)
Theorem cached_description_round_trip (b : bool) (now now' : Q) (h d : string)
    (tbl : Table) :
  (tbl !! h = None -> get_cached_description b now h tbl = (tbl, None)) /\
  (let stored := fst (cache_description b now h d tbl) in
   let r := get_cached_description b now' h stored in
   snd r = Some d /\
   (exists n, entry h stored = Some (d, n) /\ entry h (fst r) = Some (d, n + 1)) /\
   (forall k, k <> h -> fst r !! k = tbl !! k)).
Proof.
  split.
  - apply get_cached_description_miss.
  - intros stored r. subst r.
    destruct (entry_get_cached_description b now' h stored) as (Hr & He & Ho).
    pose proof (entry_cache_description b now h d tbl) as Hs. fold stored in Hs.
    rewrite Hr, He, Hs. cbn. split; [reflexivity|]. split.
    + eexists. split; reflexivity.
    + intros k Hk. rewrite (Ho k Hk). subst stored.
      now apply entry_cache_description_other.
Qed.

Lemma cached_description_round_trip_witness :
  snd (get_cached_description true 2 "abc"
         (fst (cache_description true 1 "abc" "una silla." ∅)))
  = Some "una silla."%string /\
  get_cached_description false 1 "abc" ∅ = (∅, None).
Proof.
  destruct (cached_description_round_trip true 1 2 "abc" "una silla." ∅) as [_ (H & _)].
  destruct (cached_description_round_trip false 1 2 "abc" "una silla." ∅) as [Hm _].
  split; [exact H|]. apply Hm. apply lookup_empty.
Defined.

Lemma entry_lookups (b : bool) (n : nat) now h (tbl : Table) d c :
  entry h tbl = Some (d, c) ->
  entry h (lookups b n now h tbl) = Some (d, c + Z.of_nat n).
Proof.
  revert tbl c. induction n as [|n IH]; intros tbl c He.
  - cbn [lookups Z.of_nat]. now rewrite Z.add_0_r.
  - cbn [lookups].
    destruct (entry_get_cached_description b now h tbl) as (_ & He' & _).
    rewrite He in He'. cbn in He'.
    rewrite (IH _ _ He'). f_equal. f_equal. lia.
Qed.

(** The usage counter counts the uses: a text cached under a fresh hash
    and then looked up [n] times has the counter [n + 1], and still the
    same text, on either backend. *)
Theorem usage_counter_counts_uses (b : bool) (n : nat) (now now' : Q)
    (h d : string) (tbl : Table) :
  tbl !! h = None ->
  entry h (lookups b n now' h (fst (cache_description b now h d tbl)))
  = Some (d, Z.of_nat n + 1).
Proof.
  intros Hn.
  rewrite (entry_lookups b n now' h _ d 1).
  - f_equal. f_equal. lia.
  - rewrite entry_cache_description. unfold entry. now rewrite Hn.
Qed.

Lemma usage_counter_counts_uses_witness :
  entry "abc" (lookups true 3 5 "abc" (fst (cache_description true 1 "abc" "una silla." ∅)))
  = Some ("una silla."%string, 4).
Proof.
  exact (usage_counter_counts_uses true 3 1 5 "abc" "una silla." ∅ (lookup_empty _)).
Defined.

Lemma run_ops_agree (ops : list cache_op) (t1 t2 : Table) :
  (forall k, entry k t1 = entry k t2) ->
  snd (run_ops false ops t1) = snd (run_ops true ops t2) /\
  (forall k, entry k (fst (run_ops false ops t1)) = entry k (fst (run_ops true ops t2))).
Proof.
  revert t1 t2. induction ops as [|op rest IH]; intros t1 t2 He; [now split|].
  destruct op as [now h d|now h]; cbn [run_ops].
  - apply IH. intros k.
    destruct (decide (k = h)) as [->|Hk].
    + rewrite !entry_cache_description. now rewrite He.
    + unfold entry. rewrite !entry_cache_description_other by exact Hk. apply He.
  - destruct (get_cached_description false now h t1) as [u1 r1] eqn:E1.
    destruct (get_cached_description true now h t2) as [u2 r2] eqn:E2.
    destruct (entry_get_cached_description false now h t1) as (Hr1 & He1 & Ho1).
    destruct (entry_get_cached_description true now h t2) as (Hr2 & He2 & Ho2).
    rewrite E1 in Hr1, He1, Ho1. rewrite E2 in Hr2, He2, Ho2. cbn [fst snd] in *.
    assert (Hu : forall k, entry k u1 = entry k u2).
    { intros k. destruct (decide (k = h)) as [->|Hk].
      - now rewrite He1, He2, He.
      - unfold entry. rewrite (Ho1 k Hk), (Ho2 k Hk). apply He. }
    destruct (IH u1 u2 Hu) as [Hs Hf].
    destruct (run_ops false rest u1) as [v1 rs1].
    destruct (run_ops true rest u2) as [v2 rs2]. cbn [fst snd] in *.
    split; [|exact Hf]. rewrite Hr1, Hr2, He. now f_equal.
Qed.

(** Run one after the other, without concurrent writers, any sequence of
    cache writes and lookups gives the same answers on the direct and on
    the managed backend and leaves every entry with the same text and the
    same usage counter. *)
Theorem backends_give_same_answers (ops : list cache_op) (tbl : Table) :
  snd (run_ops false ops tbl) = snd (run_ops true ops tbl) /\
  (forall k, entry k (fst (run_ops false ops tbl)) = entry k (fst (run_ops true ops tbl))).
Proof.
  destruct (run_ops_agree ops tbl tbl) as [Hanswers Hentries].
  - intros k. reflexivity.
  - split; [exact Hanswers|exact Hentries].
Qed.

(** The two backends do differ in a column the readers do not see: a
    lookup through the managed backend leaves [last_used] as it was, the
    direct backend sets it to the time of the lookup. *)
Lemma lookup_last_used_differs :
  let tbl := fst (cache_description false 1 "abc" "una silla." ∅) in
  last_used <$> fst (get_cached_description false 7 "abc" tbl) !! "abc" = Some 7%Q /\
  last_used <$> fst (get_cached_description true 7 "abc" tbl) !! "abc" = Some 1%Q.
Proof. split; reflexivity. Qed.

End DatabaseManager.

(** ** The browser variant: one refresh cycle *)

Module App.
Import QCmp.

(** The fields of [st.session_state] the cycle reads and writes. *)
Record SessionState : Type := mkSession {
  cap_opened : bool;
  last_detection_time : Q;
  last_description : string
}.

(** What the outside world answers during one cycle: the frame read from
    the camera ([None]: the read failed), the clock, the detector's list
    ([[]] also when it raised), the noise sample ([None]: disabled, silent
    or raised) and the language agent's text ([None]: it raised). *)
Record Cycle (Detection : Type) : Type := mkCycle {
  frame_read : option unit;
  current_time : Q;
  detections : list Detection;
  noise_info : option string;
  description : option string
}.
Arguments mkCycle {Detection} _ _ _ _ _.
Arguments frame_read {Detection} _.
Arguments current_time {Detection} _.
Arguments detections {Detection} _.
Arguments noise_info {Detection} _.
Arguments description {Detection} _.

(** What a cycle did. *)
Record Outcome : Type := mkOutcome {
  detection_ran : bool;
  spoken : option string
}.

Definition idle : Outcome := {| detection_ran := false; spoken := None |}.

(** [process_video_and_detection()] *)
Definition process_video_and_detection {Detection : Type}
    (c : Cycle Detection) (s : SessionState) : SessionState * Outcome :=
  if negb (cap_opened s) then (s, idle)
  else
    match frame_read c with
    | None => (s, idle)
    | Some _ =>
        let time_since_last := (current_time c - last_detection_time s)%Q in
        if Qgeb time_since_last 3 then
          let something :=
            match detections c, noise_info c with
            | [], None => false
            | _, _ => true
            end in
          if something then
            match description c with
            | Some text =>
                if negb (String.eqb text (last_description s)) then
                  ({| cap_opened := cap_opened s;
                      last_detection_time := current_time c;
                      last_description := text |},
                   {| detection_ran := true; spoken := Some text |})
                else (s, {| detection_ran := true; spoken := None |})
            | None => (s, {| detection_ran := true; spoken := None |})
            end
          else
            ({| cap_opened := cap_opened s;
                last_detection_time := current_time c;
                last_description := last_description s |},
             {| detection_ran := true; spoken := None |})
        else (s, idle)
    end.

(** The cycles of a session in order, with the time of every detection
    pass. *)
Fixpoint detection_times {Detection : Type} (cycles : list (Cycle Detection))
    (s : SessionState) : list Q :=
  match cycles with
  | [] => []
  | c :: rest =>
      let '(s1, out) := process_video_and_detection c s in
      if detection_ran out then current_time c :: detection_times rest s1
      else detection_times rest s1
  end.

(** The calls [audio_manager.speak(description)] the cycles of a session
    make, in order: the clock value [current_time] its cycle has read, and
    the text handed over.  The call itself comes later than the reading,
    by the half second the cycle sleeps when the audio is busy, and
    [speak] may ignore the text (a blank one). *)
Fixpoint speak_calls {Detection : Type} (cycles : list (Cycle Detection))
    (s : SessionState) : list (Q * string) :=
  match cycles with
  | [] => []
  | c :: rest =>
      let '(s1, out) := process_video_and_detection c s in
      match spoken out with
      | Some text => (current_time c, text) :: speak_calls rest s1
      | None => speak_calls rest s1
      end
  end.

(** The gate itself holds: a pass runs only when the clock is at least 3.0
    past the stored timestamp. *)
Lemma detection_ran_gate {Detection : Type} (c : Cycle Detection) (s : SessionState) :
  detection_ran (snd (process_video_and_detection c s)) = true ->
  (3 <= current_time c - last_detection_time s)%Q.
Proof.
  unfold process_video_and_detection.
  destruct (negb (cap_opened s)); [discriminate|].
  destruct (frame_read c); [|discriminate].
  destruct (Qgeb (current_time c - last_detection_time s) 3) eqn:E; [|discriminate].
  intros _. now apply Qgeb_ge.
Qed.

(** A pass that yields the text already spoken leaves the timestamp where
    it was. *)
Lemma same_description_keeps_timestamp {Detection : Type}
    (c : Cycle Detection) (s : SessionState) (d : Detection) (rest : list Detection) :
  cap_opened s = true -> frame_read c = Some tt ->
  (3 <= current_time c - last_detection_time s)%Q ->
  detections c = d :: rest ->
  description c = Some (last_description s) ->
  process_video_and_detection c s = (s, {| detection_ran := true; spoken := None |}).
Proof.
  intros Ho Hf Ht Hd Hx. unfold process_video_and_detection.
  rewrite Ho, Hf, Hd, Hx. cbn [negb].
  apply Qgeb_ge in Ht. rewrite Ht.
  now rewrite String.eqb_refl.
Qed.

(** C9 (the code departs from the claim).  The text "Hay una silla." was
    spoken before.  A cycle at time 10 detects a chair and obtains the same
    text: the pass runs and the timestamp stays at 0.  The next cycle, at
    time 10.03, therefore runs a detection pass again: two passes 0.03
    seconds apart. *)
Theorem detection_passes_closer_than_three_seconds :
  let s0 := {| cap_opened := true; last_detection_time := 0;
               last_description := "Hay una silla." |} in
  let c1 := mkCycle (Some tt) 10 ["chair"%string] None (Some "Hay una silla."%string) in
  let c2 := mkCycle (Some tt) (1003 # 100) ["chair"%string] None
              (Some "Hay una silla."%string) in
  let r1 := process_video_and_detection c1 s0 in
  let r2 := process_video_and_detection c2 (fst r1) in
  detection_ran (snd r1) = true /\
  last_detection_time (fst r1) = 0%Q /\
  detection_ran (snd r2) = true /\
  detection_times [c1; c2] s0 = [10%Q; (1003 # 100)%Q] /\
  (current_time c2 - current_time c1 < 3)%Q.
Proof.
  intros s0 c1 c2 r1 r2.
  assert (E1 : r1 = (s0, {| detection_ran := true; spoken := None |})).
  { subst r1. apply (same_description_keeps_timestamp c1 s0 "chair"%string []);
      try reflexivity. cbn. unfold Qle. cbn. lia. }
  assert (E2 : r2 = (s0, {| detection_ran := true; spoken := None |})).
  { subst r2. rewrite E1. cbn [fst].
    apply (same_description_keeps_timestamp c2 s0 "chair"%string []);
      try reflexivity. cbn. unfold Qle. cbn. lia. }
  split; [now rewrite E1|]. split; [now rewrite E1|]. split; [now rewrite E2|].
  split.
  - cbn [detection_times]. fold r1. rewrite E1. cbn [detection_ran].
    change (process_video_and_detection c2 s0) with (process_video_and_detection c2 (fst (s0, {| detection_ran := true; spoken := None |}))).
    rewrite <- E1 at 1. fold r2. rewrite E2. reflexivity.
  - cbn. unfold Qlt. cbn. lia.
Qed.

(** What one cycle does to the session: it speaks a text that differs from
    the last one, at least 3.0 after the stored timestamp, and stores both;
    or it speaks nothing, keeps the last text and does not move the
    timestamp back. *)
Lemma process_video_and_detection_cases {Detection : Type}
    (c : Cycle Detection) (s : SessionState) :
  let '(s1, out) := process_video_and_detection c s in
  (exists text, spoken out = Some text /\ text <> last_description s /\
                (3 <= current_time c - last_detection_time s)%Q /\
                last_detection_time s1 = current_time c /\
                last_description s1 = text) \/
  (spoken out = None /\ last_description s1 = last_description s /\
   (last_detection_time s <= last_detection_time s1)%Q).
Proof.
  unfold process_video_and_detection.
  destruct (negb (cap_opened s)); [right; repeat split; apply Qle_refl|].
  destruct (frame_read c); [|right; repeat split; apply Qle_refl].
  destruct (Qgeb (current_time c - last_detection_time s) 3) eqn:Eg;
    [|right; repeat split; apply Qle_refl].
  apply Qgeb_ge in Eg.
  destruct (match detections c, noise_info c with [], None => false | _, _ => true end).
  - destruct (description c) as [text|]; [|right; repeat split; apply Qle_refl].
    destruct (String.eqb_spec text (last_description s)) as [E|E]; cbn [negb].
    + right. repeat split; apply Qle_refl.
    + left. exists text. now repeat split.
  - right. cbn. repeat split. Lqa.lra.
Qed.

Lemma speak_calls_inv {Detection : Type} (cycles : list (Cycle Detection))
    (s : SessionState) :
  (forall t d, speak_calls cycles s !! 0%nat = Some (t, d) ->
     d <> last_description s /\ (3 <= t - last_detection_time s)%Q) /\
  (forall i t1 d1 t2 d2,
     speak_calls cycles s !! i = Some (t1, d1) ->
     speak_calls cycles s !! S i = Some (t2, d2) ->
     d2 <> d1 /\ (3 <= t2 - t1)%Q).
Proof.
  revert s. induction cycles as [|c rest IH]; intros s.
  - split; intros; discriminate.
  - cbn [speak_calls].
    pose proof (process_video_and_detection_cases c s) as Hc.
    destruct (process_video_and_detection c s) as [s1 out].
    destruct (IH s1) as (H1 & H2).
    destruct Hc as [(text & -> & Hne & Hgap & Ht & Hd)|(-> & Hd & Ht)].
    + split.
      * intros t d [= <- <-]. now split.
      * intros [|i] t1 d1 t2 d2 Hi Hj; cbn in Hi, Hj.
        -- injection Hi as <- <-. rewrite <- Hd, <- Ht. now apply H1.
        -- now apply (H2 i).
    + split; [|exact H2].
      intros t d H0. destruct (H1 t d H0) as (Hne & Hgap).
      rewrite <- Hd. split; [exact Hne|]. Lqa.lra.
Qed.



End App.

(** ** Python [str] operations *)

Module PyStr.

(** A [str] as the sequence of its characters. *)
Abbreviation Text := (list ascii).

Definition text (s : string) : Text := list_ascii_of_string s.

(** [c.isspace()] on the characters below 128: tab, line feed, vertical
    tab, form feed, carriage return, the four separators 28 to 31, and the
    space. *)
Definition isspace (c : ascii) : bool :=
  let n := N_of_ascii c in
  ((9 <=? n)%N && (n <=? 13)%N) || ((28 <=? n)%N && (n <=? 32)%N).

(** [s.split()]: the maximal runs of non-whitespace characters. *)
Fixpoint split (s : Text) : list Text :=
  match s with
  | [] => []
  | c :: rest =>
      if isspace c then split rest
      else
        match rest with
        | [] => [[c]]
        | c' :: _ =>
            if isspace c' then [c] :: split rest
            else
              match split rest with
              | w :: ws => (c :: w) :: ws
              | [] => [[c]]
              end
        end
  end.

(** [sep.join(words)] *)
Fixpoint join (sep : Text) (words : list Text) : Text :=
  match words with
  | [] => []
  | [w] => w
  | w :: ws => w ++ sep ++ join sep ws
  end.

(** [s.rfind(c)] for a one-character [c]: the highest index holding [c],
    or -1. *)
Fixpoint rfind (c : ascii) (s : Text) : Z :=
  match s with
  | [] => -1
  | x :: rest =>
      let r := rfind c rest in
      if 0 <=? r then r + 1
      else if Ascii.eqb x c then 0 else -1
  end.

(** [s[:n]] *)
Definition slice_to (n : Z) (s : Text) : Text :=
  if n <? 0 then take (length s - Z.to_nat (- n)) s
  else take (Z.to_nat n) s.

(** [s.rsplit(c, 1)]: cut at the last [c], if there is one. *)
Definition rsplit1 (c : ascii) (s : Text) : list Text :=
  let i := rfind c s in
  if i <? 0 then [s]
  else [take (Z.to_nat i) s; drop (S (Z.to_nat i)) s].

(** [s.endswith((c1, c2, ...))] for one-character suffixes. *)
Definition endswith_any (cs : list ascii) (s : Text) : bool :=
  match last s with
  | Some c => bool_decide (c ∈ cs)
  | None => false
  end.

Fixpoint lstrip (s : Text) : Text :=
  match s with
  | c :: rest => if isspace c then lstrip rest else s
  | [] => []
  end.

(** [s.strip()] *)
Definition strip (s : Text) : Text := rev (lstrip (rev (lstrip s))).


(** *** Facts about the string operations *)

(** A word: a non-empty run without whitespace. *)
Definition word (w : Text) : Prop :=
  w <> [] /\ Forall (fun c => isspace c = false) w.

Definition starts_nonspace (s : Text) : Prop :=
  match s with c :: _ => isspace c = false | [] => True end.

Lemma split_cons (c : ascii) (rest : Text) :
  split (c :: rest) =
  if isspace c then split rest
  else
    match rest with
    | [] => [[c]]
    | c' :: _ =>
        if isspace c' then [c] :: split rest
        else
          match split rest with
          | w :: ws => (c :: w) :: ws
          | [] => [[c]]
          end
    end.
Proof. reflexivity. Qed.

Lemma split_space (c : ascii) (s : Text) :
  isspace c = true -> split (c :: s) = split s.
Proof. intros H. cbn. now rewrite H. Qed.

Lemma split_nonspace_nonempty (c : ascii) (s : Text) :
  isspace c = false -> split (c :: s) <> [].
Proof.
  intros H. cbn [split]. rewrite H.
  destruct s as [|c' r]; [discriminate|].
  destruct (isspace c'); [discriminate|].
  destruct (split (c' :: r)); discriminate.
Qed.

Lemma split_words (s : Text) : Forall word (split s).
Proof.
  induction s as [|c rest IH]; [constructor|].
  cbn [split]. destruct (isspace c) eqn:Ec; [exact IH|].
  destruct rest as [|c' r].
  - repeat constructor; [discriminate|exact Ec].
  - destruct (isspace c') eqn:Ec'.
    + constructor; [|exact IH]. split; [discriminate|]. now repeat constructor.
    + destruct (split (c' :: r)) as [|w ws] eqn:Es.
      * repeat constructor; [discriminate|exact Ec].
      * inversion IH as [|? ? [Hw1 Hw2] Hws]; subst.
        constructor; [|exact Hws]. split; [discriminate|]. now constructor.
Qed.

Lemma split_nil_iff (s : Text) :
  split s = [] <-> Forall (fun c => isspace c = true) s.
Proof.
  induction s as [|c rest IH]; [split; [constructor|reflexivity]|].
  destruct (isspace c) eqn:Ec.
  - rewrite (split_space c rest Ec), IH. split.
    + intros H. now constructor.
    + intros H. now inversion H.
  - split.
    + intros H. exfalso. exact (split_nonspace_nonempty c rest Ec H).
    + intros H. inversion H; congruence.
Qed.

(** Splitting a word followed by nothing or by whitespace. *)
Lemma split_app_word (w t : Text) :
  word w ->
  match t with c :: _ => isspace c = true | [] => True end ->
  split (w ++ t) = w :: split t.
Proof.
  intros [Hne Hw] Ht. induction w as [|c w IH]; [congruence|].
  inversion Hw as [|? ? Hc Hw']; subst.
  destruct w as [|c2 w'].
  - cbn [app split]. rewrite Hc.
    destruct t as [|c' r]; [reflexivity|]. now rewrite Ht.
  - change ((c :: c2 :: w') ++ t) with (c :: ((c2 :: w') ++ t)).
    rewrite split_cons, Hc.
    rewrite IH by (discriminate || assumption).
    inversion Hw' as [|? ? Hc2 _]; subst. cbn [app]. now rewrite Hc2.
Qed.

Lemma space_isspace : isspace " " = true.
Proof. reflexivity. Qed.

(** Joining words with one space and splitting again gives the words
    back. *)
Lemma split_join (ws : list Text) :
  Forall word ws -> split (join [" "%char] ws) = ws.
Proof.
  induction 1 as [|w ws Hw Hws IH]; [reflexivity|].
  destruct ws as [|w2 ws'].
  - cbn [join]. rewrite <- (app_nil_r w) at 1.
    now rewrite (split_app_word w [] Hw I).
  - change (join [" "%char] (w :: w2 :: ws'))
      with (w ++ " "%char :: join [" "%char] (w2 :: ws')).
    rewrite (split_app_word w (" "%char :: join [" "%char] (w2 :: ws')) Hw space_isspace).
    rewrite (split_space _ _ space_isspace). now rewrite IH.
Qed.

Lemma join_starts_nonspace (ws : list Text) :
  Forall word ws -> starts_nonspace (join [" "%char] ws).
Proof.
  intros H. destruct H as [|w ws [Hne Hw] Hws]; [exact I|].
  destruct w as [|c w]; [congruence|].
  inversion Hw; subst.
  destruct ws; cbn; assumption.
Qed.

Lemma join_cons_head (w : Text) (ws : list Text) :
  Forall word (w :: ws) ->
  exists c r, join [" "%char] (w :: ws) = c :: r /\ isspace c = false.
Proof.
  intros H. inversion H as [|? ? [Hne Hw] _]; subst.
  destruct w as [|c w']; [congruence|]. inversion Hw; subst.
  destruct ws; cbn [join app]; eauto.
Qed.

(** In a joined text every whitespace character is a space, is not the
    first character, and is followed by a non-whitespace character. *)
Lemma join_single_spaced (ws : list Text) :
  Forall word ws ->
  forall (i : nat) (c : ascii),
    join [" "%char] ws !! i = Some c -> isspace c = true ->
    c = " "%char /\ (0 < i)%nat /\
    exists c', join [" "%char] ws !! S i = Some c' /\ isspace c' = false.
Proof.
  induction 1 as [|w ws Hw Hws IH]; intros i c Hi Hc; [discriminate|].
  assert (Hww : forall j x, w !! j = Some x -> isspace x = false).
  { intros j x Hj. destruct Hw as [_ Hw]. rewrite Forall_forall in Hw.
    apply Hw. eapply list_elem_of_lookup_2. exact Hj. }
  destruct ws as [|w2 ws'].
  - cbn [join] in Hi. rewrite (Hww i c Hi) in Hc. discriminate.
  - change (join [" "%char] (w :: w2 :: ws'))
      with (w ++ " "%char :: join [" "%char] (w2 :: ws')) in Hi |- *.
    destruct (join_cons_head w2 ws' Hws) as (c0 & r & Etl & Hc0).
    remember (join [" "%char] (w2 :: ws')) as tl eqn:Htl.
    destruct (decide (i < length w)%nat) as [Hlt|Hge].
    + rewrite lookup_app_l in Hi by exact Hlt.
      rewrite (Hww i c Hi) in Hc. discriminate.
    + rewrite lookup_app_r in Hi by lia.
      destruct (i - length w)%nat as [|k] eqn:Ek.
      * cbn in Hi. injection Hi as <-.
        assert (Hwlen : (0 < length w)%nat).
        { destruct Hw as [Hne _]. destruct w; [congruence|cbn; lia]. }
        split; [reflexivity|]. split; [lia|].
        exists c0. split; [|exact Hc0].
        rewrite lookup_app_r by lia.
        replace (S i - length w)%nat with 1%nat by lia.
        cbn. now rewrite Etl.
      * cbn in Hi. destruct (IH k c Hi Hc) as (-> & Hk & c' & Hc' & Hs').
        split; [reflexivity|]. split; [lia|].
        exists c'. split; [|exact Hs'].
        rewrite lookup_app_r by lia.
        replace (S i - length w)%nat with (S (S k)) by lia.
        exact Hc'.
Qed.

Lemma join_nil_iff (ws : list Text) :
  Forall word ws -> (join [" "%char] ws = [] <-> ws = []).
Proof.
  intros H. split; [|now intros ->].
  destruct H as [|w ws [Hne _] _]; [reflexivity|].
  destruct w; [congruence|]. destruct ws; discriminate.
Qed.

(** [rfind] returns -1 or an index of the text. *)
Lemma rfind_range (c : ascii) (s : Text) :
  -1 <= rfind c s < Z.of_nat (length s).
Proof.
  induction s as [|x rest IH]; [cbn; lia|].
  cbn [rfind length]. destruct (Z.leb_spec 0 (rfind c rest)); [lia|].
  destruct (Ascii.eqb x c); lia.
Qed.

(** A non-negative result is a position of the character... *)
Lemma rfind_lookup (c : ascii) (s : Text) :
  0 <= rfind c s -> s !! Z.to_nat (rfind c s) = Some c.
Proof.
  induction s as [|x rest IH]; [cbn; lia|].
  cbn [rfind]. destruct (Z.leb_spec 0 (rfind c rest)) as [H|H].
  - intros _. replace (Z.to_nat (rfind c rest + 1)) with (S (Z.to_nat (rfind c rest))) by lia.
    cbn. now apply IH.
  - destruct (Ascii.eqb_spec x c) as [->|]; [reflexivity|lia].
Qed.

(** ... and no later position holds the character. *)
Lemma rfind_last (c : ascii) (s : Text) (j : nat) :
  rfind c s < Z.of_nat j -> s !! j <> Some c.
Proof.
  revert j. induction s as [|x rest IH]; intros j; [discriminate|].
  cbn [rfind]. destruct (Z.leb_spec 0 (rfind c rest)) as [H|H].
  - intros Hj. destruct j as [|j]; [lia|]. cbn. apply IH. lia.
  - destruct j as [|j].
    + destruct (Ascii.eqb_spec x c) as [->|Hne]; [lia|].
      intros _. cbn. congruence.
    + intros _. cbn. apply IH. lia.
Qed.

Lemma rfind_absent (c : ascii) (s : Text) : rfind c s < 0 -> c ∉ s.
Proof.
  intros H Hin. apply list_elem_of_lookup in Hin as [j Hj].
  apply (rfind_last c s j); [lia|exact Hj].
Qed.

Lemma lstrip_id (s : Text) : starts_nonspace s -> lstrip s = s.
Proof. destruct s as [|c r]; [reflexivity|]. cbn. now intros ->. Qed.

(** [strip] changes nothing in a text that neither starts nor ends with
    whitespace. *)
Lemma strip_id (s : Text) :
  starts_nonspace s ->
  (forall c, last s = Some c -> isspace c = false) ->
  strip s = s.
Proof.
  intros Hs Hl. unfold strip. rewrite (lstrip_id s Hs).
  rewrite lstrip_id; [apply rev_involutive|].
  destruct s as [|x r] using rev_ind; [exact I|].
  rewrite rev_app_distr. cbn. apply Hl. now rewrite last_snoc.
Qed.

Lemma endswith_any_true (cs : list ascii) (s : Text) :
  endswith_any cs s = true <-> exists c, last s = Some c /\ c ∈ cs.
Proof.
  unfold endswith_any. destruct (last s) as [c|].
  - rewrite bool_decide_eq_true. split; [eauto|]. now intros (c' & [= <-] & H).
  - split; [discriminate|]. now intros (c & H & _).
Qed.


End PyStr.

(** ** The language description agent *)

Module LanguageAgent.
Import PyStr.

(** *** Cache key *)

(** The keys of a detection that the cache key reads; a missing key is
    [None]. *)
Record BBox : Type := mkBBox {
  x_center : option Q;
  y_center : option Q
}.

Record Detection : Type := mkDetection {
  name : option string;
  bbox : option BBox
}.

(** An entry of the list [normalized]. *)
Record Normalized : Type := mkNormalized {
  n_name : string;
  n_x_center : Z;
  n_y_center : Z
}.

(** [round(x)] with one argument: the nearest integer, a tie going to the
    even neighbour. *)
Definition py_round (x : Q) : Z :=
  let f := Qfloor x in
  match ((x - inject_Z f) ?= (1 # 2))%Q with
  | Lt => f
  | Gt => f + 1
  | Eq => if Z.even f then f else f + 1
  end.

(** [det.get('bbox', {}).get(key, 0)] *)
Definition bbox_get (det : Detection) (key : BBox -> option Q) : Q :=
  match bbox det with
  | Some b => default 0%Q (key b)
  | None => 0%Q
  end.

(** The dictionary appended to [normalized] for one detection. *)
Definition normalize (det : Detection) : Normalized :=
  {| n_name := default ""%string (name det);
     n_x_center := py_round (bbox_get det x_center / 100);
     n_y_center := py_round (bbox_get det y_center / 100) |}.

(** Comparison of the sort keys [(x['name'], x['x_center'], x['y_center'])]:
    tuples compare component by component, strings by code point. *)
Definition key_compare (a b : Normalized) : comparison :=
  match String.compare (n_name a) (n_name b) with
  | Eq =>
      match n_x_center a ?= n_x_center b with
      | Eq => n_y_center a ?= n_y_center b
      | c => c
      end
  | c => c
  end.

Definition key_le (a b : Normalized) : Prop := key_compare a b <> Gt.

#[export] Instance key_le_dec (a b : Normalized) : Decision (key_le a b).
Proof. unfold key_le. destruct (key_compare a b); [left|left|right]; congruence. Defined.

Section Hash.
(** [json.dumps(_, sort_keys=True)] on the normalized list, and
    [hashlib.md5(_.encode()).hexdigest()], both library functions. *)
Variable json_dumps : list Normalized -> string.
Variable md5_hexdigest : string -> string.

(** [_create_hash_from_detections(detections)].  [normalized.sort(key=...)]
    arranges the list in ascending key order. *)
Definition _create_hash_from_detections (detections : list Detection) : string :=
  let normalized := map normalize detections in
  let normalized := merge_sort key_le normalized in
  let detections_str := json_dumps normalized in
  md5_hexdigest detections_str.

End Hash.

(** A plain serializer and a transparent digest, to run the key on
    examples. *)
Definition show_normalized (l : list Normalized) : string :=
  String.concat ";"
    (map (fun n => n_name n +:+ "@" +:+ pretty (n_x_center n)
                     +:+ "," +:+ pretty (n_y_center n)) l).

Definition chair_at (x y : Q) : Detection :=
  {| name := Some "chair"%string;
     bbox := Some {| x_center := Some x; y_center := Some y |} |}.

Definition table_at (x y : Q) : Detection :=
  {| name := Some "table"%string;
     bbox := Some {| x_center := Some x; y_center := Some y |} |}.

(** *** Cleaning the generated text *)

Definition sentence_end : list ascii := ["."; "!"; "?"]%char.

(** [last_punctuation > MAX_DESCRIPTION_LENGTH * 0.7]: the product is the
    double the code computes, and the integer is compared with its
    value. *)
Definition near_limit (MAX last_punctuation : Z) : bool :=
  PyFloat.lt_num (PyFloat.int_mul MAX PyFloat.lit_0_7) (inject_Z last_punctuation).

(** [_clean_description(description)], with [MAX] the configured
    [MAX_DESCRIPTION_LENGTH]. *)
Definition _clean_description (MAX : Z) (description : Text) : Text :=
  let description := join [" "%char] (split description) in
  let description :=
    if MAX <? Z.of_nat (length description) then
      let truncated := slice_to MAX description in
      let last_period := rfind "." truncated in
      let last_exclamation := rfind "!" truncated in
      let last_question := rfind "?" truncated in
      let last_punctuation :=
        Z.max (Z.max last_period last_exclamation) last_question in
      if near_limit MAX last_punctuation then
        slice_to (last_punctuation + 1) description
      else
        hd [] (rsplit1 " " truncated) ++ ["."%char]
    else description in
  let description :=
    if negb (bool_decide (description = []))
       && negb (endswith_any sentence_end description)
    then description ++ ["."%char]
    else description in
  strip description.

(** [MAX_DESCRIPTION_LENGTH] when the environment sets nothing. *)
Definition MAX_DESCRIPTION_LENGTH_default : Z := 500.

(** The text after whitespace has been collapsed. *)
Definition collapse (description : Text) : Text :=
  join [" "%char] (split description).

(** The last two steps of [_clean_description]. *)
Definition ensure_end (description : Text) : Text :=
  strip (if negb (bool_decide (description = []))
            && negb (endswith_any sentence_end description)
         then description ++ ["."%char]
         else description).

(** [i] is the last position of [s] whose character satisfies [P]. *)
Definition last_index_of (P : ascii -> Prop) (s : Text) (i : nat) : Prop :=
  (exists c, s !! i = Some c /\ P c) /\
  (forall j c, (i < j)%nat -> s !! j = Some c -> ~ P c).

Definition ends_sentence (s : Text) : Prop :=
  exists c, last s = Some c /\ c ∈ sentence_end.

(** *** Generating a description *)

(** How the call of the language model ends: with the dictionary's
    ['response'] entry ([None]: the key is missing), with
    [requests.exceptions.ConnectionError], or with another exception. *)
Inductive model_answer : Type :=
| Answer (response : option string)
| ConnectionError
| OtherError.

(** [self.db_manager]: [None], or the manager with its backend flag and
    the cache table. *)
Abbreviation Db := (option (bool * DatabaseManager.Table)).

Section Generation.
Variable json_dumps : list Normalized -> string.
Variable md5_hexdigest : string -> string.
(** [format_spatial_description], the formatter of the fallback. *)
Variable format_spatial_description : list Detection -> string.
(** [CACHE_DESCRIPTIONS] and [MAX_DESCRIPTION_LENGTH]. *)
Variable CACHE_DESCRIPTIONS : bool.
Variable MAX : Z.

(** [_generate_simple_description(detections)] *)
Definition _generate_simple_description (detections : list Detection) : string :=
  format_spatial_description detections.

(** The part of [generate_description] after the cache has been asked:
    the fixed sentence, the fallback, or the model's text, cleaned and
    cached. *)
Definition generate_uncached (db1 : Db) (now : Q) (client : option model_answer)
    (detections : list Detection) (caching : bool) (hash_detections : string)
    : Db * string :=
  match detections with
  | [] => (db1, "No se detectaron objetos en el entorno cercano."%string)
  | _ =>
      match client with
      | None => (db1, _generate_simple_description detections)
      | Some (Answer response) =>
          let description :=
            string_of_list_ascii
              (_clean_description MAX (strip (text (default ""%string response)))) in
          match db1 with
          | Some (backend, tbl1) =>
              if caching then
                (Some (backend,
                       fst (DatabaseManager.cache_description backend now
                              hash_detections description tbl1)),
                 description)
              else (db1, description)
          | None => (db1, description)
          end
      | Some ConnectionError => (db1, _generate_simple_description detections)
      | Some OtherError => (db1, _generate_simple_description detections)
      end
  end.

(** [generate_description(detections, detailed, use_cache)] at clock value
    [now].  [client] is [self.client] together with the answer the model
    would give: [None] when the client failed to initialise.  An empty
    cached text is, as [if cached:] has it, no text. *)
Definition generate_description (db : Db) (now : Q) (client : option model_answer)
    (detections : list Detection) (detailed use_cache : bool) : Db * string :=
  let hash_detections := _create_hash_from_detections json_dumps md5_hexdigest detections in
  let caching := use_cache && CACHE_DESCRIPTIONS in
  let '(db1, cached) :=
    match db with
    | Some (backend, tbl) =>
        if caching then
          let '(tbl1, r) :=
            DatabaseManager.get_cached_description backend now hash_detections tbl in
          (Some (backend, tbl1), r)
        else (db, None)
    | None => (db, None)
    end in
  match cached with
  | Some text0 =>
      if negb (text0 =? "")%string then (db1, text0)
      else generate_uncached db1 now client detections caching hash_detections
  | None => generate_uncached db1 now client detections caching hash_detections
  end.

End Generation.

(** The only whitespace of [s] is single spaces between other characters:
    every whitespace character is a space, is not the first character and
    is followed by a non-whitespace character. *)
Definition single_spaced (s : Text) : Prop :=
  forall (i : nat) (c : ascii),
    s !! i = Some c -> isspace c = true ->
    c = " "%char /\ (0 < i)%nat /\
    exists c', s !! S i = Some c' /\ isspace c' = false.

(** *** Facts about the cache key *)

Lemma ascii_compare_lt (a b : ascii) :
  (a ?= b)%char = Lt <-> (N_of_ascii a < N_of_ascii b)%N.
Proof. unfold Ascii.compare. now rewrite N.compare_lt_iff. Qed.

Lemma ascii_compare_eq (a b : ascii) : (a ?= b)%char = Eq <-> a = b.
Proof.
  split; [apply Ascii.compare_eq_iff|].
  intros ->. unfold Ascii.compare. apply N.compare_refl.
Qed.

Lemma string_compare_refl (s : string) : (s ?= s)%string = Eq.
Proof.
  induction s as [|c s IH]; [reflexivity|].
  cbn. now rewrite (proj2 (ascii_compare_eq c c) eq_refl).
Qed.

Lemma string_compare_lt_trans (s1 s2 s3 : string) :
  (s1 ?= s2)%string = Lt -> (s2 ?= s3)%string = Lt -> (s1 ?= s3)%string = Lt.
Proof.
  revert s2 s3. induction s1 as [|c1 s1 IH]; intros [|c2 s2] [|c3 s3];
    cbn; try discriminate; try reflexivity.
  destruct (c1 ?= c2)%char eqn:E12; try discriminate;
  destruct (c2 ?= c3)%char eqn:E23; try discriminate.
  - apply ascii_compare_eq in E12, E23. subst c2 c3.
    rewrite (proj2 (ascii_compare_eq c1 c1) eq_refl). apply IH.
  - apply ascii_compare_eq in E12. subst c2. now rewrite E23.
  - apply ascii_compare_eq in E23. subst c3. now rewrite E12.
  - apply ascii_compare_lt in E12, E23.
    assert (E13 : (c1 ?= c3)%char = Lt)
      by (apply ascii_compare_lt; exact (N.lt_trans _ _ _ E12 E23)).
    now rewrite E13.
Qed.

Lemma key_compare_antisym (a b : Normalized) :
  key_compare a b = CompOpp (key_compare b a).
Proof.
  unfold key_compare.
  rewrite (String.compare_antisym (n_name a) (n_name b)).
  rewrite (Z.compare_antisym (n_x_center b) (n_x_center a)).
  rewrite (Z.compare_antisym (n_y_center b) (n_y_center a)).
  destruct (n_name b ?= n_name a)%string; cbn; try reflexivity.
  destruct (n_x_center b ?= n_x_center a); reflexivity.
Qed.

Lemma key_compare_eq (a b : Normalized) : key_compare a b = Eq -> a = b.
Proof.
  unfold key_compare. destruct a as [na xa ya], b as [nb xb yb]. cbn.
  destruct (na ?= nb)%string eqn:En; try discriminate.
  destruct (xa ?= xb) eqn:Ex; try discriminate.
  intros Ey. apply String.compare_eq_iff in En.
  apply Z.compare_eq in Ex, Ey. now subst.
Qed.

#[export] Instance key_le_total : Total key_le.
Proof.
  intros a b. unfold key_le. rewrite (key_compare_antisym b a).
  destruct (key_compare a b); cbn; [left|left|right]; congruence.
Qed.

#[export] Instance key_le_antisym : AntiSymm eq key_le.
Proof.
  intros a b Hab Hba. unfold key_le in *.
  rewrite (key_compare_antisym b a) in Hba.
  apply key_compare_eq.
  destruct (key_compare a b); cbn in *; congruence.
Qed.

Lemma zpair_compare_trans (xa ya xb yb xc yc : Z) :
  match xa ?= xb with Eq => ya ?= yb | c => c end <> Gt ->
  match xb ?= xc with Eq => yb ?= yc | c => c end <> Gt ->
  match xa ?= xc with Eq => ya ?= yc | c => c end <> Gt.
Proof.
  destruct (Z.compare_spec xa xb), (Z.compare_spec xb xc), (Z.compare_spec xa xc),
    (Z.compare_spec ya yb), (Z.compare_spec yb yc), (Z.compare_spec ya yc);
    intros; try congruence; exfalso; lia.
Qed.

#[export] Instance key_le_trans : Transitive key_le.
Proof.
  intros [na xa ya] [nb xb yb] [nc xc yc]. unfold key_le, key_compare. cbn.
  destruct (na ?= nb)%string eqn:Eab; [| |congruence];
  destruct (nb ?= nc)%string eqn:Ebc; try congruence.
  - apply String.compare_eq_iff in Eab, Ebc. subst nb nc.
    rewrite string_compare_refl. apply zpair_compare_trans.
  - apply String.compare_eq_iff in Eab. subst nb. now rewrite Ebc.
  - apply String.compare_eq_iff in Ebc. subst nc. now rewrite Eab.
  - now rewrite (string_compare_lt_trans na nb nc Eab Ebc).
Qed.

(** The sorted arrangement depends on the entries only, not on their
    order. *)
Lemma merge_sort_key_le_perm (l1 l2 : list Normalized) :
  l1 ≡ₚ l2 -> merge_sort key_le l1 = merge_sort key_le l2.
Proof.
  intros Hp. apply (Sorted_unique key_le).
  - apply Sorted_merge_sort, _.
  - apply Sorted_merge_sort, _.
  - now rewrite !merge_sort_Permutation.
Qed.

(** C7.  Two detection lists whose entries have the same names and the
    same quantized centers, in any order, get the same cache key. *)
Theorem create_hash_order_independent
    (json_dumps : list Normalized -> string) (md5_hexdigest : string -> string)
    (l1 l2 : list Detection) :
  map normalize l1 ≡ₚ map normalize l2 ->
  _create_hash_from_detections json_dumps md5_hexdigest l1
  = _create_hash_from_detections json_dumps md5_hexdigest l2.
Proof.
  intros Hp. unfold _create_hash_from_detections.
  now rewrite (merge_sort_key_le_perm _ _ Hp).
Qed.

Lemma create_hash_order_independent_witness :
  _create_hash_from_detections show_normalized (fun s => s)
    [table_at 430 80; chair_at 120 250]
  = _create_hash_from_detections show_normalized (fun s => s)
    [chair_at 80 249; table_at (4335 # 10) 99].
Proof.
  apply create_hash_order_independent.
  vm_compute. apply perm_swap.
Defined.

(** *** Facts about the cleaning *)

Lemma last_index_of_unique (P : ascii -> Prop) (s : Text) (i j : nat) :
  last_index_of P s i -> last_index_of P s j -> i = j.
Proof.
  intros [(ci & Hi & Pi) Li] [(cj & Hj & Pj) Lj].
  destruct (Nat.lt_trichotomy i j) as [H|[H|H]]; [|exact H|].
  - exfalso. exact (Li j cj H Hj Pj).
  - exfalso. exact (Lj i ci H Hi Pi).
Qed.

Lemma sentence_end_nonspace (c : ascii) : c ∈ sentence_end -> isspace c = false.
Proof.
  unfold sentence_end. rewrite !elem_of_cons, elem_of_nil.
  intros [-> | [-> | [-> | []]]]; reflexivity.
Qed.

Lemma elem_of_sentence_end (c : ascii) :
  c ∈ sentence_end <-> c = "."%char \/ c = "!"%char \/ c = "?"%char.
Proof.
  unfold sentence_end. rewrite !elem_of_cons, elem_of_nil. tauto.
Qed.

(** The maximum of the three searches is the last sentence end, if any. *)
Lemma last_punctuation_spec (s : Text) :
  let lp := Z.max (Z.max (rfind "." s) (rfind "!" s)) (rfind "?" s) in
  -1 <= lp < Z.of_nat (length s) /\
  (0 <= lp -> last_index_of (fun c => c ∈ sentence_end) s (Z.to_nat lp)) /\
  (lp < 0 -> forall j c, s !! j = Some c -> c ∉ sentence_end).
Proof.
  intros lp.
  pose proof (rfind_range "." s) as R1.
  pose proof (rfind_range "!" s) as R2.
  pose proof (rfind_range "?" s) as R3.
  assert (Hlate : forall j c, lp < Z.of_nat j -> s !! j = Some c -> c ∉ sentence_end).
  { intros j c Hj Hc Hin. apply elem_of_sentence_end in Hin.
    destruct Hin as [-> | [-> | ->]].
    - apply (rfind_last "." s j); [lia|exact Hc].
    - apply (rfind_last "!" s j); [lia|exact Hc].
    - apply (rfind_last "?" s j); [lia|exact Hc]. }
  split; [lia|]. split.
  - intros Hlp. split.
    + assert (Hcase : lp = rfind "." s \/ lp = rfind "!" s \/ lp = rfind "?" s) by lia.
      destruct Hcase as [E|[E|E]]; rewrite E in Hlp |- *.
      * exists "."%char. split; [now apply rfind_lookup|]. apply elem_of_sentence_end; auto.
      * exists "!"%char. split; [now apply rfind_lookup|]. apply elem_of_sentence_end; auto.
      * exists "?"%char. split; [now apply rfind_lookup|]. apply elem_of_sentence_end; auto.
    + intros j c Hj. apply Hlate. lia.
  - intros Hlp j c. apply Hlate. lia.
Qed.

Lemma slice_to_nonneg (n : Z) (s : Text) :
  0 <= n -> slice_to n s = take (Z.to_nat n) s.
Proof. intros H. unfold slice_to. destruct (Z.ltb_spec n 0); [lia|reflexivity]. Qed.

Lemma collapse_words (raw : Text) : split (collapse raw) = split raw.
Proof. apply split_join, split_words. Qed.

Lemma collapse_starts_nonspace (raw : Text) : starts_nonspace (collapse raw).
Proof. apply join_starts_nonspace, split_words. Qed.

Lemma collapse_last_nonspace (raw : Text) (c : ascii) :
  last (collapse raw) = Some c -> isspace c = false.
Proof.
  intros Hl. destruct (isspace c) eqn:Ec; [exfalso|reflexivity].
  rewrite last_lookup in Hl.
  destruct (join_single_spaced (split raw) (split_words raw) _ c Hl Ec)
    as (_ & Hpos & c' & Hc' & _).
  apply lookup_lt_Some in Hc'. fold (collapse raw) in Hc'.
  destruct (length (collapse raw)); cbn in *; lia.
Qed.

Lemma collapse_nil_iff (raw : Text) :
  collapse raw = [] <-> Forall (fun c => isspace c = true) raw.
Proof.
  unfold collapse. rewrite (join_nil_iff _ (split_words raw)).
  apply split_nil_iff.
Qed.

Lemma starts_nonspace_take (n : nat) (s : Text) :
  starts_nonspace s -> starts_nonspace (take n s).
Proof. destruct s, n; cbn; auto. Qed.

Lemma starts_nonspace_app (s t : Text) :
  starts_nonspace s -> starts_nonspace t -> starts_nonspace (s ++ t).
Proof. destruct s; cbn; auto. Qed.

(** A text that already ends a sentence passes the last two steps
    unchanged. *)
Lemma ensure_end_sentence (s : Text) :
  starts_nonspace s -> ends_sentence s -> ensure_end s = s.
Proof.
  intros Hs He. unfold ensure_end.
  rewrite (proj2 (endswith_any_true sentence_end s) He).
  rewrite andb_false_r. apply strip_id; [exact Hs|].
  intros c Hc. destruct He as (c' & Hc' & Hin).
  rewrite Hc in Hc'. injection Hc' as <-. now apply sentence_end_nonspace.
Qed.

Lemma ensure_end_nil : ensure_end [] = [].
Proof. reflexivity. Qed.

(** A non-empty text that does not end a sentence gets a period. *)
Lemma ensure_end_append (s : Text) :
  starts_nonspace s -> s <> [] -> ~ ends_sentence s ->
  ensure_end s = s ++ ["."%char].
Proof.
  intros Hs Hne He. unfold ensure_end.
  rewrite bool_decide_eq_false_2 by exact Hne.
  destruct (endswith_any sentence_end s) eqn:E.
  - exfalso. apply He. now apply endswith_any_true.
  - cbn [negb andb]. apply strip_id.
    + apply starts_nonspace_app; [exact Hs|reflexivity].
    + intros c. rewrite last_snoc. now intros [= <-].
Qed.

Lemma ends_sentence_snoc_period (s : Text) : ends_sentence (s ++ ["."%char]).
Proof.
  exists "."%char. split; [apply last_snoc|]. apply elem_of_sentence_end; auto.
Qed.

(** With a limit that is not negative, only a position past the start of
    the text is near the limit: the value [-1] of a failed search is
    not. *)
Lemma near_limit_positive (MAX lp : Z) :
  0 <= MAX -> near_limit MAX lp = true -> 0 < lp.
Proof.
  intros H0 H. unfold near_limit in H.
  apply PyFloat.lt_num_not_negative in H.
  - rewrite Zlt_Qlt. exact H.
  - apply PyFloat.mul_not_negative; [now apply PyFloat.of_int_not_negative|reflexivity].
Qed.

(** With the default limit of 500 the product is exactly 350. *)
Lemma near_limit_default (lp : Z) :
  near_limit MAX_DESCRIPTION_LENGTH_default lp = (350 <? lp).
Proof.
  unfold near_limit.
  replace (PyFloat.int_mul MAX_DESCRIPTION_LENGTH_default PyFloat.lit_0_7)
    with (S754_finite false 6157265115545600 (-44)) by (vm_compute; reflexivity).
  cbn [PyFloat.lt_num].
  assert (E : (PyFloat.value 6157265115545600 (-44) == inject_Z 350)%Q)
    by (vm_compute; reflexivity).
  destruct (Z.ltb_spec 350 lp) as [H|H].
  - apply QCmp.Qltb_lt. rewrite E. now rewrite <- Zlt_Qlt.
  - apply QCmp.Qltb_ge. rewrite E. now rewrite <- Zle_Qle.
Qed.

(** With a limit of 90 the product is the double just below 63: a mark at
    index 63, which is at 70% of the limit and not above, is near the
    limit. *)
Lemma near_limit_below_70_percent :
  PyFloat.int_mul 90 PyFloat.lit_0_7 = S754_finite false 8866461766385663 (-47) /\
  near_limit 90 63 = true /\ 10 * 63 = 7 * 90.
Proof. repeat split; vm_compute; reflexivity. Qed.

(** [_clean_description] by cases, with the last two steps resolved. *)
Lemma clean_description_unfold (MAX : Z) (raw : Text) :
  _clean_description MAX raw =
  let d := collapse raw in
  ensure_end
    (if MAX <? Z.of_nat (length d) then
       let truncated := slice_to MAX d in
       let lp := Z.max (Z.max (rfind "." truncated) (rfind "!" truncated))
                       (rfind "?" truncated) in
       if near_limit MAX lp then slice_to (lp + 1) d
       else hd [] (rsplit1 " " truncated) ++ ["."%char]
     else d).
Proof. reflexivity. Qed.

Lemma last_take_S (n : nat) (s : Text) :
  (n < length s)%nat -> last (take (S n) s) = s !! n.
Proof.
  intros H. rewrite last_lookup, length_take.
  replace (Init.Nat.pred (S n `min` length s)) with n by lia.
  apply lookup_take_lt. lia.
Qed.

Lemma rsplit1_head (c : ascii) (s : Text) :
  hd [] (rsplit1 c s)
  = if rfind c s <? 0 then s else take (Z.to_nat (rfind c s)) s.
Proof. unfold rsplit1. now destruct (rfind c s <? 0). Qed.

(** Within the limit only the last two steps act. *)
Lemma clean_description_within (MAX : Z) (raw : Text) :
  Z.of_nat (length (collapse raw)) <= MAX ->
  _clean_description MAX raw = ensure_end (collapse raw).
Proof.
  intros H. rewrite clean_description_unfold. cbn zeta.
  destruct (Z.ltb_spec MAX (Z.of_nat (length (collapse raw)))); [lia|reflexivity].
Qed.

(** Beyond the limit: the cut the code computes. *)
Lemma clean_description_beyond (MAX : Z) (raw : Text) :
  0 <= MAX ->
  MAX < Z.of_nat (length (collapse raw)) ->
  let d := collapse raw in
  let t := take (Z.to_nat MAX) d in
  let lp := Z.max (Z.max (rfind "." t) (rfind "!" t)) (rfind "?" t) in
  _clean_description MAX raw =
  if near_limit MAX lp then take (S (Z.to_nat lp)) d
  else (if rfind " " t <? 0 then t else take (Z.to_nat (rfind " " t)) d)
       ++ ["."%char].
Proof.
  intros H0 Hlen d t lp. rewrite clean_description_unfold. cbn zeta.
  fold d. change (MAX < Z.of_nat (length d)) in Hlen. destruct (Z.ltb_spec MAX (Z.of_nat (length d))) as [_|]; [|lia].
  rewrite (slice_to_nonneg MAX d H0). fold t. fold lp.
  pose proof (collapse_starts_nonspace raw) as Hs. fold d in Hs.
  destruct (last_punctuation_spec t) as (Hr & Hin & _). fold lp in Hr, Hin.
  assert (Hlt : (length t <= Z.to_nat MAX)%nat) by (subst t; rewrite length_take; lia).
  destruct (near_limit MAX lp) eqn:Hp.
  - assert (Hlp : 0 <= lp) by (pose proof (near_limit_positive MAX lp H0 Hp); lia).
    rewrite slice_to_nonneg by lia.
    replace (Z.to_nat (lp + 1)) with (S (Z.to_nat lp)) by lia.
    apply ensure_end_sentence; [now apply starts_nonspace_take|].
    destruct (Hin Hlp) as [(c & Hc & Hcin) _].
    exists c. split; [|exact Hcin].
    rewrite last_take_S by lia.
    rewrite <- Hc. subst t. symmetry. apply lookup_take_lt. lia.
  - rewrite rsplit1_head.
    pose proof (rfind_range " " t) as Hsp.
    assert (Ecut : (if rfind " " t <? 0 then t else take (Z.to_nat (rfind " " t)) t)
                 = (if rfind " " t <? 0 then t else take (Z.to_nat (rfind " " t)) d)).
    { destruct (rfind " " t <? 0); [reflexivity|].
      subst t. rewrite take_take. f_equal. lia. }
    rewrite Ecut.
    apply ensure_end_sentence; [|apply ends_sentence_snoc_period].
    apply starts_nonspace_app; [|reflexivity].
    destruct (rfind " " t <? 0); subst t; now apply starts_nonspace_take.
Qed.

(** The cleaned text is empty exactly when the collapsed text is, and
    otherwise ends a sentence. *)
Lemma clean_description_end (MAX : Z) (raw : Text) :
  0 <= MAX ->
  (collapse raw = [] /\ _clean_description MAX raw = []) \/
  (collapse raw <> [] /\ _clean_description MAX raw <> [] /\
   ends_sentence (_clean_description MAX raw)).
Proof.
  intros H0.
  pose proof (collapse_starts_nonspace raw) as Hs.
  destruct (Z.ltb_spec MAX (Z.of_nat (length (collapse raw)))) as [Hlen|Hlen].
  - right. split; [destruct (collapse raw); [cbn in Hlen; lia|discriminate]|].
    rewrite (clean_description_beyond MAX raw H0 Hlen). cbn zeta.
    set (t := take (Z.to_nat MAX) (collapse raw)).
    set (lp := Z.max (Z.max (rfind "." t) (rfind "!" t)) (rfind "?" t)).
    destruct (last_punctuation_spec t) as (Hr & Hin & _). fold lp in Hr, Hin.
    assert (Hlt : (length t <= Z.to_nat MAX)%nat) by (subst t; rewrite length_take; lia).
    destruct (near_limit MAX lp) eqn:Hp.
    + assert (Hlp : 0 <= lp) by (pose proof (near_limit_positive MAX lp H0 Hp); lia).
      destruct (Hin Hlp) as [(c & Hc & Hcin) _].
      assert (Hl : last (take (S (Z.to_nat lp)) (collapse raw)) = Some c).
      { rewrite last_take_S by lia. rewrite <- Hc. subst t.
        symmetry. apply lookup_take_lt. lia. }
      split; [|now exists c].
      intros E. rewrite E in Hl. discriminate.
    + split; [|apply ends_sentence_snoc_period].
      intros E. now apply app_eq_nil in E as [_ E].
  - rewrite (clean_description_within MAX raw Hlen).
    destruct (collapse raw) as [|c r] eqn:Ed; [left; split; reflexivity|right].
    split; [discriminate|].
    destruct (endswith_any sentence_end (c :: r)) eqn:Ee.
    + apply endswith_any_true in Ee.
      rewrite (ensure_end_sentence _ Hs Ee). split; [discriminate|exact Ee].
    + rewrite ensure_end_append; [| exact Hs | discriminate |].
      * split; [|apply ends_sentence_snoc_period].
        intros E. now apply app_eq_nil in E as [_ E].
      * intros He. apply endswith_any_true in He. congruence.
Qed.

(** C8, as stated, fails: a raw text without any non-whitespace character
    is cleaned to the empty text, which does not end with '.', '!' or '?';
    no period is appended to it. *)
Lemma clean_description_empty_no_period :
  _clean_description MAX_DESCRIPTION_LENGTH_default (text "") = [] /\
  _clean_description MAX_DESCRIPTION_LENGTH_default
    [" "; "010"; "009"; " "]%char = [] /\
  ~ ends_sentence (_clean_description MAX_DESCRIPTION_LENGTH_default (text "")).
Proof.
  split; [reflexivity|]. split; [reflexivity|].
  intros (c & Hc & _). discriminate Hc.
Qed.

(** C8 (amended).  For a non-negative length limit [MAX] and every raw
    text, with [d] the text after collapsing:
    - collapsing keeps the words and leaves, as only whitespace, single
      spaces between them: every whitespace character of [d] is a space,
      is not the first character and is followed by a non-whitespace
      character;
    - within the limit the result is [d], with a period appended when [d]
      is non-empty and does not end with '.', '!' or '?';
    - beyond the limit, when the last '.', '!' or '?' among the first [MAX]
      characters sits at an index above the double [MAX * 0.7]
      ([near_limit]), the result is [d] cut right after it; otherwise the
      result is the part of [d] before the last space among the first
      [MAX] characters (all [MAX] characters when there is no space), with
      a period appended;
    - the result is empty exactly when the raw text has no non-whitespace
      character, and a non-empty result ends with '.', '!' or '?';
    - with the default limit of 500 an index is above [MAX * 0.7] exactly
      when it is above 350. *)
Theorem clean_description_spec (MAX : Z) (raw : Text) :
  0 <= MAX ->
  let d := collapse raw in
  let out := _clean_description MAX raw in
  let first_MAX := take (Z.to_nat MAX) d in
  (split d = split raw /\
   forall (i : nat) (c : ascii),
     d !! i = Some c -> isspace c = true ->
     c = " "%char /\ (0 < i)%nat /\
     exists c', d !! S i = Some c' /\ isspace c' = false) /\
  (Z.of_nat (length d) <= MAX ->
     (ends_sentence d -> out = d) /\
     (d <> [] -> ~ ends_sentence d -> out = d ++ ["."%char])) /\
  (MAX < Z.of_nat (length d) ->
     (forall i : nat,
        last_index_of (fun c => c ∈ sentence_end) first_MAX i ->
        near_limit MAX (Z.of_nat i) = true ->
        out = take (S i) d) /\
     ((forall i : nat,
         last_index_of (fun c => c ∈ sentence_end) first_MAX i ->
         near_limit MAX (Z.of_nat i) = false) ->
      (forall j : nat,
         last_index_of (fun c => c = " "%char) first_MAX j ->
         out = take j d ++ ["."%char]) /\
      (" "%char ∉ first_MAX -> out = first_MAX ++ ["."%char]))) /\
  (out = [] <-> Forall (fun c => isspace c = true) raw) /\
  (out <> [] -> ends_sentence out) /\
  (forall i : Z, near_limit MAX_DESCRIPTION_LENGTH_default i = true <-> 350 < i).
Proof.
  intros H0 d out first_MAX.
  pose proof (collapse_starts_nonspace raw) as Hs. fold d in Hs.
  split; [|split; [|split; [|split; [|split]]]].
  - split; [apply collapse_words|].
    apply join_single_spaced, split_words.
  - intros Hlen. subst out. rewrite (clean_description_within MAX raw Hlen).
    fold d. split.
    + now apply ensure_end_sentence.
    + now apply ensure_end_append.
  - intros Hlen. subst out.
    rewrite (clean_description_beyond MAX raw H0 Hlen). cbn zeta.
    fold d. fold first_MAX.
    set (lp := Z.max (Z.max (rfind "." first_MAX) (rfind "!" first_MAX))
                     (rfind "?" first_MAX)).
    destruct (last_punctuation_spec first_MAX) as (Hr & Hin & Hnone).
    fold lp in Hr, Hin, Hnone.
    split.
    + intros i Hi Hpast.
      assert (Hlp : 0 <= lp).
      { destruct (Z.le_gt_cases 0 lp) as [|Hneg]; [assumption|exfalso].
        destruct Hi as [(c & Hc & Hcin) _]. exact (Hnone Hneg i c Hc Hcin). }
      pose proof (last_index_of_unique _ _ _ _ Hi (Hin Hlp)) as ->.
      rewrite Z2Nat.id in Hpast by exact Hlp. now rewrite Hpast.
    + intros Hnear.
      assert (Hlow : near_limit MAX lp = false).
      { destruct (Z.le_gt_cases 0 lp) as [Hlp|Hneg].
        - pose proof (Hnear _ (Hin Hlp)) as Hn.
          now rewrite Z2Nat.id in Hn by exact Hlp.
        - destruct (near_limit MAX lp) eqn:E; [|reflexivity].
          pose proof (near_limit_positive MAX lp H0 E). lia. }
      rewrite Hlow.
      pose proof (rfind_range " " first_MAX) as Hsp.
      split.
      * intros j Hj.
        assert (Hfound : 0 <= rfind " " first_MAX).
        { destruct (Z.le_gt_cases 0 (rfind " " first_MAX)) as [|Hneg]; [assumption|].
          exfalso. destruct Hj as [(c & Hc & ->) _].
          apply (rfind_absent " " first_MAX Hneg).
          eapply list_elem_of_lookup_2. exact Hc. }
        assert (Hlast : last_index_of (fun c => c = " "%char) first_MAX
                          (Z.to_nat (rfind " " first_MAX))).
        { split.
          - exists " "%char. split; [now apply rfind_lookup|reflexivity].
          - intros k c Hk Hc ->. apply (rfind_last " " first_MAX k); [lia|exact Hc]. }
        rewrite (last_index_of_unique _ _ _ _ Hj Hlast).
        destruct (Z.ltb_spec (rfind " " first_MAX) 0); [lia|reflexivity].
      * intros Hno.
        destruct (Z.ltb_spec (rfind " " first_MAX) 0) as [|Hfound]; [reflexivity|].
        exfalso. apply Hno. eapply list_elem_of_lookup_2.
        apply rfind_lookup. exact Hfound.
  - subst out. rewrite <- collapse_nil_iff.
    destruct (clean_description_end MAX raw H0) as [[Hd Ho]|(Hd & Ho & _)].
    + rewrite Ho. tauto.
    + split; intros; contradiction.
  - intros Hne. subst out.
    destruct (clean_description_end MAX raw H0) as [[_ Ho]|(_ & _ & He)];
      [contradiction|exact He].
  - intros i. rewrite near_limit_default. apply Z.ltb_lt.
Qed.

(** Two examples with a limit of 20.  A text of 30 characters whose last
    period among the first 20 is at index 17, above [20 * 0.7 = 14], is cut
    right after that period; a text within the limit has its whitespace
    collapsed and a period appended. *)
Lemma clean_description_spec_witness :
  _clean_description 20 (text "Hay una mesa aqui. Y una silla")
    = text "Hay una mesa aqui." /\
  _clean_description 20 (text "Hola  mundo") = text "Hola mundo.".
Proof.
  pose proof (clean_description_spec 20 (text "Hay una mesa aqui. Y una silla")
                ltac:(lia)) as (_ & _ & Hcut & _).
  pose proof (clean_description_spec 20 (text "Hola  mundo") ltac:(lia))
    as (_ & Hin & _).
  cbv zeta in Hcut, Hin.
  assert (Ed : collapse (text "Hay una mesa aqui. Y una silla")
               = text "Hay una mesa aqui. Y una silla") by (vm_compute; reflexivity).
  assert (Eh : collapse (text "Hola  mundo") = text "Hola mundo")
    by (vm_compute; reflexivity).
  rewrite Ed in Hcut. rewrite Eh in Hin.
  split.
  - destruct Hcut as [Hcut _]; [vm_compute; reflexivity|].
    rewrite (Hcut 17%nat); [reflexivity| |vm_compute; reflexivity].
    split.
    + exists "."%char. split; [reflexivity|]. apply elem_of_sentence_end; auto.
    + intros j c Hj Hc Hin'. apply elem_of_sentence_end in Hin'.
      do 18 (destruct j as [|j]; [lia|]).
      destruct j as [|[|j]]; vm_compute in Hc; try discriminate;
        injection Hc as <-; destruct Hin' as [|[|]]; discriminate.
  - destruct Hin as [_ Happ]; [vm_compute; discriminate|].
    rewrite Happ; [reflexivity|discriminate|].
    intros (c & Hc & Hcin). vm_compute in Hc. injection Hc as <-.
    apply elem_of_sentence_end in Hcin. destruct Hcin as [|[|]]; discriminate.
Defined.

(** A limit of 90 and a text whose only period is at index 63: the double
    [90 * 0.7] is below 63, so the text is cut right after the period. *)
Lemma clean_description_mark_at_70_percent :
  _clean_description 90
    (repeat "w"%char 63 ++ text ". " ++ repeat "x"%char 40)
  = repeat "w"%char 63 ++ text ".".
Proof. vm_compute. reflexivity. Qed.

(** *** Length and shape of the cleaned text *)

Lemma ensure_end_cases (s : Text) :
  starts_nonspace s ->
  ensure_end s = s \/ ensure_end s = s ++ ["."%char].
Proof.
  intros Hs. destruct s as [|c r] eqn:E; [left; reflexivity|]. rewrite <- E in *.
  destruct (endswith_any sentence_end s) eqn:Ee.
  - left. apply ensure_end_sentence; [exact Hs|]. now apply endswith_any_true.
  - right. apply ensure_end_append; [exact Hs|subst; discriminate|].
    intros He. apply endswith_any_true in He. congruence.
Qed.

(** The cleaned text has at most [MAX + 1] characters: the limit can be
    exceeded, by the appended period only. *)
Theorem clean_description_length (MAX : Z) (raw : Text) :
  0 <= MAX ->
  Z.of_nat (length (_clean_description MAX raw)) <= MAX + 1.
Proof.
  intros H0.
  destruct (Z.ltb_spec MAX (Z.of_nat (length (collapse raw)))) as [Hlen|Hlen].
  - rewrite (clean_description_beyond MAX raw H0 Hlen). cbn zeta.
    set (d := collapse raw). set (t := take (Z.to_nat MAX) d).
    set (lp := Z.max (Z.max (rfind "." t) (rfind "!" t)) (rfind "?" t)).
    destruct (last_punctuation_spec t) as (Hr & _ & _). fold lp in Hr.
    assert (Hlt : (length t <= Z.to_nat MAX)%nat) by (subst t; rewrite length_take; lia).
    pose proof (rfind_range " " t) as Hsp.
    destruct (near_limit MAX lp) eqn:Hp.
    + rewrite length_take. lia.
    + rewrite length_app. cbn [length].
      destruct (Z.ltb_spec (rfind " " t) 0); [lia|]. rewrite length_take. lia.
  - rewrite (clean_description_within MAX raw Hlen).
    destruct (ensure_end_cases (collapse raw) (collapse_starts_nonspace raw)) as [-> | ->].
    + lia.
    + rewrite length_app. cbn [length]. lia.
Qed.

Lemma clean_description_length_witness :
  (length (_clean_description 10 (text "abcdefghij")) = 11)%nat /\
  Z.of_nat (length (_clean_description 10 (text "abcdefghij"))) <= 10 + 1.
Proof.
  split; [reflexivity|].
  apply clean_description_length. lia.
Defined.

Lemma collapse_single_spaced (raw : Text) : single_spaced (collapse raw).
Proof.
  intros i c. exact (join_single_spaced (split raw) (split_words raw) i c).
Qed.

(** A prefix of a single-spaced text, closed by a period, is
    single-spaced. *)
Lemma single_spaced_take_period (d : Text) (n : nat) :
  single_spaced d -> single_spaced (take n d ++ ["."%char]).
Proof.
  intros Hd i c Hi Hc.
  destruct (decide (i < length (take n d))%nat) as [Hlt|Hge].
  - rewrite lookup_app_l in Hi by exact Hlt.
    assert (Hin : (i < n)%nat) by (rewrite length_take in Hlt; lia).
    rewrite lookup_take_lt in Hi by exact Hin.
    destruct (Hd i c Hi Hc) as (-> & Hpos & c' & Hc' & Hs').
    split; [reflexivity|]. split; [exact Hpos|].
    destruct (decide (S i < length (take n d))%nat) as [Hlt'|Hge'].
    + exists c'. split; [|exact Hs'].
      rewrite lookup_app_l by exact Hlt'.
      rewrite lookup_take_lt; [exact Hc'|]. rewrite length_take in Hlt'. lia.
    + exists "."%char. split; [|reflexivity].
      rewrite lookup_app_r by lia.
      replace (S i - length (take n d))%nat with 0%nat by lia. reflexivity.
  - rewrite lookup_app_r in Hi by lia.
    destruct (i - length (take n d))%nat; cbn in Hi; [|discriminate].
    injection Hi as <-. discriminate Hc.
Qed.

(** A prefix of a single-spaced text that ends with a non-whitespace
    character is single-spaced. *)
Lemma single_spaced_take (d : Text) (n : nat) (c : ascii) :
  single_spaced d -> d !! n = Some c -> isspace c = false ->
  single_spaced (take (S n) d).
Proof.
  intros Hd Hn Hcn i x Hi Hx.
  assert (Hlt : (i < S n)%nat).
  { apply lookup_lt_Some in Hi. rewrite length_take in Hi. lia. }
  rewrite lookup_take_lt in Hi by exact Hlt.
  destruct (Hd i x Hi Hx) as (-> & Hpos & c' & Hc' & Hs').
  split; [reflexivity|]. split; [exact Hpos|].
  assert (i <> n) by (intros ->; rewrite Hn in Hi; injection Hi as ->; discriminate).
  exists c'. split; [|exact Hs']. rewrite lookup_take_lt by lia. exact Hc'.
Qed.

(** In the cleaned text the only whitespace is single spaces between other
    characters: no tab or line break survives, no two spaces follow each
    other, and the text neither starts nor ends with a space. *)
Theorem clean_description_single_spaced (MAX : Z) (raw : Text) :
  0 <= MAX -> single_spaced (_clean_description MAX raw).
Proof.
  intros H0. pose proof (collapse_single_spaced raw) as Hd.
  destruct (Z.ltb_spec MAX (Z.of_nat (length (collapse raw)))) as [Hlen|Hlen].
  - rewrite (clean_description_beyond MAX raw H0 Hlen). cbn zeta.
    set (d := collapse raw) in *. set (t := take (Z.to_nat MAX) d).
    set (lp := Z.max (Z.max (rfind "." t) (rfind "!" t)) (rfind "?" t)).
    destruct (last_punctuation_spec t) as (Hr & Hin & _). fold lp in Hr, Hin.
    assert (Hlt : (length t <= Z.to_nat MAX)%nat) by (subst t; rewrite length_take; lia).
    destruct (near_limit MAX lp) eqn:Hp.
    + assert (Hlp : 0 <= lp) by (pose proof (near_limit_positive MAX lp H0 Hp); lia).
      destruct (Hin Hlp) as [(c & Hc & Hcin) _].
      apply (single_spaced_take d _ c Hd).
      * rewrite <- Hc. subst t. symmetry. apply lookup_take_lt. lia.
      * now apply sentence_end_nonspace.
    + destruct (Z.ltb_spec (rfind " " t) 0); subst t;
        now apply single_spaced_take_period.
  - rewrite (clean_description_within MAX raw Hlen).
    destruct (ensure_end_cases (collapse raw) (collapse_starts_nonspace raw)) as [-> | ->].
    + exact Hd.
    + rewrite <- (firstn_all (collapse raw)). now apply single_spaced_take_period.
Qed.

Lemma clean_description_single_spaced_witness :
  single_spaced (_clean_description 500 (text "Hay  una silla")) /\
  _clean_description 500 (text "Hay  una silla") = text "Hay una silla.".
Proof.
  split; [|reflexivity].
  apply clean_description_single_spaced. lia.
Defined.

(** *** The description cache seen from [generate_description] *)

(** A description generated by the model and cached is what every later
    call gets for the same objects at the same quantized places, in any
    order: the model is not asked again, whatever it would answer, and the
    usage counter of the entry becomes 2.  This needs the generated text
    to be non-empty. *)
Theorem generated_description_is_reused
    (json_dumps : list Normalized -> string) (md5_hexdigest : string -> string)
    (fallback : list Detection -> string) (MAX : Z)
    (backend : bool) (tbl : DatabaseManager.Table) (now now' : Q)
    (response : option string) (client' : option model_answer)
    (d : Detection) (l1 l2 : list Detection) (detailed detailed' : bool) :
  let generate := generate_description json_dumps md5_hexdigest fallback true MAX in
  let h := _create_hash_from_detections json_dumps md5_hexdigest (d :: l1) in
  let r1 := generate (Some (backend, tbl)) now (Some (Answer response))
                     (d :: l1) detailed true in
  let r2 := generate (fst r1) now' client' l2 detailed' true in
  tbl !! h = None ->
  snd r1 <> ""%string ->
  map normalize (d :: l1) ≡ₚ map normalize l2 ->
  snd r2 = snd r1 /\
  exists tbl2, fst r2 = Some (backend, tbl2) /\
               DatabaseManager.entry h tbl2 = Some (snd r1, 2).
Proof.
  intros generate h r1 r2 Hfresh Hne Hperm.
  set (text1 := string_of_list_ascii
                  (_clean_description MAX (strip (text (default ""%string response))))).
  set (tbl1 := fst (DatabaseManager.cache_description backend now h text1 tbl)).
  assert (E1 : r1 = (Some (backend, tbl1), text1)).
  { subst r1 generate. unfold generate_description. fold h. cbn [andb].
    rewrite (DatabaseManager.get_cached_description_miss backend now h tbl Hfresh).
    reflexivity. }
  assert (Eh : _create_hash_from_detections json_dumps md5_hexdigest l2 = h).
  { subst h. unfold _create_hash_from_detections.
    now rewrite (merge_sort_key_le_perm _ _ Hperm). }
  rewrite E1 in Hne. cbn [snd] in Hne.
  destruct (DatabaseManager.entry_get_cached_description backend now' h tbl1)
    as (Hr & He & _).
  assert (Hs : DatabaseManager.entry h tbl1 = Some (text1, 1)).
  { subst tbl1. rewrite DatabaseManager.entry_cache_description.
    unfold DatabaseManager.entry. now rewrite Hfresh. }
  rewrite Hs in Hr, He. cbn in Hr, He.
  subst r2 generate. rewrite E1. cbn [fst snd].
  unfold generate_description. rewrite Eh. cbn [andb].
  destruct (DatabaseManager.get_cached_description backend now' h tbl1) as [tbl2 r] eqn:Eg.
  cbn [fst snd] in Hr, He. subst r.
  destruct (String.eqb_spec text1 "") as [E|_]; [contradiction|]. cbn [negb fst snd].
  split; [reflexivity|]. exists tbl2. split; [reflexivity|exact He].
Qed.

Lemma generated_description_is_reused_witness :
  let generate :=
    generate_description show_normalized (fun s => s) (fun _ => "..."%string) true 500 in
  let r1 := generate (Some (true, ∅)) 1%Q (Some (Answer (Some "Hay una  silla"%string)))
                     [table_at 430 80; chair_at 120 250] false true in
  snd r1 = "Hay una silla."%string /\
  snd (generate (fst r1) 2%Q (Some OtherError)
                [chair_at 80 249; table_at (4335 # 10) 99] true true)
  = "Hay una silla."%string.
Proof.
  intros generate r1.
  assert (E1 : snd r1 = "Hay una silla."%string) by (vm_compute; reflexivity).
  split; [exact E1|]. rewrite <- E1.
  apply (generated_description_is_reused show_normalized (fun s => s)
           (fun _ => "..."%string) 500 true ∅ 1%Q 2%Q (Some "Hay una  silla"%string)
           (Some OtherError) (table_at 430 80) [chair_at 120 250]
           [chair_at 80 249; table_at (4335 # 10) 99] false true).
  - apply lookup_empty.
  - fold generate. fold r1. rewrite E1. discriminate.
  - vm_compute. apply perm_swap.
Defined.

End LanguageAgent.

(** ** The vision agent of the standalone variant
    ([Nueva carpeta/agents/vision_agent.py]) *)

Module VisionAgent.
Import QCmp.

(** [s.lower()] on the letters A to Z. *)
Definition ascii_lower (c : ascii) : ascii :=
  let n := N_of_ascii c in
  if ((65 <=? n)%N && (n <=? 90)%N)%bool then ascii_of_N (n + 32) else c.

Fixpoint lower (s : string) : string :=
  match s with
  | EmptyString => EmptyString
  | String c rest => String (ascii_lower c) (lower rest)
  end.

Definition high_priority : list string :=
  ["person"; "chair"; "table"; "door"; "stairs";
   "car"; "bus"; "truck"; "bicycle"; "motorcycle";
   "dog"; "cat"; "backpack"; "handbag"; "umbrella";
   "couch"; "bed"; "dining table"; "toilet"; "tv";
   "bottle"; "phone"; "cell phone"; "mobile phone"]%string.

Definition medium_priority : list string :=
  ["cup"; "book"; "laptop";
   "keyboard"; "mouse"; "vase"; "bowl";
   "remote"; "clock"; "scissors"; "toothbrush"]%string.

(** [_is_relevant_object(class_name, confidence)] *)
Definition _is_relevant_object (class_name : string) (confidence : Q) : bool :=
  let class_lower := lower class_name in
  if bool_decide (class_lower ∈ high_priority) then Qgeb confidence (4 # 10)
  else if bool_decide (class_lower ∈ medium_priority) then Qgeb confidence (6 # 10)
  else Qgeb confidence (7 # 10).

(** [get_obstacle_type(class_name)] *)
Definition get_obstacle_type (class_name : string) : string :=
  let class_lower := lower class_name in
  if (class_lower =? "person")%string then "person"
  else if bool_decide (class_lower ∈ ["car"; "bus"; "truck"; "motorcycle"; "bicycle"]%string)
  then "vehicle"
  else if bool_decide
            (class_lower ∈ ["chair"; "table"; "couch"; "bed"; "door"; "stairs"]%string)
  then "furniture"
  else "object".

(** One box of the inference result: corners, confidence, and the class
    name [self.model.names[class_id]]. *)
Record RawBox : Type := mkRawBox {
  x1 : Q; y1 : Q; x2 : Q; y2 : Q;
  conf : Q;
  class_name : string
}.

(** The keys of a detection the later stages read. *)
Record Detection : Type := mkDetection {
  name : string;
  confidence : Q;
  box : Helpers.BBoxInfo;
  proximity : string;
  is_center : bool;
  relative_size : Q
}.

(** The body of the loop over [result.boxes]: [None] when the relevance
    filter drops the box. *)
Definition detection_of_box (original_width original_height : Z) (b : RawBox)
    : option Detection :=
  let bbox_info :=
    Helpers.calculate_bbox_position (x1 b) (y1 b) (x2 b) (y2 b)
                                    original_width original_height in
  let relative_size := Helpers.relative_size bbox_info in
  let proximity :=
    Helpers.calculate_proximity relative_size original_width original_height in
  let is_center :=
    Helpers.is_center_zone (Helpers.x_center bbox_info) (Helpers.y_center bbox_info)
                           original_width original_height in
  if _is_relevant_object (class_name b) (conf b) then
    Some {| name := class_name b; confidence := conf b; box := bbox_info;
            proximity := proximity; is_center := is_center;
            relative_size := relative_size |}
  else None.

Definition bool_compare (a b : bool) : comparison :=
  match a, b with
  | false, true => Lt
  | true, false => Gt
  | _, _ => Eq
  end.

(** Comparison of the sort keys
    [(not is_center, proximity != 'close', proximity != 'medium', -confidence)]. *)
Definition key_compare (a b : Detection) : comparison :=
  match bool_compare (negb (is_center a)) (negb (is_center b)) with
  | Eq =>
      match bool_compare (negb (proximity a =? "close")%string)
                         (negb (proximity b =? "close")%string) with
      | Eq =>
          match bool_compare (negb (proximity a =? "medium")%string)
                             (negb (proximity b =? "medium")%string) with
          | Eq => ((- confidence a) ?= (- confidence b))%Q
          | c => c
          end
      | c => c
      end
  | c => c
  end.

(** [key(a) <= key(b)] *)
Definition key_leb (a b : Detection) : bool :=
  match key_compare a b with Gt => false | _ => true end.

(** [list.sort(key=...)] is stable: an element goes in front of the first
    one whose key is not smaller than its own. *)
Fixpoint insert_by_key (x : Detection) (sorted : list Detection) : list Detection :=
  match sorted with
  | [] => [x]
  | y :: rest => if key_leb x y then x :: y :: rest else y :: insert_by_key x rest
  end.

Fixpoint sort_by_key (l : list Detection) : list Detection :=
  match l with
  | [] => []
  | x :: rest => insert_by_key x (sort_by_key rest)
  end.

Definition max_detections : nat := 10.

(** The fields of the agent that [detect_objects] reads and writes. *)
Record Agent : Type := mkAgent {
  model_loaded : bool;
  frame_count : Z;
  process_every_n_frames : Z
}.

(** How a call of [detect_objects] ends: with a list, having run the model
    or not, or with the [ZeroDivisionError] of [frame_count % 0]. *)
Inductive outcome : Type :=
| Returned (agent : Agent) (ran_model : bool) (detections : list Detection)
| ZeroDivision (agent : Agent).

(** [detect_objects(frame, force_process)].  [width], [height] are
    [frame.shape]; [boxes] is what the model answers on the frame, [None]
    when it raises. *)
Definition detect_objects (agent : Agent) (width height : Z)
    (boxes : option (list RawBox)) (force_process : bool) : outcome :=
  if negb (model_loaded agent) then Returned agent false []
  else
    let agent1 := {| model_loaded := model_loaded agent;
                     frame_count := frame_count agent + 1;
                     process_every_n_frames := process_every_n_frames agent |} in
    if negb force_process then
      if process_every_n_frames agent =? 0 then ZeroDivision agent1
      else if negb (frame_count agent1 mod process_every_n_frames agent =? 0)
      then Returned agent1 false []
      else
        match boxes with
        | None => Returned agent1 true []
        | Some bs =>
            Returned agent1 true
              (take max_detections (sort_by_key (omap (detection_of_box width height) bs)))
        end
    else
      match boxes with
      | None => Returned agent1 true []
      | Some bs =>
          Returned agent1 true
            (take max_detections (sort_by_key (omap (detection_of_box width height) bs)))
      end.

(** [reset_frame_count()] *)
Definition reset_frame_count (agent : Agent) : Agent :=
  {| model_loaded := model_loaded agent; frame_count := 0;
     process_every_n_frames := process_every_n_frames agent |}.

(** How many of [k] successive unforced calls run the model; [None] when a
    call raises. *)
Fixpoint count_runs (k : nat) (agent : Agent) : option Z :=
  match k with
  | O => Some 0
  | S k' =>
      match detect_objects agent 0 0 (Some []) false with
      | Returned agent1 ran _ =>
          match count_runs k' agent1 with
          | Some n => Some (if ran then n + 1 else n)
          | None => None
          end
      | ZeroDivision _ => None
      end
  end.

(** *** Relevance filter *)

(** Whatever the class, a confidence of at least 0.7 passes the relevance
    filter and a confidence below 0.4 does not; and a box that passes keeps
    passing at any higher confidence. *)
Theorem is_relevant_object_thresholds (class_name : string) (c c' : Q) :
  ((7 # 10 <= c)%Q -> _is_relevant_object class_name c = true) /\
  ((c < 4 # 10)%Q -> _is_relevant_object class_name c = false) /\
  (_is_relevant_object class_name c = true -> (c <= c')%Q ->
   _is_relevant_object class_name c' = true).
Proof.
  unfold _is_relevant_object.
  destruct (bool_decide (lower class_name ∈ high_priority));
    [|destruct (bool_decide (lower class_name ∈ medium_priority))];
    (split; [|split]);
    rewrite ?Qgeb_ge, ?Qgeb_lt; intros; Lqa.lra.
Qed.

(** *** Frame skipping *)

Lemma div_succ (c n : Z) :
  0 < n -> (c + 1) / n = c / n + (if (c + 1) mod n =? 0 then 1 else 0).
Proof.
  intros Hn.
  pose proof (Z.div_mod c n ltac:(lia)) as Hc.
  pose proof (Z.mod_pos_bound c n Hn) as Hcb.
  pose proof (Z.mod_pos_bound (c + 1) n Hn) as Hb.
  destruct (Z.eqb_spec ((c + 1) mod n) 0) as [E|E].
  - symmetry. apply (Z.div_unique (c + 1) n (c / n + 1) 0); [lia|].
    apply Z.mod_divide in E; [|lia]. destruct E as [q Hq].
    assert (c mod n = n - 1).
    { assert (Hm : (c + 1) mod n = (c mod n + 1) mod n).
      { rewrite <- Zplus_mod_idemp_l. reflexivity. }
      destruct (Z.eq_dec (c mod n) (n - 1)) as [|Hne]; [assumption|].
      rewrite (Z.mod_small (c mod n + 1)) in Hm by lia.
      rewrite Hq, Z.mod_mul in Hm by lia. lia. }
    lia.
  - symmetry. rewrite Z.add_0_r.
    apply (Z.div_unique (c + 1) n (c / n) (c mod n + 1)); [|lia].
    destruct (Z.eq_dec (c mod n) (n - 1)) as [Heq|Hne]; [|lia].
    exfalso. apply E. apply Z.mod_divide; [lia|].
    exists (c / n + 1). lia.
Qed.

Lemma count_runs_from (k : nat) (agent : Agent) :
  model_loaded agent = true ->
  0 < process_every_n_frames agent ->
  count_runs k agent
  = Some ((frame_count agent + Z.of_nat k) / process_every_n_frames agent
          - frame_count agent / process_every_n_frames agent).
Proof.
  revert agent. induction k as [|k IH]; intros agent Hm Hn.
  - cbn [count_runs Z.of_nat]. f_equal. rewrite Z.add_0_r. lia.
  - cbn [count_runs]. unfold detect_objects. rewrite Hm. cbn [negb].
    destruct (Z.eqb_spec (process_every_n_frames agent) 0) as [|_]; [lia|].
    cbn [frame_count].
    set (agent1 := {| model_loaded := model_loaded agent;
                      frame_count := frame_count agent + 1;
                      process_every_n_frames := process_every_n_frames agent |}).
    assert (IH1 := IH agent1 Hm Hn). cbn [frame_count process_every_n_frames agent1] in IH1.
    pose proof (div_succ (frame_count agent) _ Hn) as Hd.
    replace (frame_count agent + Z.of_nat (S k))
      with (frame_count agent + 1 + Z.of_nat k) by lia.
    subst agent1. rewrite Hm in IH1.
    destruct ((frame_count agent + 1) mod process_every_n_frames agent =? 0);
      cbn [negb]; cbv beta iota; rewrite IH1; f_equal; lia.
Qed.

(** After a reset, with the model loaded and [N > 0] frames per run, [k]
    successive unforced calls run the model [k / N] times (rounded down):
    the other calls return the empty list without looking at the frame.
    With [N = 0] the first unforced call raises. *)
Theorem unforced_calls_run_every_nth (k : nat) (agent : Agent) :
  model_loaded agent = true ->
  (0 < process_every_n_frames agent ->
   count_runs k (reset_frame_count agent)
   = Some (Z.of_nat k / process_every_n_frames agent)) /\
  (process_every_n_frames agent = 0 ->
   count_runs (S k) (reset_frame_count agent) = None).
Proof.
  intros Hm. split.
  - intros Hn. rewrite count_runs_from by assumption.
    cbn [reset_frame_count frame_count process_every_n_frames].
    rewrite Z.add_0_l, Z.div_0_l by lia. f_equal. lia.
  - intros Hn. cbn [count_runs]. unfold detect_objects, reset_frame_count.
    cbn [model_loaded process_every_n_frames]. now rewrite Hm, Hn.
Qed.

Lemma unforced_calls_run_every_nth_witness :
  count_runs 7 (reset_frame_count (mkAgent true 123 2)) = Some 3.
Proof.
  exact (proj1 (unforced_calls_run_every_nth 7 (mkAgent true 123 2) eq_refl)
               ltac:(reflexivity)).
Defined.

(** *** Ordering and truncation of the result *)

(** [a] may stand in front of [b]: a center-zone [b] has a center-zone
    [a] before it. *)
Definition center_before (a b : Detection) : Prop :=
  is_center b = true -> is_center a = true.

Lemma key_leb_center (x y : Detection) :
  key_leb x y = true -> center_before x y.
Proof.
  unfold key_leb, key_compare, center_before.
  destruct (is_center x), (is_center y); cbn; try discriminate; auto.
Qed.

Lemma key_leb_center_false (x y : Detection) :
  key_leb x y = false -> center_before y x.
Proof.
  unfold key_leb, key_compare, center_before.
  destruct (is_center x), (is_center y); cbn; try discriminate; auto.
Qed.

Lemma insert_by_key_perm (x : Detection) (l : list Detection) :
  insert_by_key x l ≡ₚ x :: l.
Proof.
  induction l as [|y r IH]; [reflexivity|].
  cbn. destruct (key_leb x y); [reflexivity|].
  rewrite IH. apply perm_swap.
Qed.

Lemma sort_by_key_perm (l : list Detection) : sort_by_key l ≡ₚ l.
Proof.
  induction l as [|x r IH]; [reflexivity|].
  cbn. now rewrite insert_by_key_perm, IH.
Qed.

Lemma insert_by_key_sorted (x : Detection) (l : list Detection) :
  StronglySorted center_before l -> StronglySorted center_before (insert_by_key x l).
Proof.
  induction 1 as [|y r Hr IH Hy]; [repeat constructor|].
  cbn. destruct (key_leb x y) eqn:E.
  - constructor; [now constructor|].
    constructor; [now apply key_leb_center|].
    eapply Forall_impl; [exact Hy|].
    intros z Hz Hc. apply (key_leb_center x y E). now apply Hz.
  - constructor; [exact IH|].
    rewrite (insert_by_key_perm x r). constructor; [|exact Hy].
    now apply key_leb_center_false.
Qed.

Lemma sort_by_key_sorted (l : list Detection) :
  StronglySorted center_before (sort_by_key l).
Proof.
  induction l as [|x r IH]; [constructor|]. cbn. now apply insert_by_key_sorted.
Qed.

Lemma take_keeps_center (l : list Detection) (n : nat) (d c : Detection) :
  StronglySorted center_before l ->
  d ∈ take n l -> is_center d = false ->
  c ∈ l -> is_center c = true ->
  c ∈ take n l.
Proof.
  intros Hs. revert n. induction Hs as [|x r Hr IH Hx]; intros n Hd Hdc Hc Hcc.
  - now apply elem_of_nil in Hc.
  - destruct n as [|n]; [now apply elem_of_nil in Hd|]. cbn [take] in *.
    apply elem_of_cons in Hc as [->|Hc]; [now left|].
    right. apply elem_of_cons in Hd as [->|Hd].
    + exfalso. rewrite Forall_forall in Hx.
      specialize (Hx c Hc Hcc). congruence.
    + now apply IH.
Qed.

(** What [detect_objects] returns when the model has answered: at most ten
    detections, each built from a box of the answer that passed the
    relevance filter; and a detection outside the center zone is returned
    only together with every detection inside it: truncation never drops
    a center-zone object in favour of another one. *)
Theorem detect_objects_result (agent agent1 : Agent) (width height : Z)
    (boxes : list RawBox) (force ran : bool) (ds : list Detection) :
  detect_objects agent width height (Some boxes) force = Returned agent1 ran ds ->
  (length ds <= 10)%nat /\
  (forall d, d ∈ ds ->
     exists b, b ∈ boxes /\ detection_of_box width height b = Some d /\
               _is_relevant_object (class_name b) (conf b) = true) /\
  (forall d c b,
     d ∈ ds -> is_center d = false ->
     b ∈ boxes -> detection_of_box width height b = Some c -> is_center c = true ->
     c ∈ ds).
Proof.
  intros H.
  assert (Hcases : ds = [] \/
    ds = take max_detections (sort_by_key (omap (detection_of_box width height) boxes))).
  { unfold detect_objects in H.
    destruct (negb (model_loaded agent)); [left; congruence|].
    destruct (negb force).
    - destruct (process_every_n_frames agent =? 0); [discriminate|].
      destruct (negb _); [left; congruence|right; congruence].
    - right. congruence. }
  destruct Hcases as [->| ->].
  - split; [cbn; lia|]. split; intros d; intros; exfalso; eapply elem_of_nil; eauto.
  - set (found := omap (detection_of_box width height) boxes).
    split; [rewrite length_take; unfold max_detections; lia|]. split.
    + intros d Hd. apply elem_of_take in Hd as (i & Hd & _).
      apply list_elem_of_lookup_2 in Hd. rewrite sort_by_key_perm in Hd.
      apply list_elem_of_omap in Hd as (b & Hb & Hdb).
      exists b. split; [exact Hb|]. split; [exact Hdb|].
      unfold detection_of_box in Hdb.
      now destruct (_is_relevant_object (class_name b) (conf b)).
    + intros d c b Hd Hdc Hb Hbc Hcc.
      apply (take_keeps_center _ _ d c (sort_by_key_sorted found) Hd Hdc); [|exact Hcc].
      rewrite sort_by_key_perm. apply list_elem_of_omap. eauto.
Qed.

Lemma detect_objects_result_witness :
  let boxes := [mkRawBox 0 0 64 48 (9 # 10) "chair";
                mkRawBox 200 150 440 330 (5 # 10) "person"] in
  exists ds,
    detect_objects (mkAgent true 0 2) 640 480 (Some boxes) true
      = Returned (mkAgent true 1 2) true ds /\
    (length ds <= 10)%nat.
Proof.
  intros boxes. eexists. split; [reflexivity|].
  eapply (proj1 (detect_objects_result (mkAgent true 0 2) _ 640 480 boxes true _ _ eq_refl)).
Defined.

End VisionAgent.

(** ** The detection loop of the standalone orchestrator
    ([ObstacleAssistant._detection_thread]) *)

Module DetectionThread.
Import PyQueue.

(** An entry of [objects_to_announce]. *)
Record Announcement : Type := mkAnnouncement {
  ann_name : string;
  ann_type : string;
  ann_proximity : string;
  ann_size : Q;
  ann_center : bool
}.

(** What the loop over the detections of one frame writes: the alert
    system, the queue towards the GUI, and the objects to announce. *)
Record LoopState : Type := mkLoop {
  obstacle_alert : ObstacleAlert.State;
  detection_queue : Queue (VisionAgent.Detection * string);
  objects_to_announce : list Announcement
}.

(** [self.detection_queue = queue.Queue(maxsize=10)] *)
Definition detection_queue_init : Queue (VisionAgent.Detection * string) := new 10.

(** The priority handed to [alert_obstacle]. *)
Definition priority_of (proximity : string) (is_center : bool) : string :=
  if is_center && (proximity =? "close")%string then "high"
  else if is_center || (proximity =? "close")%string then "normal"
  else "low".

(** [should_announce] *)
Definition should_announce (proximity : string) (is_center : bool) : bool :=
  (proximity =? "close")%string
  || (is_center && bool_decide (proximity ∈ ["close"; "medium"]%string)).

(** The body of [for detection in detections]. *)
Definition handle_detection (cfg : Config.t) (detection : VisionAgent.Detection)
    (st : LoopState) : LoopState :=
  let proximity := VisionAgent.proximity detection in
  let obstacle_type := VisionAgent.get_obstacle_type (VisionAgent.name detection) in
  let is_center := VisionAgent.is_center detection in
  let gui :=
    if negb (full (detection_queue st)) then
      match put_nowait (detection, obstacle_type) (detection_queue st) with
      | Some q => q
      | None => detection_queue st
      end
    else detection_queue st in
  let priority := priority_of proximity is_center in
  let alert :=
    ObstacleAlert.alert_obstacle cfg proximity obstacle_type priority is_center
                                 (obstacle_alert st) in
  let announce :=
    if should_announce proximity is_center then
      objects_to_announce st ++
      [{| ann_name := VisionAgent.name detection; ann_type := obstacle_type;
          ann_proximity := proximity;
          ann_size := VisionAgent.relative_size detection;
          ann_center := is_center |}]
    else objects_to_announce st in
  {| obstacle_alert := alert; detection_queue := gui; objects_to_announce := announce |}.

(** The loop over the detections of one frame. *)
Definition handle_detections (cfg : Config.t) (detections : list VisionAgent.Detection)
    (st : LoopState) : LoopState :=
  fold_left (fun acc d => handle_detection cfg d acc) detections st.

Lemma get_obstacle_type_values (class_name : string) :
  VisionAgent.get_obstacle_type class_name
    ∈ ["person"; "vehicle"; "furniture"; "object"]%string.
Proof.
  unfold VisionAgent.get_obstacle_type.
  repeat (match goal with |- context [if ?b then _ else _] => destruct b end);
    rewrite !elem_of_cons; auto 6.
Qed.

Lemma get_obstacle_type_person (class_name : string) :
  VisionAgent.get_obstacle_type class_name = "person"%string
  <-> VisionAgent.lower class_name = "person"%string.
Proof.
  unfold VisionAgent.get_obstacle_type.
  destruct (String.eqb_spec (VisionAgent.lower class_name) "person") as [E|E].
  - tauto.
  - split; [|contradiction].
    repeat (match goal with |- context [if ?b then _ else _] => destruct b end);
      discriminate.
Qed.

(** The frequency adjustment as the loop reaches it: the type handed over
    is never one of the vehicle class names, so only the person factor can
    apply. *)
Lemma adjust_frequency_of_type (class_name : string) (f : Z) :
  ObstacleAlert.adjust_frequency (VisionAgent.get_obstacle_type class_name) f
  = if (VisionAgent.lower class_name =? "person")%string
    then ObstacleAlert.int_scale f 11 10 else f.
Proof.
  unfold ObstacleAlert.adjust_frequency.
  pose proof (get_obstacle_type_person class_name) as Hp.
  pose proof (get_obstacle_type_values class_name) as Hv.
  destruct (String.eqb_spec (VisionAgent.lower class_name) "person") as [E|E].
  - rewrite (proj2 Hp E). reflexivity.
  - destruct (String.eqb_spec (VisionAgent.get_obstacle_type class_name) "person")
      as [E'|_]; [apply Hp in E'; contradiction|].
    rewrite bool_decide_eq_false_2; [reflexivity|].
    intros Hin. revert Hv Hin. unfold ObstacleAlert.vehicle_types.
    generalize (VisionAgent.get_obstacle_type class_name). intros t.
    rewrite !elem_of_cons, !elem_of_nil.
    intros [-> | [-> | [-> | [-> | []]]]] [H|[H|[H|[H|[H|[]]]]]]; discriminate.
Qed.

(** For every detection the loop handles, with alerts enabled: either no
    message is queued, or exactly one whose frequency is the base
    frequency of its proximity, scaled by 1.1 and truncated when the class
    is person and unscaled for every other class.  The factor 0.9 for
    vehicles is never applied, because the loop hands over the type
    'vehicle' and the alert system looks for the class names. *)
Theorem loop_never_scales_vehicles (cfg : Config.t)
    (d : VisionAgent.Detection) (st : LoopState) :
  ObstacleAlert.enabled (obstacle_alert st) = true ->
  maxsize (ObstacleAlert.alert_queue (obstacle_alert st)) = 0 ->
  let alert := obstacle_alert (handle_detection cfg d st) in
  let base := fst (ObstacleAlert.base_tone cfg (VisionAgent.proximity d)) in
  alert = obstacle_alert st \/
  exists m,
    ObstacleAlert.items_of alert
      = ObstacleAlert.items_of (obstacle_alert st) ++ [m] /\
    ObstacleAlert.frequency m
      = if (VisionAgent.lower (VisionAgent.name d) =? "person")%string
        then (base * 11) ÷ 10 else base.
Proof.
  intros He Hq alert base. subst alert. cbn [handle_detection obstacle_alert].
  destruct (ObstacleAlert.suppressed (VisionAgent.proximity d) (VisionAgent.is_center d))
    eqn:Es.
  - left. now apply ObstacleAlert.alert_obstacle_suppressed.
  - right. rewrite ObstacleAlert.alert_obstacle_audible by assumption.
    rewrite ObstacleAlert.enqueue_unbounded by assumption.
    eexists. split; [reflexivity|].
    cbn [ObstacleAlert.obstacle_message ObstacleAlert.frequency].
    apply adjust_frequency_of_type.
Qed.

Definition car_nearby : VisionAgent.Detection :=
  {| VisionAgent.name := "car"; VisionAgent.confidence := 9 # 10;
     VisionAgent.box := Helpers.calculate_bbox_position 0 0 320 240 640 480;
     VisionAgent.proximity := "close"; VisionAgent.is_center := false;
     VisionAgent.relative_size := 1 # 4 |}.

Definition loop_init (cfg : Config.t) : LoopState :=
  {| obstacle_alert := ObstacleAlert.init cfg;
     detection_queue := detection_queue_init;
     objects_to_announce := [] |}.

Lemma loop_never_scales_vehicles_witness :
  exists m,
    ObstacleAlert.items_of
      (obstacle_alert (handle_detection Config.default car_nearby (loop_init Config.default)))
      = [m] /\
    ObstacleAlert.frequency m = 900.
Proof.
  destruct (loop_never_scales_vehicles Config.default car_nearby
              (loop_init Config.default) eq_refl eq_refl) as [H|(m & Hm & Hf)].
  - discriminate H.
  - exists m. split; [exact Hm|]. rewrite Hf. reflexivity.
Defined.

Lemma detection_of_box_proximity (w h : Z) (b : VisionAgent.RawBox)
    (d : VisionAgent.Detection) :
  VisionAgent.detection_of_box w h b = Some d ->
  VisionAgent.proximity d = "close"%string \/
  VisionAgent.proximity d = "medium"%string \/
  VisionAgent.proximity d = "far"%string.
Proof.
  unfold VisionAgent.detection_of_box.
  destruct (VisionAgent._is_relevant_object _ _); [|discriminate].
  intros [= <-]. cbn [VisionAgent.proximity].
  match goal with
  | |- context [Helpers.calculate_proximity ?r ?a ?c] =>
      destruct (Helpers.calculate_proximity_cases r a c)
        as [[_ ->]|[(_ & _ & ->)|[_ ->]]]
  end; auto.
Qed.

Lemma alert_of_handle (cfg : Config.t) (d : VisionAgent.Detection) (st : LoopState) :
  ObstacleAlert.enabled (obstacle_alert st) = true ->
  maxsize (ObstacleAlert.alert_queue (obstacle_alert st)) = 0 ->
  ObstacleAlert.items_of (obstacle_alert (handle_detection cfg d st))
  = if ObstacleAlert.suppressed (VisionAgent.proximity d) (VisionAgent.is_center d)
    then ObstacleAlert.items_of (obstacle_alert st)
    else ObstacleAlert.items_of (obstacle_alert st) ++
         [ObstacleAlert.obstacle_message cfg (VisionAgent.proximity d)
            (VisionAgent.get_obstacle_type (VisionAgent.name d))
            (priority_of (VisionAgent.proximity d) (VisionAgent.is_center d))].
Proof.
  intros He Hq. cbn [handle_detection obstacle_alert].
  destruct (ObstacleAlert.suppressed _ _) eqn:Es.
  - now rewrite ObstacleAlert.alert_obstacle_suppressed.
  - rewrite ObstacleAlert.alert_obstacle_audible by assumption.
    now rewrite ObstacleAlert.enqueue_unbounded.
Qed.

(** For a detection built by the vision agent and handled by the loop with
    alerts enabled: an object that is put on the list for a voice
    announcement also gets a tone message; a tone message never carries the
    priority 'low'; and the objects that get a tone message without being
    announced are exactly the far ones in the center zone. *)
Theorem announced_objects_also_sound (cfg : Config.t) (w h : Z)
    (b : VisionAgent.RawBox) (d : VisionAgent.Detection) (st : LoopState) :
  VisionAgent.detection_of_box w h b = Some d ->
  ObstacleAlert.enabled (obstacle_alert st) = true ->
  maxsize (ObstacleAlert.alert_queue (obstacle_alert st)) = 0 ->
  let before := ObstacleAlert.items_of (obstacle_alert st) in
  let after := ObstacleAlert.items_of (obstacle_alert (handle_detection cfg d st)) in
  let announced := should_announce (VisionAgent.proximity d) (VisionAgent.is_center d) in
  (announced = true -> exists m, after = before ++ [m]) /\
  (forall m, after = before ++ [m] -> ObstacleAlert.priority m <> "low"%string) /\
  ((exists m, after = before ++ [m]) /\ announced = false <->
   VisionAgent.proximity d = "far"%string /\ VisionAgent.is_center d = true).
Proof.
  intros Hd He Hq before after announced.
  subst before after announced. rewrite (alert_of_handle cfg d st He Hq).
  assert (Hnot : forall (l : list ObstacleAlert.AlertData) m, l <> l ++ [m]).
  { intros l m E. apply (f_equal length) in E. rewrite length_app in E. cbn in E. lia. }
  destruct (detection_of_box_proximity w h b d Hd) as [-> | [-> | ->]];
    destruct (VisionAgent.is_center d); cbn;
    (split; [|split; [|split]]);
    try discriminate; eauto;
    try (intros m E; apply app_inv_head in E; injection E as <-; discriminate);
    try (intros m E; exfalso; exact (Hnot _ _ E));
    try (intros [_ ?]; discriminate);
    try (intros [[m E] _]; exfalso; exact (Hnot _ _ E));
    try (intros [? ?]; discriminate).
Qed.

Lemma announced_objects_also_sound_witness :
  exists d,
    VisionAgent.detection_of_box 640 480
      (VisionAgent.mkRawBox 0 0 320 240 (9 # 10) "car") = Some d /\
    should_announce (VisionAgent.proximity d) (VisionAgent.is_center d) = true /\
    length (ObstacleAlert.items_of
              (obstacle_alert (handle_detection Config.default d (loop_init Config.default))))
      = 1%nat.
Proof.
  eexists. split; [reflexivity|]. split; [reflexivity|].
  destruct (announced_objects_also_sound Config.default 640 480
              (VisionAgent.mkRawBox 0 0 320 240 (9 # 10) "car") _
              (loop_init Config.default) eq_refl eq_refl eq_refl) as [H _].
  destruct (H eq_refl) as [m ->]. reflexivity.
Defined.

(** *** The queue towards the GUI *)

Lemma gui_queue_step (cfg : Config.t) (d : VisionAgent.Detection) (st : LoopState) :
  exists extra,
    items (detection_queue (handle_detection cfg d st))
      = items (detection_queue st) ++ extra /\
    maxsize (detection_queue (handle_detection cfg d st)) = maxsize (detection_queue st) /\
    (0 < maxsize (detection_queue st) ->
     qsize (detection_queue st) <= maxsize (detection_queue st) ->
     qsize (detection_queue (handle_detection cfg d st)) <= maxsize (detection_queue st)).
Proof.
  cbn [handle_detection detection_queue].
  destruct (full (detection_queue st)) eqn:Ef; cbn [negb].
  - exists []. rewrite app_nil_r. auto.
  - rewrite (put_nowait_not_full _ _ Ef). eexists. split; [reflexivity|].
    split; [reflexivity|]. intros Hm Hs. unfold qsize in *. cbn.
    rewrite length_app. cbn.
    destruct (Z.le_gt_cases (maxsize (detection_queue st)) (qsize (detection_queue st)))
      as [Hge|Hlt]; unfold qsize in *; [|lia].
    assert (full (detection_queue st) = true) by (apply full_iff; unfold qsize; lia).
    congruence.
Qed.

(** However many detections the loop handles, the queue towards the GUI
    holds at most ten entries, and what was queued stays queued in front:
    when the queue is full the new entry is the one left out. *)
Theorem gui_queue_drops_new_entries (cfg : Config.t)
    (detections : list VisionAgent.Detection) (st : LoopState) :
  maxsize (detection_queue st) = 10 ->
  (length (items (detection_queue st)) <= 10)%nat ->
  let after := detection_queue (handle_detections cfg detections st) in
  (length (items after) <= 10)%nat /\
  items (detection_queue st) `prefix_of` items after.
Proof.
  intros Hm Hs after. subst after.
  revert st Hm Hs. induction detections as [|d ds IH]; intros st Hm Hs.
  - split; [exact Hs|reflexivity].
  - cbn [handle_detections fold_left].
    destruct (gui_queue_step cfg d st) as (extra & Hx & Hm' & Hs').
    destruct (IH (handle_detection cfg d st)) as [Hlen Hpre].
    + now rewrite Hm'.
    + rewrite Hm in Hs'. unfold qsize in Hs'. specialize (Hs' ltac:(lia) ltac:(lia)). lia.
    + split; [exact Hlen|].
      etransitivity; [|exact Hpre]. rewrite Hx. now apply prefix_app_r.
Qed.

Lemma gui_queue_drops_new_entries_witness :
  (length (items (detection_queue
     (handle_detections Config.default (repeat car_nearby 12) (loop_init Config.default))))
   <= 10)%nat.
Proof.
  apply (gui_queue_drops_new_entries Config.default (repeat car_nearby 12)
           (loop_init Config.default)); [reflexivity|cbn; lia].
Defined.

End DetectionThread.

(** ** Spoken announcements of close objects *)

Module VoiceAnnouncer.
Import QCmp PyQueue.

Record State : Type := mkState {
  enabled : bool;
  (** [self.engine] is not [None] *)
  engine : bool;
  engine_name : string;
  voice_queue : Queue string;
  last_announcement_time : gmap string Q;
  announcement_debounce : Q
}.

(** The announcer as [__init__] leaves it; [enabled], [engine] and
    [engine_name] are what the configuration and [_initialize_engine]
    made of them. *)
Definition after_init (enabled engine : bool) (engine_name : string) : State :=
  {| enabled := enabled; engine := engine; engine_name := engine_name;
     voice_queue := new 10;
     last_announcement_time := ∅;
     announcement_debounce := 2 |}.

Section Announce.
(** [_translate_to_spanish(object_name, obstacle_type)] and
    [_generate_message(spanish_name, obstacle_type)]: the text is carried
    through the queue unread. *)
Variable _translate_to_spanish : string -> string -> string.
Variable _generate_message : string -> string -> string.

(** [announce_close_object(object_name, obstacle_type)] at clock value
    [current_time].  The second component is the message generated, [None]
    when the call returns before generating one. *)
Definition announce_close_object (object_name obstacle_type : string)
    (current_time : Q) (self : State) : State * option string :=
  if negb (enabled self) then (self, None)
  else if negb (engine self) && (engine_name self =? "pyttsx3")%string then (self, None)
  else
    let recent :=
      match last_announcement_time self !! object_name with
      | Some t => Qltb (current_time - t) (announcement_debounce self)
      | None => false
      end in
    if recent then (self, None)
    else
      let times := <[object_name := current_time]> (last_announcement_time self) in
      let spanish_name := _translate_to_spanish object_name obstacle_type in
      let message := _generate_message spanish_name obstacle_type in
      let q := voice_queue self in
      let q1 :=
        if full q then
          match get_nowait q with
          | Some (_, q') => q'
          | None => q
          end
        else q in
      let q2 :=
        match put_nowait message q1 with
        | Some q' => q'
        | None => q1
        end in
      ({| enabled := enabled self; engine := engine self;
          engine_name := engine_name self;
          voice_queue := q2;
          last_announcement_time := times;
          announcement_debounce := announcement_debounce self |},
       Some message).

(** [_speak(text)]: whether the text reaches an engine. *)
Definition _speak (text : string) (self : State) : bool :=
  if negb (enabled self) || (text =? "")%string then false
  else if (engine_name self =? "pyttsx3")%string && engine self then true
  else (engine_name self =? "gtts")%string.

(** One turn of [_process_voice_queue]: the text spoken, if any. *)
Definition _process_voice_queue (self : State) : State * option string :=
  match get_nowait (voice_queue self) with
  | None => (self, None)
  | Some (text, q') =>
      ({| enabled := enabled self; engine := engine self;
          engine_name := engine_name self;
          voice_queue := q';
          last_announcement_time := last_announcement_time self;
          announcement_debounce := announcement_debounce self |},
       if negb (text =? "")%string && _speak text self then Some text else None)
  end.

(** [set_enabled(enabled)]: disabling empties the queue. *)
Definition set_enabled (b : bool) (self : State) : State :=
  {| enabled := b; engine := engine self;
     engine_name := engine_name self;
     voice_queue :=
       if negb b then mkQueue (maxsize (voice_queue self)) [] else voice_queue self;
     last_announcement_time := last_announcement_time self;
     announcement_debounce := announcement_debounce self |}.

(** What the threads do to one announcer, in some order; the schedules
    include every interleaving the threads can produce. *)
Inductive event : Type :=
| Announce (object_name obstacle_type : string) (current_time : Q)
| Work
| SetEnabled (b : bool).

(** What a schedule produced: the announcements that passed the debounce
    (name, time, message) and the texts spoken, both in order. *)
Record Trace : Type := mkTrace {
  final : State;
  generated : list (string * Q * string);
  spoken : list string
}.

Fixpoint run (events : list event) (self : State) : Trace :=
  match events with
  | [] => {| final := self; generated := []; spoken := [] |}
  | Announce object_name obstacle_type current_time :: rest =>
      let '(s1, r) := announce_close_object object_name obstacle_type current_time self in
      let tr := run rest s1 in
      match r with
      | Some message =>
          {| final := final tr;
             generated := (object_name, current_time, message) :: generated tr;
             spoken := spoken tr |}
      | None => tr
      end
  | Work :: rest =>
      let '(s1, r) := _process_voice_queue self in
      let tr := run rest s1 in
      match r with
      | Some text =>
          {| final := final tr; generated := generated tr;
             spoken := text :: spoken tr |}
      | None => tr
      end
  | SetEnabled b :: rest => run rest (set_enabled b self)
  end.

Definition messages (tr : Trace) : list string := map snd (generated tr).

(** A schedule without worker turns and without switches of the flag. *)
Definition is_announce (e : event) : Prop :=
  match e with
  | Announce _ _ _ => True
  | _ => False
  end.

(** The two outcomes of [announce_close_object]. *)
Lemma announce_close_object_cases (n ty : string) (t : Q) (s : State) :
  0 < maxsize (voice_queue s) -> qsize (voice_queue s) <= maxsize (voice_queue s) ->
  announce_close_object n ty t s = (s, None) \/
  exists s1 m dropped,
    announce_close_object n ty t s = (s1, Some m) /\
    items (voice_queue s) ++ [m] = dropped ++ items (voice_queue s1) /\
    maxsize (voice_queue s1) = maxsize (voice_queue s) /\
    qsize (voice_queue s1) <= maxsize (voice_queue s) /\
    last_announcement_time s1 = <[n := t]> (last_announcement_time s) /\
    announcement_debounce s1 = announcement_debounce s /\
    (forall t0, last_announcement_time s !! n = Some t0 ->
                (announcement_debounce s <= t - t0)%Q).
Proof.
  intros Hm Hs. unfold announce_close_object.
  destruct (negb (enabled s)); [now left|].
  destruct (negb (engine s) && (engine_name s =? "pyttsx3")%string); [now left|].
  set (recent := match last_announcement_time s !! n with
                 | Some t0 => Qltb (t - t0) (announcement_debounce s)
                 | None => false end).
  destruct recent eqn:Er; [now left|]. right.
  assert (Hdeb : forall t0, last_announcement_time s !! n = Some t0 ->
                            (announcement_debounce s <= t - t0)%Q).
  { intros t0 H0. subst recent. rewrite H0 in Er. now apply Qltb_ge. }
  set (m := _generate_message (_translate_to_spanish n ty) ty).
  destruct (full (voice_queue s)) eqn:Ef.
  - apply full_iff in Ef. unfold get_nowait, qsize in *.
    destruct (items (voice_queue s)) as [|x r] eqn:Ei; [cbn in Ef; lia|].
    assert (Enf : full (mkQueue (maxsize (voice_queue s)) r) = false).
    { destruct (full _) eqn:E; [|reflexivity]. apply full_iff in E.
      unfold qsize in E. cbn in E, Hs. lia. }
    rewrite (put_nowait_not_full m _ Enf). cbn [maxsize items].
    eexists _, m, [x]. split; [reflexivity|]. cbn [voice_queue maxsize items
      last_announcement_time announcement_debounce].
    split; [reflexivity|]. split; [reflexivity|].
    split; [cbn in *; rewrite length_app; cbn; lia|]. now repeat split.
  - rewrite (put_nowait_not_full m _ Ef).
    eexists _, m, []. split; [reflexivity|]. cbn [voice_queue maxsize items
      last_announcement_time announcement_debounce].
    split; [reflexivity|]. split; [reflexivity|].
    split; [|now repeat split].
    destruct (Z.le_gt_cases (maxsize (voice_queue s)) (qsize (voice_queue s))) as [Hge|Hlt].
    + assert (full (voice_queue s) = true) by (apply full_iff; lia). congruence.
    + unfold qsize in *. cbn [items]. rewrite length_app. cbn. lia.
Qed.

Lemma process_voice_queue_cases (s : State) :
  _process_voice_queue s = (s, None) /\ items (voice_queue s) = [] \/
  exists s1 x r,
    _process_voice_queue s = (s1, r) /\
    items (voice_queue s) = x :: items (voice_queue s1) /\
    (r = None \/ r = Some x) /\
    maxsize (voice_queue s1) = maxsize (voice_queue s) /\
    last_announcement_time s1 = last_announcement_time s /\
    announcement_debounce s1 = announcement_debounce s.
Proof.
  unfold _process_voice_queue, get_nowait.
  destruct (items (voice_queue s)) as [|x r] eqn:Ei; [now left|]. right.
  eexists _, x, _. split; [reflexivity|]. split; [reflexivity|].
  split; [|now repeat split].
  destruct (negb (x =? "")%string && _speak x s); [now right|now left].
Qed.

(** The queue invariant of a schedule. *)
Lemma run_queue_inv (events : list event) (s : State) :
  0 < maxsize (voice_queue s) -> qsize (voice_queue s) <= maxsize (voice_queue s) ->
  let tr := run events s in
  qsize (voice_queue (final tr)) <= maxsize (voice_queue s) /\
  items (voice_queue (final tr)) `suffix_of` items (voice_queue s) ++ messages tr /\
  spoken tr ++ items (voice_queue (final tr))
    `sublist_of` items (voice_queue s) ++ messages tr.
Proof.
  revert s. induction events as [|e rest IH]; intros s Hm Hs.
  - cbn. unfold messages. cbn. rewrite app_nil_r. now repeat split.
  - destruct e as [n ty t| |b]; cbn [run].
    + destruct (announce_close_object_cases n ty t s Hm Hs)
        as [->|(s1 & m & dropped & -> & Hq & Hm1 & Hs1 & _)].
      * apply (IH s Hm Hs).
      * destruct (IH s1) as (Hb & Hsuf & Hsub); [lia|lia|].
        unfold messages in *. cbn [final generated spoken map snd].
        rewrite Hm1 in Hb. split; [exact Hb|].
        replace (items (voice_queue s) ++ m :: map snd (generated (run rest s1)))
          with (dropped ++ items (voice_queue s1) ++ map snd (generated (run rest s1))).
        2:{ rewrite (app_assoc dropped), <- Hq, <- app_assoc. reflexivity. }
        split.
        -- now apply suffix_app_r.
        -- now apply sublist_inserts_l.
    + destruct (process_voice_queue_cases s)
        as [[-> Hi]|(s1 & x & r & -> & Hi & Hr & Hm1 & _)].
      * apply (IH s Hm Hs).
      * destruct (IH s1) as (Hb & Hsuf & Hsub).
        { lia. }
        { unfold qsize in *. rewrite Hi in Hs. cbn in Hs. lia. }
        rewrite Hm1 in Hb. rewrite Hi.
        assert (Hsuf' : items (voice_queue (final (run rest s1)))
                  `suffix_of` (x :: items (voice_queue s1)) ++ messages (run rest s1)).
        { cbn. now apply suffix_cons_r. }
        destruct Hr as [-> | ->]; cbn [final generated spoken messages].
        -- split; [exact Hb|]. split; [exact Hsuf'|].
           cbn. now apply sublist_cons.
        -- split; [exact Hb|]. split; [exact Hsuf'|].
           cbn. now apply sublist_skip.
    + destruct b.
      * exact (IH (set_enabled true s) Hm Hs).
      * destruct (IH (set_enabled false s)) as (Hb & Hsuf & Hsub).
        { exact Hm. }
        { unfold qsize. cbn. lia. }
        cbn [set_enabled negb voice_queue maxsize items] in *.
        split; [exact Hb|]. cbn [app] in Hsuf, Hsub. split.
        -- now apply suffix_app_r.
        -- now apply sublist_inserts_l.
Qed.

(** The debounce invariant of a schedule. *)
Lemma run_spaced (events : list event) (s : State) :
  (0 <= announcement_debounce s)%Q ->
  let acc := generated (run events s) in
  (forall n t m t0, (n, t, m) ∈ acc -> last_announcement_time s !! n = Some t0 ->
                    (announcement_debounce s <= t - t0)%Q) /\
  (forall i j n ti tj mi mj, (i < j)%nat ->
     acc !! i = Some (n, ti, mi) -> acc !! j = Some (n, tj, mj) ->
     (announcement_debounce s <= tj - ti)%Q).
Proof.
  revert s. induction events as [|e rest IH]; intros s Hd.
  - cbn. split; [intros n t m t0 H; inversion H|intros i j n ti tj mi mj _ H; discriminate].
  - destruct e as [n0 ty t| |b]; cbn [run].
    + unfold announce_close_object.
      destruct (negb (enabled s)); [now apply IH|].
      destruct (negb (engine s) && (engine_name s =? "pyttsx3")%string); [now apply IH|].
      destruct (match last_announcement_time s !! n0 with
                | Some t0 => Qltb (t - t0) (announcement_debounce s)
                | None => false end) eqn:Er; [now apply IH|].
      match goal with |- context [run rest ?s1] => set (st1 := s1) end.
      destruct (IH st1 Hd) as (H1 & H2).
      cbn [generated]. subst st1.
      cbn [last_announcement_time announcement_debounce] in H1, H2.
      assert (Hhead : forall t0, last_announcement_time s !! n0 = Some t0 ->
                (announcement_debounce s <= t - t0)%Q).
      { intros t0 H0. rewrite H0 in Er. now apply Qltb_ge. }
      split.
      * intros n t' m t0 Hin H0. apply elem_of_cons in Hin as [E|Hin].
        -- injection E as En Et _. subst n t'. now apply Hhead.
        -- destruct (decide (n = n0)) as [->|Hne].
           ++ pose proof (H1 n0 t' m t Hin (lookup_insert_eq _ _ _)) as Ha.
              pose proof (Hhead t0 H0) as Hb. Lqa.lra.
           ++ apply (H1 n t' m t0 Hin). now rewrite lookup_insert_ne.
      * intros i j n ti tj mi mj Hij Hi Hj.
        destruct j as [|j]; [lia|]. cbn in Hj.
        destruct i as [|i].
        -- cbn in Hi. injection Hi as En Et _. subst n0 t.
           apply (H1 n tj mj ti); [|apply lookup_insert_eq].
           now apply list_elem_of_lookup_2 in Hj.
        -- cbn in Hi. apply (H2 i j n ti tj mi mj); [lia|assumption|assumption].
    + destruct (process_voice_queue_cases s)
        as [[-> Hi]|(s1 & x & r & -> & Hi & Hr & Hm1 & Hl & Hdb)].
      * now apply IH.
      * destruct (IH s1) as (H1 & H2); [now rewrite Hdb|].
        rewrite Hl, Hdb in H1. rewrite Hdb in H2.
        destruct Hr as [-> | ->]; cbn [generated]; now split.
    + apply (IH (set_enabled b s)). exact Hd.
Qed.

(** What a call that generates a message does to the ten-place queue:
    the message is put last, and when ten were pending the oldest of them
    is taken out. *)
Lemma announce_queue_exact (n ty : string) (t : Q) (s s1 : State) (m : string) :
  maxsize (voice_queue s) = 10 ->
  (length (items (voice_queue s)) <= 10)%nat ->
  announce_close_object n ty t s = (s1, Some m) ->
  items (voice_queue s1)
    = drop (S (length (items (voice_queue s))) - 10) (items (voice_queue s) ++ [m]) /\
  maxsize (voice_queue s1) = 10 /\
  (length (items (voice_queue s1)) <= 10)%nat.
Proof.
  intros Hm Hs. unfold announce_close_object.
  destruct (negb (enabled s)); [discriminate|].
  destruct (negb (engine s) && (engine_name s =? "pyttsx3")%string); [discriminate|].
  destruct (match last_announcement_time s !! n with
            | Some t0 => Qltb (t - t0) (announcement_debounce s)
            | None => false end); [discriminate|].
  intros [= <- <-]. cbn [voice_queue].
  set (m := _generate_message (_translate_to_spanish n ty) ty).
  destruct (full (voice_queue s)) eqn:Ef.
  - apply full_iff in Ef. unfold get_nowait, qsize in *. rewrite Hm in Ef.
    destruct (items (voice_queue s)) as [|x r] eqn:Ei; [cbn in Ef; lia|].
    cbn [length] in Ef, Hs |- *.
    assert (Hr : length r = 9%nat) by lia.
    assert (Enf : full (mkQueue (maxsize (voice_queue s)) r) = false).
    { destruct (full _) eqn:E; [|reflexivity]. apply full_iff in E.
      unfold qsize in E. cbn in E. lia. }
    rewrite (put_nowait_not_full m _ Enf). cbn [maxsize items].
    rewrite Hr. cbn [Nat.sub drop app]. rewrite drop_0.
    split; [reflexivity|]. split; [exact Hm|]. rewrite length_app. cbn. lia.
  - rewrite (put_nowait_not_full m _ Ef). cbn [maxsize items].
    assert (Hlt : (length (items (voice_queue s)) < 10)%nat).
    { destruct (decide (length (items (voice_queue s)) < 10)%nat) as [|Hge]; [assumption|].
      assert (full (voice_queue s) = true)
        by (apply full_iff; unfold qsize; rewrite Hm; lia).
      congruence. }
    replace (S (length (items (voice_queue s))) - 10)%nat with 0%nat by lia.
    rewrite drop_0. split; [reflexivity|]. split; [exact Hm|].
    rewrite length_app. cbn. lia.
Qed.

(** The queue keeps its capacity. *)
Lemma run_maxsize (events : list event) (s : State) :
  maxsize (voice_queue (final (run events s))) = maxsize (voice_queue s).
Proof.
  revert s. induction events as [|e rest IH]; intros s; [reflexivity|].
  destruct e as [n ty t| |b]; cbn [run].
  - assert (Hs1 : maxsize (voice_queue (fst (announce_close_object n ty t s)))
                  = maxsize (voice_queue s)).
    { unfold announce_close_object.
      destruct (negb (enabled s)); [reflexivity|].
      destruct (negb (engine s) && (engine_name s =? "pyttsx3")%string); [reflexivity|].
      destruct (match last_announcement_time s !! n with
                | Some t0 => Qltb (t - t0) (announcement_debounce s)
                | None => false end); [reflexivity|].
      cbn [fst voice_queue]. unfold put_nowait, get_nowait.
      destruct (full (voice_queue s)); [destruct (items (voice_queue s))|];
        match goal with |- context [if full ?q then _ else _] => destruct (full q) end;
        reflexivity. }
    destruct (announce_close_object n ty t s) as [s1 [m|]]; cbn [fst] in Hs1;
      cbn [final]; now rewrite IH.
  - assert (Hs1 : maxsize (voice_queue (fst (_process_voice_queue s)))
                  = maxsize (voice_queue s)).
    { unfold _process_voice_queue, get_nowait.
      destruct (items (voice_queue s)); reflexivity. }
    destruct (_process_voice_queue s) as [s1 [x|]]; cbn [fst] in Hs1;
      cbn [final]; now rewrite IH.
  - rewrite IH. unfold set_enabled. cbn. now destruct b.
Qed.

(** With announcements only, the pending messages are the last ten that
    were pending or generated. *)
Lemma run_announce_only (events : list event) (s : State) :
  maxsize (voice_queue s) = 10 ->
  (length (items (voice_queue s)) <= 10)%nat ->
  Forall is_announce events ->
  let all := items (voice_queue s) ++ messages (run events s) in
  items (voice_queue (final (run events s))) = drop (length all - 10) all.
Proof.
  revert s. induction events as [|e rest IH]; intros s Hm Hs Hall.
  - cbn. unfold messages. cbn. rewrite app_nil_r.
    replace (length (items (voice_queue s)) - 10)%nat with 0%nat by lia.
    now rewrite drop_0.
  - apply Forall_cons in Hall as [He Hall].
    destruct e as [n ty t| |b]; [|destruct He|destruct He]. cbn [run].
    destruct (announce_close_object n ty t s) as [s1 [m|]] eqn:Ea.
    + destruct (announce_queue_exact n ty t s s1 m Hm Hs Ea) as (Hq & Hm1 & Hs1).
      specialize (IH s1 Hm1 Hs1 Hall). cbn zeta in IH |- *.
      unfold messages in *. cbn [final generated map snd].
      rewrite IH, Hq. clear IH.
      set (old := items (voice_queue s)) in *.
      set (new := map snd (generated (run rest s1))).
      replace (old ++ m :: new) with ((old ++ [m]) ++ new)
        by (now rewrite <- app_assoc).
      destruct (decide (length old = 10%nat)) as [E|E].
      * replace (S (length old) - 10)%nat with 1%nat by lia.
        rewrite <- (drop_app_le (old ++ [m]) new 1)
          by (rewrite length_app; cbn; lia).
        rewrite drop_drop. f_equal.
        rewrite length_drop, !length_app. cbn [length]. lia.
      * replace (S (length old) - 10)%nat with 0%nat by lia.
        now rewrite drop_0.
    + assert (s1 = s) as ->.
      { revert Ea. unfold announce_close_object.
        destruct (negb (enabled s)); [now intros [= <-]|].
        destruct (negb (engine s) && (engine_name s =? "pyttsx3")%string);
          [now intros [= <-]|].
        destruct (match last_announcement_time s !! n with
                  | Some t0 => Qltb (t - t0) (announcement_debounce s)
                  | None => false end); [now intros [= <-]|discriminate]. }
      exact (IH s Hm Hs Hall).
Qed.

End Announce.

(** Under every schedule of announcements, worker turns and switches of
    the enabled flag, starting from a new announcer: at most ten messages
    are pending, they are the most recently generated ones, and the texts
    spoken followed by those pending are, in order, a selection of the
    messages generated.  A further call that generates a message puts it
    last in the queue and, exactly when ten messages are pending, takes
    out the oldest of them and no other.  So after a schedule of
    announcements only, the pending messages are exactly the last ten
    generated. *)
Theorem voice_queue_keeps_newest (translate generate : string -> string -> string)
    (on engine_ok : bool) (engine_name : string) (events : list event) :
  let tr := run translate generate events (after_init on engine_ok engine_name) in
  let pending := items (voice_queue (final tr)) in
  (length pending <= 10)%nat /\
  pending `suffix_of` messages tr /\
  spoken tr ++ pending `sublist_of` messages tr /\
  (forall (n ty : string) (t : Q) (s1 : State) (m : string),
     announce_close_object translate generate n ty t (final tr) = (s1, Some m) ->
     items (voice_queue s1) = drop (S (length pending) - 10) (pending ++ [m])) /\
  (Forall is_announce events ->
   pending = drop (length (messages tr) - 10) (messages tr)).
Proof.
  intros tr pending.
  destruct (run_queue_inv translate generate events (after_init on engine_ok engine_name))
    as (Hb & Hsuf & Hsub).
  - reflexivity.
  - vm_compute. discriminate.
  - fold tr in Hb, Hsuf, Hsub. fold pending in Hb, Hsuf, Hsub.
    assert (Hlen : (length pending <= 10)%nat).
    { unfold qsize in Hb. cbn in Hb. fold pending in Hb. lia. }
    split; [exact Hlen|]. split; [exact Hsuf|]. split; [exact Hsub|]. split.
    + intros n ty t s1 m Ha.
      refine (proj1 (announce_queue_exact translate generate n ty t (final tr) s1 m _ Hlen Ha)).
      subst tr. now rewrite run_maxsize.
    + intros Hall.
      exact (run_announce_only translate generate events
               (after_init on engine_ok engine_name) eq_refl (Nat.le_0_l 10) Hall).
Qed.

(** Eleven objects announced in a row with no worker turn: the first
    message is the one that is gone, the ten after it are pending. *)
Lemma voice_queue_keeps_newest_witness :
  let translate := fun (name _ : string) => name in
  let generate := fun (name _ : string) => ("Hay " +:+ name)%string in
  let names := ["a"; "b"; "c"; "d"; "e"; "f"; "g"; "h"; "i"; "j"; "k"]%string in
  let events := map (fun name => Announce name "object" 0) names in
  let tr := run translate generate events (after_init true true "pyttsx3") in
  messages tr = map (fun name => ("Hay " +:+ name)%string) names /\
  items (voice_queue (final tr))
    = map (fun name => ("Hay " +:+ name)%string)
          ["b"; "c"; "d"; "e"; "f"; "g"; "h"; "i"; "j"; "k"]%string.
Proof.
  intros translate generate names events tr.
  assert (E : messages tr = map (fun name => ("Hay " +:+ name)%string) names)
    by (vm_compute; reflexivity).
  split; [exact E|].
  destruct (voice_queue_keeps_newest translate generate true true "pyttsx3" events)
    as (_ & _ & _ & _ & Hlast).
  fold tr in Hlast. rewrite Hlast.
  - rewrite E. reflexivity.
  - subst events names. repeat constructor.
Defined.

(** Two announcements of the same object name that pass the debounce are
    at least 2.0 seconds apart, under every schedule and whatever else is
    announced in between. *)
Theorem announcements_of_a_name_are_spaced
    (translate generate : string -> string -> string)
    (on engine_ok : bool) (engine_name : string) (events : list event)
    (i j : nat) (n : string) (ti tj : Q) (mi mj : string) :
  let tr := run translate generate events (after_init on engine_ok engine_name) in
  (i < j)%nat ->
  generated tr !! i = Some (n, ti, mi) ->
  generated tr !! j = Some (n, tj, mj) ->
  (2 <= tj - ti)%Q.
Proof.
  intros tr Hij Hi Hj.
  destruct (run_spaced translate generate events (after_init on engine_ok engine_name))
    as (_ & H2).
  - cbn. discriminate.
  - exact (H2 i j n ti tj mi mj Hij Hi Hj).
Qed.

Lemma announcements_of_a_name_are_spaced_witness :
  let translate := fun (name _ : string) => name in
  let generate := fun (name _ : string) => ("Hay " +:+ name)%string in
  let events :=
    [Announce "chair" "furniture" 10; Announce "chair" "furniture" 11;
     Announce "person" "person" (23 # 2); Announce "chair" "furniture" (25 # 2)] in
  let tr := run translate generate events (after_init true true "pyttsx3") in
  generated tr
    = [("chair"%string, 10%Q, "Hay chair"%string);
       ("person"%string, (23 # 2)%Q, "Hay person"%string);
       ("chair"%string, (25 # 2)%Q, "Hay chair"%string)] /\
  (2 <= (25 # 2) - 10)%Q.
Proof.
  intros translate generate events tr.
  assert (E : generated tr
    = [("chair"%string, 10%Q, "Hay chair"%string);
       ("person"%string, (23 # 2)%Q, "Hay person"%string);
       ("chair"%string, (25 # 2)%Q, "Hay chair"%string)])
    by (vm_compute; reflexivity).
  split; [exact E|].
  apply (announcements_of_a_name_are_spaced translate generate true true "pyttsx3"
           events 0 2 "chair" 10 (25 # 2) "Hay chair" "Hay chair").
  - lia.
  - fold tr. rewrite E. reflexivity.
  - fold tr. rewrite E. reflexivity.
Defined.

End VoiceAnnouncer.

(** ** The speech queue of the browser variant *)

Module AudioManager.
Import PyQueue.

(** [not text or not text.strip()] *)
Definition blank (text : string) : bool :=
  match PyStr.strip (PyStr.text text) with
  | [] => true
  | _ => false
  end.

(** The outcome of [speak]: [Blocked] is the [put] without [block=False]
    waiting on a full queue. *)
Inductive speak_result : Type :=
| Done (q : Queue string)
| Blocked (q : Queue string).

(** [self.audio_queue = queue.Queue(maxsize=AUDIO_QUEUE_MAX_SIZE)] *)
Definition audio_queue_init (AUDIO_QUEUE_MAX_SIZE : Z) : Queue string :=
  new AUDIO_QUEUE_MAX_SIZE.

(** [stop()], and the loop that empties the queue for a priority text. *)
Definition stop (q : Queue string) : Queue string := mkQueue (maxsize q) [].

(** [speak(text, priority)] *)
Definition speak (text : string) (priority : bool) (q : Queue string) : speak_result :=
  if blank text then Done q
  else
    let q1 := if priority then stop q else q in
    let q2 :=
      if full q1 then
        match get_nowait q1 with
        | Some (_, q') => q'
        | None => q1
        end
      else q1 in
    if full q2 then Blocked q2
    else Done (mkQueue (maxsize q2) (items q2 ++ [text])).

(** One turn of [_process_audio_queue]: the text handed to the engine, if
    any. *)
Definition _process_audio_queue (q : Queue string) : Queue string * option string :=
  match get_nowait q with
  | None => (q, None)
  | Some (text, q') => (q', if (text =? "")%string then None else Some text)
  end.

(** What the script and the worker thread do to the queue, in some
    order. *)
Inductive event : Type :=
| Speak (text : string) (priority : bool)
| Work
| Stop.

(** The texts a schedule asks to speak, the blank ones left out. *)
Definition requested (events : list event) : list string :=
  omap (fun e => match e with
                 | Speak text _ => if blank text then None else Some text
                 | _ => None
                 end) events.

(** The queue and the texts spoken after a schedule; [None] when a
    [speak] waits for room. *)
Fixpoint run (events : list event) (q : Queue string)
    : option (Queue string * list string) :=
  match events with
  | [] => Some (q, [])
  | Speak text priority :: rest =>
      match speak text priority q with
      | Done q1 => run rest q1
      | Blocked _ => None
      end
  | Work :: rest =>
      let '(q1, r) := _process_audio_queue q in
      match run rest q1, r with
      | Some (q2, spoken), Some text => Some (q2, text :: spoken)
      | Some (q2, spoken), None => Some (q2, spoken)
      | None, _ => None
      end
  | Stop :: rest => run rest (stop q)
  end.

(** A queue that respects its bound. *)
Definition within_bound (q : Queue string) : Prop :=
  maxsize q <= 0 \/ qsize q <= maxsize q.

Lemma not_full_room (q : Queue string) (x : string) :
  within_bound q -> full q = false ->
  within_bound (mkQueue (maxsize q) (items q ++ [x])).
Proof.
  intros Hb Hf. unfold within_bound in *. cbn [maxsize].
  destruct (Z.le_gt_cases (maxsize q) 0) as [|Hpos]; [now left|right].
  destruct Hb as [|Hb]; [lia|].
  destruct (Z.le_gt_cases (maxsize q) (qsize q)) as [Hge|Hlt].
  - assert (full q = true) by (apply full_iff; lia). congruence.
  - unfold qsize in *. cbn [items]. rewrite length_app. cbn. lia.
Qed.

(** After the eviction step there is room. *)
Lemma evict_cases (q : Queue string) :
  within_bound q ->
  let q2 := if full q then match get_nowait q with Some (_, q') => q' | None => q end
            else q in
  full q2 = false /\ within_bound q2 /\ maxsize q2 = maxsize q /\
  exists dropped, items q = dropped ++ items q2.
Proof.
  intros Hb. destruct (full q) eqn:Ef.
  - pose proof Ef as Ef'. apply full_iff in Ef'. unfold qsize, get_nowait in *.
    destruct (items q) as [|x r] eqn:Ei; [cbn in Ef'; lia|].
    assert (Hlen : Z.of_nat (length r) < maxsize q).
    { destruct Hb as [|Hb]; [lia|]. unfold qsize in Hb. rewrite Ei in Hb. cbn in Hb. lia. }
    split; [|split; [|split]].
    + destruct (full (mkQueue (maxsize q) r)) eqn:E; [|reflexivity].
      apply full_iff in E. unfold qsize in E. cbn in E. lia.
    + right. unfold qsize. cbn. lia.
    + reflexivity.
    + now exists [x].
  - split; [exact Ef|]. split; [exact Hb|]. split; [reflexivity|]. now exists [].
Qed.

(** [speak] never waits: a blank text is ignored, any other is queued
    last, behind what an eviction or the priority left. *)
Lemma speak_cases (text : string) (priority : bool) (q : Queue string) :
  within_bound q ->
  blank text = true /\ speak text priority q = Done q \/
  blank text = false /\
  exists q' dropped,
    speak text priority q = Done q' /\
    items q ++ [text] = dropped ++ items q' /\
    maxsize q' = maxsize q /\ within_bound q' /\
    (priority = true -> items q' = [text]).
Proof.
  intros Hb. unfold speak. destruct (blank text); [now left|right].
  split; [reflexivity|].
  set (q1 := if priority then stop q else q).
  assert (Hb1 : within_bound q1).
  { subst q1. destruct priority; [|exact Hb].
    unfold within_bound, stop, qsize in *. cbn. lia. }
  assert (Hm1 : maxsize q1 = maxsize q) by (subst q1; now destruct priority).
  assert (Hd1 : exists d, items q = d ++ items q1).
  { subst q1. destruct priority; [exists (items q); cbn; now rewrite app_nil_r|now exists []]. }
  destruct (evict_cases q1 Hb1) as (Hnf & Hb2 & Hm2 & dropped & Hd2).
  set (q2 := if full q1 then match get_nowait q1 with Some (_, q') => q' | None => q1 end
             else q1) in *.
  rewrite Hnf. destruct Hd1 as [d Hd1].
  exists (mkQueue (maxsize q2) (items q2 ++ [text])), (d ++ dropped).
  split; [reflexivity|]. cbn [items maxsize].
  split; [rewrite Hd1, Hd2, <- !app_assoc; reflexivity|].
  split; [congruence|]. split; [now apply not_full_room|].
  intros ->. subst q1. cbn [stop items] in Hd2.
  symmetry in Hd2. apply app_eq_nil in Hd2 as [_ ->]. reflexivity.
Qed.

Lemma requested_speak (text : string) (priority : bool) (rest : list event) :
  requested (Speak text priority :: rest)
  = if blank text then requested rest else text :: requested rest.
Proof.
  unfold requested. cbn [omap list_omap]. now destruct (blank text).
Qed.

Lemma run_inv (events : list event) (q : Queue string) :
  within_bound q ->
  exists q' spoken,
    run events q = Some (q', spoken) /\
    maxsize q' = maxsize q /\ within_bound q' /\
    items q' `suffix_of` items q ++ requested events /\
    spoken ++ items q' `sublist_of` items q ++ requested events.
Proof.
  revert q. induction events as [|e rest IH]; intros q Hb.
  - exists q, []. cbn. rewrite app_nil_r. now repeat split.
  - destruct e as [text priority| |]; cbn [run].
    + rewrite requested_speak.
      destruct (speak_cases text priority q Hb)
        as [[Hbl ->]|[Hbl (q1 & dropped & -> & Hq & Hm1 & Hb1 & _)]]; rewrite Hbl.
      * apply (IH q Hb).
      * destruct (IH q1 Hb1) as (q' & spoken & Hr & Hm' & Hb' & Hsuf & Hsub).
        exists q', spoken. split; [exact Hr|]. split; [congruence|]. split; [exact Hb'|].
        replace (items q ++ text :: requested rest)
          with (dropped ++ items q1 ++ requested rest).
        2:{ rewrite (app_assoc dropped), <- Hq, <- app_assoc. reflexivity. }
        split; [now apply suffix_app_r|now apply sublist_inserts_l].
    + change (requested (Work :: rest)) with (requested rest).
      unfold _process_audio_queue, get_nowait.
      destruct (items q) as [|x r] eqn:Ei.
      * destruct (IH q Hb) as (q' & spoken & Hr & Hm' & Hb' & Hsuf & Hsub).
        exists q', spoken. rewrite Hr. rewrite Ei in Hsuf, Hsub. now repeat split.
      * destruct (IH (mkQueue (maxsize q) r)) as (q' & spoken & Hr & Hm' & Hb' & Hsuf & Hsub).
        { unfold within_bound, qsize in *. rewrite Ei in Hb. cbn in *. lia. }
        cbn [items maxsize] in *. rewrite Hr.
        assert (Hsuf' : items q' `suffix_of` (x :: r) ++ requested rest)
          by (cbn; now apply suffix_cons_r).
        destruct (x =? "")%string.
        -- exists q', spoken. split; [reflexivity|]. split; [exact Hm'|].
           split; [exact Hb'|]. split; [exact Hsuf'|]. cbn. now apply sublist_cons.
        -- exists q', (x :: spoken). split; [reflexivity|]. split; [exact Hm'|].
           split; [exact Hb'|]. split; [exact Hsuf'|]. cbn. now apply sublist_skip.
    + change (requested (Stop :: rest)) with (requested rest).
      destruct (IH (stop q)) as (q' & spoken & Hr & Hm' & Hb' & Hsuf & Hsub).
      { unfold within_bound, stop, qsize. cbn. lia. }
      cbn [stop items maxsize app] in *.
      exists q', spoken. split; [exact Hr|]. split; [exact Hm'|]. split; [exact Hb'|].
      split; [now apply suffix_app_r|now apply sublist_inserts_l].
Qed.

Lemma run_app (e1 e2 : list event) (q : Queue string) :
  run (e1 ++ e2) q =
  match run e1 q with
  | Some (q1, s1) =>
      match run e2 q1 with
      | Some (q2, s2) => Some (q2, s1 ++ s2)
      | None => None
      end
  | None => None
  end.
Proof.
  revert q. induction e1 as [|e rest IH]; intros q.
  - cbn. destruct (run e2 q) as [[q2 s2]|]; reflexivity.
  - destruct e as [text priority| |]; cbn [app run].
    + destruct (speak text priority q); [apply IH|reflexivity].
    + destruct (_process_audio_queue q) as [q1 r]. rewrite IH.
      destruct (run rest q1) as [[q2 s1]|]; [|reflexivity].
      destruct r; cbn; destruct (run e2 q2) as [[q3 s2]|]; reflexivity.
    + apply IH.
Qed.

Lemma requested_not_blank (events : list event) :
  Forall (fun text => blank text = false) (requested events).
Proof.
  induction events as [|e rest IH]; [constructor|].
  destruct e as [text priority| |]; [|exact IH|exact IH].
  rewrite requested_speak.
  destruct (blank text) eqn:E; [exact IH|]. now constructor.
Qed.

(** Under every schedule of [speak] calls, worker turns and [stop] calls
    on a new manager, whatever the configured queue size: no [speak] has
    to wait for room; a positive size is never exceeded; no blank text is
    ever queued or spoken; the pending texts are the most recently
    requested ones, and spoken and pending texts are, in order, a
    selection of those requested; and a priority [speak] of a text that
    is not blank leaves that text as the only pending one. *)
Theorem speech_queue_schedule (AUDIO_QUEUE_MAX_SIZE : Z) (events : list event) :
  exists (q : Queue string) (spoken : list string),
    run events (audio_queue_init AUDIO_QUEUE_MAX_SIZE) = Some (q, spoken) /\
    (0 < AUDIO_QUEUE_MAX_SIZE -> qsize q <= AUDIO_QUEUE_MAX_SIZE) /\
    Forall (fun text => blank text = false) (spoken ++ items q) /\
    items q `suffix_of` requested events /\
    spoken ++ items q `sublist_of` requested events /\
    (forall text, blank text = false ->
       exists q',
         run (events ++ [Speak text true]) (audio_queue_init AUDIO_QUEUE_MAX_SIZE)
           = Some (q', spoken) /\
         items q' = [text]).
Proof.
  assert (Hb0 : within_bound (audio_queue_init AUDIO_QUEUE_MAX_SIZE)).
  { unfold within_bound, audio_queue_init, new, qsize. cbn.
    destruct (Z.le_gt_cases AUDIO_QUEUE_MAX_SIZE 0); [now left|right; lia]. }
  destruct (run_inv events _ Hb0) as (q & spoken & Hr & Hm & Hb & Hsuf & Hsub).
  cbn [audio_queue_init new items maxsize app] in Hm, Hsuf, Hsub.
  exists q, spoken. split; [exact Hr|].
  split; [intros Hpos; destruct Hb as [Hb|Hb]; lia|].
  split.
  { apply Forall_forall. intros text Hin.
    pose proof (requested_not_blank events) as Hall.
    rewrite Forall_forall in Hall. apply Hall.
    exact (elem_of_sublist _ _ _ Hin Hsub). }
  split; [exact Hsuf|]. split; [exact Hsub|].
  intros text Hbl. rewrite run_app, Hr. cbn [run].
  destruct (speak_cases text true q Hb)
    as [[Hbl' _]|[_ (q1 & dropped & -> & _ & _ & _ & Hone)]]; [congruence|].
  exists q1. rewrite app_nil_r. split; [reflexivity|now apply Hone].
Qed.

End AudioManager.
